(** * Transient bidirectional path tracer: the worker, the film and the
      coded perspective camera

    A shallow embedding of [src/integrators/bdpt/bdpt_proc.cpp]
    ([BDPTRenderer::process], [evaluate], [BDPTProcess::processResult]), of [src/librender/film.cpp] (the two
    constructors, [serialize], [addChild], [configure]) and of
    [src/sensors/codedPerspective.cpp] ([importance],
    [internalEvalDirection], [getSamplePosition], [sampleDirect]).

    Conventions.
    - [Float] is the single-precision type. A [Float] value is the rational
      ([Q]) it denotes. Where the outcome depends on rounding (the bin index,
      the frame count, the low-discrepancy target) every operation is
      followed by the rounding to binary32 of module [F32]; elsewhere the
      arithmetic is taken as exact. The one place where the code relies on a
      value that is not a number (the [0/0] variance after the first sample
      of the adaptive loop) is written out with [option].
    - [size_t] and [int] values are [Z]; where the code converts or multiplies
      in [size_t] the reduction modulo [2^64] is written out, and where it
      adds in [int] the reduction to 32 bits.
    - Collaborators whose code lives elsewhere in the renderer (scene
      queries, BSDF evaluation, the sampler, the multiple-importance weight)
      enter as data: the values they returned for one (s,t) connection. *)

From Stdlib Require Import ZArith NArith QArith Qround Qabs Lia Lqa String.
From Stdlib.Strings Require Byte.
From stdpp Require Import base list.

Local Open Scope Z_scope.

(* ================================================================== *)
(** * Part I: definitions *)
(* ================================================================== *)

(** ** Single-precision arithmetic *)

(** binary32 on the finite range: 24 significant bits, the unit in the last
    place never below [2^-149], rounding to nearest with ties to the even
    significand. Every operation is the exact one followed by [round].
    Overflow to infinity is not modelled. *)
Module F32.

Definition pow2 (e : Z) : Q :=
  if 0 <=? e then inject_Z (2 ^ e) else (1 / inject_Z (2 ^ (- e)))%Q.

(** the [e] with [2^e <= x < 2^(e+1)], for [x > 0] *)
Definition ilog2 (x : Q) : Z :=
  let e := Z.log2 (Qnum x) - Z.log2 (Zpos (Qden x)) in
  if Qle_bool (pow2 e) x then e else e - 1.

(** the nearest integer, the even one of two that are equally near *)
Definition rint (y : Q) : Z :=
  let f := Qfloor y in
  match (y - inject_Z f ?= 1 # 2)%Q with
  | Lt => f
  | Gt => f + 1
  | Eq => if Z.even f then f else f + 1
  end.

Definition round (x : Q) : Q :=
  let x := Qred x in
  if Qeq_bool x 0 then 0%Q
  else
    let a := Qabs x in
    let ulp := pow2 (Z.max (ilog2 a) (-126) - 23) in
    let r := Qred (inject_Z (rint (a / ulp)) * ulp) in
    if Qle_bool 0 x then r else (- r)%Q.

Definition add (x y : Q) : Q := round (x + y).
Definition sub (x y : Q) : Q := round (x - y).
Definition mul (x y : Q) : Q := round (x * y).
Definition div (x y : Q) : Q := round (x / y).

(** conversion of an integer to [Float] *)
Definition of_Z (z : Z) : Q := round (inject_Z z).

End F32.

(** ** Numbers and spectra *)

Module Numeric.

Definition size_t_max : Z := 2 ^ 64.

(** conversion of an integer value to [size_t] *)
Definition to_size_t (z : Z) : Z := z mod size_t_max.

(** the result of an [int] operation whose exact value is [z]: an overflow
    wraps around, as it does on the usual targets *)
Definition to_int (z : Z) : Z := (z + 2 ^ 31) mod 2 ^ 32 - 2 ^ 31.

(** [SPECTRUM_SAMPLES == 3]: a spectrum is an RGB triple. *)
Record Spectrum := mkSpectrum { sR : Q; sG : Q; sB : Q }.

Definition Spectrum_const (c : Q) : Spectrum := mkSpectrum c c c.

Definition Spectrum_add (a b : Spectrum) : Spectrum :=
  mkSpectrum (sR a + sR b) (sG a + sG b) (sB a + sB b).

Definition Spectrum_mul (a b : Spectrum) : Spectrum :=
  mkSpectrum (sR a * sR b) (sG a * sG b) (sB a * sB b).

Definition Spectrum_scale (a : Spectrum) (f : Q) : Spectrum :=
  mkSpectrum (sR a * f) (sG a * f) (sB a * f).

(** [Spectrum::operator/(Float)] *)
Definition Spectrum_div (a : Spectrum) (f : Q) : Spectrum :=
  mkSpectrum (sR a / f) (sG a / f) (sB a / f).

Definition isZero (a : Spectrum) : bool :=
  Qeq_bool (sR a) 0 && Qeq_bool (sG a) 0 && Qeq_bool (sB a) 0.

(** [value.toLinearRGB(temp[0], temp[1], temp[2])] for an RGB spectrum *)
Definition toLinearRGB (a : Spectrum) : Q * Q * Q := (sR a, sG a, sB a).

(** [Spectrum::getLuminance]: a fixed linear combination of the three
    channels; the coefficients live in the core library and are taken as
    data. *)
Record LuminanceWeights := mkLum { lumR : Q; lumG : Q; lumB : Q }.

Definition getLuminance (w : LuminanceWeights) (a : Spectrum) : Q :=
  (lumR w * sR a + lumG w * sG a + lumB w * sB a)%Q.

Definition Qlt_bool (a b : Q) : bool := negb (Qle_bool b a).

(** [std::max(a, b)] is [(a < b) ? b : a] *)
Definition Qmax (a b : Q) : Q := if Qlt_bool a b then b else a.

(** Float division where the divisor may be zero: the quotient is then not
    a finite number ([None]). *)
Definition fdiv (a b : Q) : option Q :=
  if Qeq_bool b 0 then None else Some (a / b)%Q.

(** [size_t binIndex = floor((pathLength - Min) / BinWidth)]
    (evaluate, line 760): a [Float] difference and a [Float] quotient, each
    rounded. The conversion of a negative value to [size_t] is left open by
    the language; here it is the reduction modulo [2^64]. *)
Definition binIndex (minBound binWidth pathLength : Q) : Z :=
  to_size_t (Qfloor (F32.div (F32.sub pathLength minBound) binWidth)).

(** Reading cell [i] of a float array. *)
Definition read (target : list Q) (i : nat) : Q := default 0%Q (target !! i).

(** A fatal log entry ([Log(EError, ...)], [SLog(EError, ...)]) aborts the
    computation; [Assert] failures do the same. *)
Inductive Result (A : Type) : Type :=
| Ok (a : A)
| Fatal (msg : string).
Arguments Ok {A} a.
Arguments Fatal {A} msg.

Definition bind {A B} (r : Result A) (k : A -> Result B) : Result B :=
  match r with
  | Ok a => k a
  | Fatal m => Fatal m
  end.

End Numeric.
Export Numeric.

Notation "'let*' x ':=' r 'in' k" := (bind r (fun x => k))
  (at level 10, x pattern, r at level 200, k at level 200).

(** ** Configuration records *)

Module Config.

Inductive EDecompositionType :=
| ESteadyState | ETransient | EBounce | ETransientEllipse.

Definition EDecompositionType_eqb (a b : EDecompositionType) : bool :=
  match a, b with
  | ESteadyState, ESteadyState | ETransient, ETransient
  | EBounce, EBounce | ETransientEllipse, ETransientEllipse => true
  | _, _ => false
  end.

(** [PathLengthSampler::EModulationType]: only the distinction between
    [ENone] and the modulated kinds is used by the worker. *)
Inductive EModulationType := ENone | EModulated.

(** [BDPTConfiguration], the fields the worker reads. *)
Record BDPTConfiguration := mkConfig {
  maxDepth : Z;
  rrDepth : Z;
  sampleDirect : bool;
  lightImage : bool;
  m_decompositionMinBound : Q;
  m_decompositionMaxBound : Q;
  m_decompositionBinWidth : Q;
  m_frames : Z;
  m_isldSampling : bool;
  m_isAdaptive : bool;
  m_adapMaxError : Q;
  m_adapQuantile : Q;
  m_adapMaxSampleFactor : Z
}.

End Config.
Export Config.

(** ** [BDPTRenderer::process]: the parts outside the sampling loops *)

Module Process.

(** *** Emitter check (lines 87-94) *)

Record Emitter := mkEmitter { getType : Z }.

Definition projector_msg : string :=
  "Set lightImage to be false in the integrator for projectors to work".

Section EmitterCheck.
(** The two flag bits are declared in the emitter header. *)
Variables EOrthographicEmitter EPerspectiveEmitter : Z.

Definition isProjector (e : Emitter) : bool :=
  negb (Z.land (getType e) (Z.lor EOrthographicEmitter EPerspectiveEmitter) =? 0).

(** One pass of the loop body for index [i]: the body reads
    [emitters[0]], whatever [i] is. *)
Definition emitter_check_body (emitters : list Emitter) (lightImg : bool)
    (i : nat) : Result unit :=
  match emitters !! 0%nat with
  | Some emitter =>
      if isProjector emitter && lightImg then Fatal projector_msg else Ok tt
  | None => Ok tt
  end.

Fixpoint emitter_check_loop (emitters : list Emitter) (lightImg : bool)
    (indices : list nat) : Result unit :=
  match indices with
  | [] => Ok tt
  | i :: rest =>
      let* _ := emitter_check_body emitters lightImg i in
      emitter_check_loop emitters lightImg rest
  end.

(** [for (int i = 0; i < emitters.size(); i++)] *)
Definition emitter_check (emitters : list Emitter) (lightImg : bool) : Result unit :=
  emitter_check_loop emitters lightImg (seq 0 (length emitters)).
End EmitterCheck.

(** *** Path-length target of the j-th sample of a pixel (lines 133-137) *)

(** [sampled] is the value of [result->samplePathLengthTarget(m_sampler)],
    [u] the value of [m_sampler->nextFloat()]. *)
Definition pathLengthTarget (cfg : BDPTConfiguration) (sampled : Q) (j : Z) (u : Q) : Q :=
  if negb (m_isldSampling cfg) then sampled
  else
    F32.add
      (F32.add (m_decompositionMinBound cfg)
         (F32.mul (m_decompositionBinWidth cfg) (F32.of_Z (j mod m_frames cfg))))
      (F32.mul (m_decompositionBinWidth cfg) u).

(** *** Pretraining of the adaptive controller (lines 155-200) *)

Definition fakeConfig (cfg : BDPTConfiguration) : BDPTConfiguration :=
  mkConfig (maxDepth cfg) (rrDepth cfg) (sampleDirect cfg) (lightImage cfg)
    (m_decompositionMinBound cfg) (m_decompositionMaxBound cfg)
    (m_decompositionMaxBound cfg - m_decompositionMinBound cfg)%Q
    1
    (m_isldSampling cfg) (m_isAdaptive cfg) (m_adapMaxError cfg)
    (m_adapQuantile cfg) (m_adapMaxSampleFactor cfg).

(** [fakeAverage] is the value of [fakeResult->average()]. *)
Definition averegeBitmap (cfg : BDPTConfiguration) (fakeAverage : Spectrum) : Spectrum :=
  Spectrum_div fakeAverage (inject_Z (m_frames cfg)).

Definition averageLuminance (w : LuminanceWeights) (cfg : BDPTConfiguration)
    (fakeAverage : Spectrum) : Q :=
  getLuminance w (averegeBitmap cfg fakeAverage).

(** [samplesPerBin = m_sampler->getSampleCount() / m_config.m_frames] *)
Definition samplesPerBin (sampleCount : Z) (cfg : BDPTConfiguration) : Z :=
  sampleCount / m_frames cfg.

End Process.
Export Process.

(** ** The adaptive sampling loop of [BDPTRenderer::process] (lines 215-299) *)

Module Adaptive.

(** *** Snapshot and restore of the neighbourhood (lines 225-230, 291-297) *)

(** The pairs [(y, x)] in the order of the two nested loops; position in
    the list is the running index [temp]. *)
Definition footprint (borderSize : Z) : list (Z * Z) :=
  let side := seqZ 0 (2 * borderSize + 1) in
  y ← side; x ← side; [(y, x)].

(** [target + ((hy+y) * sizeX + (hx+x)) * channels + j] *)
Definition src_index (hx hy sizeX channels j : Z) (yx : Z * Z) : nat :=
  Z.to_nat (((hy + fst yx) * sizeX + (hx + snd yx)) * channels + j).

Definition take_snapshot (target : list Q) (borderSize hx hy sizeX channels j : Z) : list Q :=
  map (fun yx => read target (src_index hx hy sizeX channels j yx)) (footprint borderSize).

(** The assignment of line 295: the cell at [src] receives
    [snapshot[temp] * (1-factor) + old * factor]. *)
Definition blend_one (hx hy sizeX channels j : Z) (factor : Q)
    (target : list Q) (entry : (Z * Z) * Q) : list Q :=
  let i := src_index hx hy sizeX channels j (fst entry) in
  <[ i := (snd entry * (1 - factor) + read target i * factor)%Q ]> target.

Definition restore (target snapshot : list Q) (factor : Q)
    (borderSize hx hy sizeX channels j : Z) : list Q :=
  fold_left (blend_one hx hy sizeX channels j factor)
    (zip (footprint borderSize) snapshot) target.

(** [factor = (Float) samplesPerBin / (Float) sampleCount] *)
Definition blend_factor (samplesPerBin sampleCount : Z) : Q :=
  (inject_Z samplesPerBin / inject_Z sampleCount)%Q.

(** *** Welford update (lines 265-269) *)

Record Welford := mkWelford { mean : Q; meanSqr : Q; sampleCount : Z }.

Definition welford_init : Welford := mkWelford 0 0 0.

Definition welford_update (st : Welford) (sampleLuminance : Q) : Welford :=
  let sampleCount' := to_size_t (sampleCount st + 1) in
  let delta := (sampleLuminance - mean st)%Q in
  let mean' := (mean st + delta / inject_Z sampleCount')%Q in
  let meanSqr' := (meanSqr st + delta * (sampleLuminance - mean'))%Q in
  mkWelford mean' meanSqr' sampleCount'.

(** The state after the samples [xs], were the loop never to exit. *)
Definition welford_run (xs : list Q) : Welford := fold_left welford_update xs welford_init.

Inductive ExitReason := Cancelled | HardCap | Converged | OutOfSamples.

Section Loop.
(** [std::sqrt] on floats, as data *)
Variable fsqrt : Q -> Q.
Variable cfg : BDPTConfiguration.
Variable samplesPerBin : Z.
Variable averageLuminance : Q.

(** [m_adapMaxSampleFactor >= 0 && sampleCount >= m_adapMaxSampleFactor * samplesPerBin];
    the product is taken in [size_t]. *)
Definition hardCap (st : Welford) : bool :=
  (0 <=? m_adapMaxSampleFactor cfg)
  && (to_size_t (m_adapMaxSampleFactor cfg * samplesPerBin) <=? sampleCount st).

(** Lines 275-280. With one sample the variance is [0/0], not a number. *)
Definition ciWidth (st : Welford) : option Q :=
  match fdiv (meanSqr st) (inject_Z (sampleCount st - 1)) with
  | Some variance =>
      let stdError := fsqrt (variance / inject_Z (sampleCount st)) in
      Some (stdError * m_adapQuantile cfg)%Q
  | None => None
  end.

Definition base (st : Welford) : Q := Qmax (mean st) (averageLuminance * (1 # 100)).

(** [ciWidth <= m_adapMaxError * base]; a comparison with a value that is
    not a number is false. *)
Definition converged (st : Welford) : bool :=
  match ciWidth st with
  | Some w => Qle_bool w (m_adapMaxError cfg * base st)
  | None => false
  end.

(** [while (true)]: each input is the value of [stop] polled at the top
    of the iteration and the luminance of the sample [evaluate] returned.
    [OutOfSamples] is the model's own: the inputs given were used up
    before the code left the loop. *)
Fixpoint adaptive_loop (inputs : list (bool * Q)) (st : Welford) : Welford * ExitReason :=
  match inputs with
  | [] => (st, OutOfSamples)
  | (stop, sampleLuminance) :: rest =>
      if stop then (st, Cancelled)
      else
        let st' := welford_update st sampleLuminance in
        if hardCap st' then (st', HardCap)
        else if samplesPerBin <=? sampleCount st' then
          if converged st' then (st', Converged) else adaptive_loop rest st'
        else adaptive_loop rest st'
  end.

(** The two tests after the update, as one decision. *)
Definition exit_test (st : Welford) : bool :=
  if hardCap st then true
  else if samplesPerBin <=? sampleCount st then converged st
  else false.

(** The stopping rule in the words of the specification (section 4.5),
    on the sample count [n], mean [mu] and sum of squared deviations
    [M2]. *)
Definition spec_stop (n : Z) (mu M2 : Q) : Prop :=
  m_adapMaxSampleFactor cfg * samplesPerBin <= n
  \/ (samplesPerBin <= n
      /\ (m_adapQuantile cfg * fsqrt (M2 / (inject_Z n * inject_Z (n - 1)))
          <= m_adapMaxError cfg * Qmax mu ((1 # 100) * averageLuminance))%Q).

(** The stopping rule of the code, as a proposition on the loop state. *)
Definition code_stop (st : Welford) : Prop :=
  let n := sampleCount st in
  (0 <= m_adapMaxSampleFactor cfg /\ m_adapMaxSampleFactor cfg * samplesPerBin <= n)
  \/ (samplesPerBin <= n /\ n <> 1
      /\ (fsqrt (meanSqr st / inject_Z (n - 1) / inject_Z n) * m_adapQuantile cfg
          <= m_adapMaxError cfg * Qmax (mean st) (averageLuminance * (1 # 100)))%Q).
End Loop.

(** *** One pixel and one time bin (lines 219-298) *)

(** Snapshot, sampling loop, blend. Each sample comes with the value of
    [stop], the effect on the float data of the block of the [putSample] that
    [evaluate] makes, and the luminance of the spectrum [evaluate] returns. *)
Definition adaptive_bin (fsqrt : Q -> Q) (cfg : BDPTConfiguration)
    (samplesPerBin : Z) (averageLuminance : Q)
    (borderSize hx hy sizeX channels j : Z) (target : list Q)
    (samples : list (bool * (list Q -> list Q) * Q)) : list Q :=
  let snapshot := take_snapshot target borderSize hx hy sizeX channels j in
  let st := fst (adaptive_loop fsqrt cfg samplesPerBin averageLuminance
                   (map (fun smp => (fst (fst smp), snd smp)) samples) welford_init) in
  let drawn := take (Z.to_nat (sampleCount st)) samples in
  let target := fold_left (fun tg smp => snd (fst smp) tg) drawn target in
  restore target snapshot (blend_factor samplesPerBin (sampleCount st))
    borderSize hx hy sizeX channels j.

(** A rational stand-in for [std::sqrt], used where a concrete function is
    needed: six Newton steps from 1. *)
Definition newton_sqrt (x : Q) : Q :=
  if Qle_bool x 0 then 0%Q
  else Nat.iter 6 (fun y => Qred ((y + x / y) / 2)%Q) 1%Q.

(** Sum and sum of squared deviations of a list of samples. *)
Definition Qsum (xs : list Q) : Q := foldr Qplus 0%Q xs.

Definition Qsumsq (xs : list Q) : Q := Qsum (map (fun x => x * x)%Q xs).

Definition Qavg (xs : list Q) : Q := (Qsum xs / inject_Z (Z.of_nat (length xs)))%Q.

Definition sqdev (xs : list Q) (mu : Q) : Q :=
  Qsum (map (fun x => (x - mu) * (x - mu))%Q xs).

End Adaptive.
Export Adaptive.

(** ** The memory pool *)

Module Pool.

(** Modelled from the spec: the pool class ([MemoryPool], with [allocVertex],
    [allocEdge], [release] and [unused]) belongs to the bidirectional
    library, not to the worker. Section 3 describes it as the arena owning all vertices
    and edges in flight, with explicit acquisition and release, empty at the
    end of each pixel sample: the model counts the vertices and edges in
    flight. *)
Record MemoryPool := mkPool { liveVertices : nat; liveEdges : nat }.

Definition allocVertex (p : MemoryPool) : MemoryPool :=
  mkPool (S (liveVertices p)) (liveEdges p).

Definition allocEdge (p : MemoryPool) : MemoryPool :=
  mkPool (liveVertices p) (S (liveEdges p)).

Definition releaseVertex (p : MemoryPool) : MemoryPool :=
  mkPool (Nat.pred (liveVertices p)) (liveEdges p).

Definition releaseEdge (p : MemoryPool) : MemoryPool :=
  mkPool (liveVertices p) (Nat.pred (liveEdges p)).

Definition unused (p : MemoryPool) : bool :=
  (liveVertices p =? 0)%nat && (liveEdges p =? 0)%nat.

End Pool.
Export Pool.

(** ** [BDPTRenderer::evaluate] (lines 311-807) *)

Module Evaluate.

(** The fields of [BDPTWorkResult] that [evaluate] reads through [wr]. *)
Record BDPTWorkResult := mkWorkResult {
  m_decompositionType : EDecompositionType;
  m_combineBDPTAndElliptic : bool;
  minBound : Q;                      (* wr->m_decompositionMinBound *)
  maxBound : Q;                      (* wr->m_decompositionMaxBound *)
  binWidth : Q;                      (* wr->m_decompositionBinWidth *)
  frames : Z;                        (* wr->m_frames *)
  m_forceBounces : bool;
  m_sBounces : Z;
  m_tBounces : Z;
  getModulationType : EModulationType;
  correlationFunction : Q -> Q;
  getChannelCount : Z
}.

Record PathVertex := mkVertex {
  isSupernode : bool;
  isDegenerate : bool;
  vweightImportance : Spectrum;      (* weight[EImportance] *)
  vweightRadiance : Spectrum;        (* weight[ERadiance] *)
  rrWeight : Q
}.

Record PathEdge := mkEdge {
  elength : Q;                       (* length *)
  eweightImportance : Spectrum;
  eweightRadiance : Spectrum
}.

Record Path := mkPath { vertices : list PathVertex; edges : list PathEdge }.

Definition vertexCount (p : Path) : nat := length (vertices p).

Definition Point2 : Type := Q * Q.

(** A call of [wr->putLightSample]: with a spectrum (line 790) or with the
    array of all channels (line 776). *)
Inductive LightSample :=
| LightSpectrum (samplePos : Point2) (value : Spectrum)
| LightChannels (samplePos : Point2) (channels : list Q).

(** The locals of [evaluate] that the loop over (s,t) updates. *)
Record Accum := mkAccum {
  sampleValue : Spectrum;
  meanSpectrum : Spectrum;
  sampleDecompositionValue : list Q;
  l_sampleDecompositionValue : list Q;
  lightSamples : list LightSample;
  corrWeight : Q                     (* declared before the loops, line 339 *)
}.

Definition set_corrWeight (a : Accum) (w : Q) : Accum :=
  mkAccum (sampleValue a) (meanSpectrum a) (sampleDecompositionValue a)
    (l_sampleDecompositionValue a) (lightSamples a) w.

Definition set_sampleValue (a : Accum) (v : Spectrum) : Accum :=
  mkAccum v (meanSpectrum a) (sampleDecompositionValue a)
    (l_sampleDecompositionValue a) (lightSamples a) (corrWeight a).

Definition set_sampleDecompositionValue (a : Accum) (v : list Q) : Accum :=
  mkAccum (sampleValue a) (meanSpectrum a) v
    (l_sampleDecompositionValue a) (lightSamples a) (corrWeight a).

Definition set_l_sampleDecompositionValue (a : Accum) (v : list Q) : Accum :=
  mkAccum (sampleValue a) (meanSpectrum a) (sampleDecompositionValue a)
    v (lightSamples a) (corrWeight a).

Definition putLightSample (a : Accum) (l : LightSample) : Accum :=
  mkAccum (sampleValue a) (meanSpectrum a) (sampleDecompositionValue a)
    (l_sampleDecompositionValue a) (lightSamples a ++ [l]) (corrWeight a).

(** What the collaborators returned for one pair (s,t). *)
Record Collab := mkCollab {
  (** [sampleDirect(scene, m_sampler, &tempEndpoint, &tempEdge, &tempSample, mode)] *)
  directValue : Spectrum;
  (** [eval] of the vertex that faces the freshly sampled endpoint *)
  evalFacing : Spectrum;
  (** [vs->eval(scene, vsPred, vt, EImportance)], [vt->eval(scene, vtPred, vs, ERadiance)] *)
  evalVs : Spectrum;
  evalVt : Spectrum;
  (** [distance(vs->getPosition(), vt->getPosition())] *)
  endpointDistance : Q;
  (** [m_sampler->nextFloat()] *)
  nextFloat : Q;
  (** the short [EllipsoidalSampleBetween] of the s = 1 branch: its result
      and the lengths of the two connection edges it filled in *)
  ellipsoidalOK : bool;
  connectionEdge1 : Q;
  connectionEdge2 : Q;
  (** the long [EllipsoidalSampleBetween] of the general branch, which
      receives the accumulators by reference *)
  ellipticCommit : Spectrum -> Q -> Q -> Q -> Accum -> Accum;
  (** [connectionEdge.pathConnectAndCollapse(...)] and [evalCached(...)] *)
  pathConnectAndCollapse : bool;
  evalCached : Spectrum;
  (** [Path::miWeight(...)] *)
  miWeight : Q;
  (** [vt->isSensorSample()] and [vt->getSamplePosition(vs, samplePos)] *)
  isSensorSample : bool;
  getSamplePosition : option Point2
}.

Definition direct_ellipsoidal_msg : string :=
  "Cannot make Direct Ellipsoidal connections".

Definition isTransientKind (d : EDecompositionType) : bool :=
  match d with ETransient | ETransientEllipse => true | _ => false end.

Definition isSteady (d : EDecompositionType) : bool :=
  match d with ESteadyState => true | _ => false end.

Definition isEllipse (d : EDecompositionType) : bool :=
  match d with ETransientEllipse => true | _ => false end.

Definition isModulated (m : EModulationType) : bool :=
  match m with ENone => false | EModulated => true end.

(** *** The per-subpath arrays (lines 347-387) *)

Section Arrays.
Variable wr : BDPTWorkResult.

(** the summand of lines 355/359 (transient kinds) and 363/367 (bounce) *)
Definition lengthStep (e : option PathEdge) : Q :=
  match m_decompositionType wr with
  | ETransient | ETransientEllipse =>
      match e with Some e => elength e | None => 0%Q end
  | EBounce => 1%Q
  | ESteadyState => 0%Q
  end.

(** [a[0] = a[1] = 0; for (i = 2; i < vertexCount; ++i) a[i] = a[i-1] + step] *)
Definition pathlengthArray (p : Path) : list Q :=
  fold_left
    (fun a i => a ++ [(read a (i - 1) + lengthStep (edges p !! (i - 1)%nat))%Q])
    (seq 2 (vertexCount p - 2)) [0%Q; 0%Q].

Definition read_spectrum (a : list Spectrum) (i : nat) : Spectrum :=
  default (Spectrum_const 0) (a !! i).

(** [w[0] = 1; for (i = 1; i < vertexCount; ++i)
     w[i] = w[i-1] * vertex(i-1)->weight[mode] * vertex(i-1)->rrWeight * edge(i-1)->weight[mode]] *)
Definition weightArray (vw : PathVertex -> Spectrum) (ew : PathEdge -> Spectrum)
    (p : Path) : list Spectrum :=
  fold_left
    (fun a i =>
       match vertices p !! (i - 1)%nat, edges p !! (i - 1)%nat with
       | Some v, Some e =>
           a ++ [Spectrum_mul
                   (Spectrum_scale (Spectrum_mul (read_spectrum a (i - 1)) (vw v)) (rrWeight v))
                   (ew e)]
       | _, _ => a ++ [Spectrum_const 0]
       end)
    (seq 1 (vertexCount p - 1)) [Spectrum_const 1].
End Arrays.

(** *** One pair (s,t): lines 427-792 *)

(** How the part of the loop body before the connection (lines 436-695)
    ends. Every case carries the value [corrWeight] has by then. *)
Inductive Endpoint :=
| Continue (corrW : Q)
| Abort (msg : string)
| Elliptic (value : Spectrum) (PathLengthRemaining tempPathLength corrW : Q)
| Connect (currentDecompositionType : EDecompositionType) (value : Spectrum)
    (pathLength corrW : Q) (sampleDirect : bool).

Section Body.
Variable cfg : BDPTConfiguration.
Variable wr : BDPTWorkResult.
Variables emitterSubpath sensorSubpath : Path.
Variable pathLengthTarget : Q.
Variable isEmitterLaser : bool.
Variable initialSamplePos : Point2.
Variable collab : Z -> Z -> Collab.

(** The length arrays exist only outside steady state (line 347). *)
Definition emitterPathlength : list Q :=
  if isSteady (m_decompositionType wr) then [] else pathlengthArray wr emitterSubpath.

Definition sensorPathlength : list Q :=
  if isSteady (m_decompositionType wr) then [] else pathlengthArray wr sensorSubpath.

Definition importanceWeights : list Spectrum :=
  weightArray vweightImportance eweightImportance emitterSubpath.

Definition radianceWeights : list Spectrum :=
  weightArray vweightRadiance eweightRadiance sensorSubpath.

Definition inBounds (len : Q) : bool :=
  Qle_bool (minBound wr) len && Qle_bool len (maxBound wr).

(** Lines 573-585 and 626-638: whether to treat the candidate as a plain
    transient connection, and the correction weight. A quotient by zero
    is not finite in the code and is [0] here. *)
Definition chooseSampling (c : Collab) (cur : EDecompositionType)
    (tempPathLength corrW : Q) : EDecompositionType * Q :=
  if m_combineBDPTAndElliptic wr && isEllipse cur && inBounds tempPathLength then
    if isModulated (getModulationType wr) then
      let w := correlationFunction wr tempPathLength in
      if Qlt_bool (nextFloat c) w then (ETransient, (1 / w)%Q)
      else (cur, (1 / (1 - w))%Q)
    else (ETransient, corrW)
  else (cur, corrW).

(** Lines 540-547, 602-609. *)
Definition directPathLength (c : Collab) (cur : EDecompositionType)
    (pathLength tempPathLength : Q) : Q :=
  match cur with
  | ETransientEllipse => (pathLength + (connectionEdge1 c + connectionEdge2 c))%Q
  | ETransient => tempPathLength
  | EBounce => (pathLength + 1)%Q
  | ESteadyState => pathLength
  end.

Definition endpoints (s t : Z) (vs vt : PathVertex) (c : Collab) (corrW : Q) : Endpoint :=
  let cur := m_decompositionType wr in
  let eL := read emitterPathlength (Z.to_nat s) in
  let sL := read sensorPathlength (Z.to_nat t) in
  if isSupernode vs then Continue corrW
  else if isSupernode vt then Continue corrW
  else if sampleDirect cfg && (((t =? 1) && (1 <? s)) || ((s =? 1) && (1 <? t))) then
    if s =? 1 then
      if isDegenerate vt then Continue corrW
      else
        let value := Spectrum_mul (read_spectrum radianceWeights (Z.to_nat t)) (directValue c) in
        let pathLength := if negb (isSteady cur) then sL else 0%Q in
        if isZero value then Continue corrW
        else
          let value := Spectrum_mul value (evalFacing c) in
          let tempPathLength :=
            if isTransientKind cur then (pathLength + endpointDistance c)%Q else 0%Q in
          let cur :=
            if m_combineBDPTAndElliptic wr && isEllipse cur && inBounds tempPathLength
            then ETransient else cur in
          let candidate :=
            Connect cur value (directPathLength c cur pathLength tempPathLength) corrW true in
          if isEllipse cur then
            if negb (m_combineBDPTAndElliptic wr) || Qle_bool tempPathLength (minBound wr) then
              let PathLengthRemaining := (pathLengthTarget - eL - sL)%Q in
              if Qlt_bool PathLengthRemaining 0 || negb (ellipsoidalOK c)
              then Continue corrW else candidate
            else Continue corrW
          else candidate
    else
      if isDegenerate vs then Continue corrW
      else
        let value := Spectrum_mul (read_spectrum importanceWeights (Z.to_nat s)) (directValue c) in
        let pathLength := if negb (isSteady cur) then eL else 0%Q in
        if isZero value then Continue corrW
        else
          let value := Spectrum_mul value (evalFacing c) in
          let tempPathLength :=
            if isTransientKind cur then (pathLength + endpointDistance c)%Q else 0%Q in
          let '(cur, corrW) := chooseSampling c cur tempPathLength corrW in
          if isEllipse cur then Abort direct_ellipsoidal_msg
          else Connect cur value (directPathLength c cur pathLength tempPathLength) corrW true
  else
    if isDegenerate vs || isDegenerate vt then Continue corrW
    else
      let tempPathLength :=
        if isTransientKind cur then (eL + sL + endpointDistance c)%Q else 0%Q in
      let '(cur, corrW) := chooseSampling c cur tempPathLength corrW in
      let weights := Spectrum_mul (read_spectrum importanceWeights (Z.to_nat s))
                                  (read_spectrum radianceWeights (Z.to_nat t)) in
      let value :=
        if negb (isEllipse cur)
        then Spectrum_mul (Spectrum_mul weights (evalVs c)) (evalVt c)
        else weights in
      match cur with
      | ETransientEllipse =>
          if negb (m_combineBDPTAndElliptic wr) || Qle_bool tempPathLength (minBound wr) then
            let PathLengthRemaining := (pathLengthTarget - eL - sL)%Q in
            if negb (isZero value) && Qlt_bool 0 PathLengthRemaining
            then Elliptic value PathLengthRemaining (eL + sL)%Q corrW
            else Continue corrW
          else Continue corrW
      | ETransient => Connect cur value tempPathLength corrW false
      | EBounce => Connect cur value (eL + sL + 1)%Q corrW false
      | ESteadyState => Connect cur value 0%Q corrW false
      end.

(** [a[binIndex*SPECTRUM_SAMPLES + i] += temp[i] * miWeight], i = 0, 1, 2 *)
Definition addBin (a : list Q) (k : Z) (rgb : Q * Q * Q) (miW : Q) : list Q :=
  let i := Z.to_nat (k * 3) in
  let '(r, g, b) := rgb in
  let a := <[ i := (read a i + r * miW)%Q ]> a in
  let a := <[ S i := (read a (S i) + g * miW)%Q ]> a in
  <[ S (S i) := (read a (S (S i)) + b * miW)%Q ]> a.

(** lines 778-780 *)
Definition resetBin (a : list Q) (k : Z) : list Q :=
  let i := Z.to_nat (k * 3) in
  <[ S (S i) := 0%Q ]> (<[ S i := 0%Q ]> (<[ i := 0%Q ]> a)).

(** the condition of line 761 *)
Definition binGuard (cur : EDecompositionType) (value : Spectrum) (pathLength : Q) : bool :=
  let k := binIndex (minBound wr) (binWidth wr) pathLength in
  Qle_bool (minBound wr) pathLength && Qle_bool pathLength (maxBound wr)
  && negb (isZero value) && negb (isSteady cur)
  && (0 <=? k) && (k <? frames wr).

(** Lines 756-791. *)
Definition commit (cur : EDecompositionType) (value : Spectrum) (pathLength miW : Q)
    (t : Z) (samplePos : Point2) (acc : Accum) : Accum :=
  let modulatedTransient :=
    EDecompositionType_eqb cur ETransient && isModulated (getModulationType wr) in
  let miW' :=
    if negb (isSteady cur) && modulatedTransient
    then (miW * (correlationFunction wr pathLength * corrWeight acc))%Q else miW in
  let acc :=
    if negb (isSteady cur) && negb modulatedTransient && binGuard cur value pathLength then
      let k := binIndex (minBound wr) (binWidth wr) pathLength in
      if 2 <=? t then
        set_sampleDecompositionValue acc
          (addBin (sampleDecompositionValue acc) k (toLinearRGB value) miW')
      else if t =? 1 then
        let l := addBin (l_sampleDecompositionValue acc) k (toLinearRGB value) miW' in
        set_l_sampleDecompositionValue
          (putLightSample acc (LightChannels samplePos l)) (resetBin l k)
      else acc
    else acc in
  if isSteady cur
     || (EDecompositionType_eqb (m_decompositionType wr) ETransient
         && isModulated (getModulationType wr))
  then
    if 2 <=? t then
      set_sampleValue acc (Spectrum_add (sampleValue acc) (Spectrum_scale value miW'))
    else putLightSample acc (LightSpectrum samplePos (Spectrum_scale value miW'))
  else acc.

(** Lines 697-792 for a candidate that reached the connection. *)
Definition connect (c : Collab) (cur : EDecompositionType) (value : Spectrum)
    (pathLength : Q) (t : Z) (acc : Accum) : Accum :=
  if negb (isEllipse cur) then
    if isZero value || negb (pathConnectAndCollapse c) then acc
    else
      let value := Spectrum_mul value (evalCached c) in
      if isSensorSample c then
        match getSamplePosition c with
        | Some samplePos => commit cur value pathLength (miWeight c) t samplePos acc
        | None => acc
        end
      else commit cur value pathLength (miWeight c) t initialSamplePos acc
  else acc.

(** the three skips at the top of the loop body, lines 418-426 *)
Definition skipped (s t : Z) : bool :=
  ((s =? 0) || (t =? 0)
   || (EDecompositionType_eqb (m_decompositionType wr) ETransient && (s =? 1) && (t =? 1)))
  || (isEmitterLaser && EDecompositionType_eqb (m_decompositionType wr) ETransient
      && (s =? 2) && (t =? 1))
  || (m_forceBounces wr && (negb (s =? m_sBounces wr) || negb (t =? m_tBounces wr))).

Definition iteration (s t : Z) (acc : Accum) : Result Accum :=
  if skipped s t then Ok acc
  else
    match vertices emitterSubpath !! Z.to_nat s, vertices sensorSubpath !! Z.to_nat t with
    | Some vs, Some vt =>
        let c := collab s t in
        match endpoints s t vs vt c (corrWeight acc) with
        | Continue corrW => Ok (set_corrWeight acc corrW)
        | Abort msg => Fatal msg
        | Elliptic value PathLengthRemaining tempPathLength corrW =>
            Ok (ellipticCommit c value PathLengthRemaining tempPathLength corrW
                  (set_corrWeight acc corrW))
        | Connect cur value pathLength corrW _ =>
            Ok (connect c cur value pathLength t (set_corrWeight acc corrW))
        end
    | _, _ => Ok acc   (* not reached: the loops keep s and t below the vertex counts *)
    end.

(** *** The two loops (lines 409-417) *)

(** [hi, hi-1, ..., lo] *)
Definition downto (hi lo : Z) : list Z :=
  map (fun i => hi - Z.of_nat i) (seq 0 (Z.to_nat (hi - lo + 1))).

Definition localMaxDepth : Z :=
  if isEllipse (m_decompositionType wr) then maxDepth cfg - 1 else maxDepth cfg.

Definition minT (s : Z) : Z := Z.max (2 - s) (if lightImage cfg then 0 else 2).

Definition maxT (s : Z) : Z :=
  let m := Z.of_nat (vertexCount sensorSubpath) - 1 in
  if negb (maxDepth cfg =? -1) then Z.min m (localMaxDepth + 1 - s) else m.

Definition connections : list (Z * Z) :=
  s ← downto (Z.of_nat (vertexCount emitterSubpath) - 1) 0;
  t ← downto (maxT s) (minT s);
  [(s, t)].

Fixpoint run (pairs : list (Z * Z)) (acc : Accum) : Result Accum :=
  match pairs with
  | [] => Ok acc
  | (s, t) :: rest => let* acc' := iteration s t acc in run rest acc'
  end.

(** *** Set-up and the end of [evaluate] *)

(** lines 396-407 *)
Definition initAccum : Accum :=
  let n := Z.to_nat (getChannelCount wr) in
  if isSteady (m_decompositionType wr)
  then mkAccum (Spectrum_const 0) (Spectrum_const 0) [] [] [] 1
  else mkAccum (Spectrum_const 0) (Spectrum_const 0)
         (replicate n 0%Q)
         (<[ (n - 2)%nat := 1%Q ]> (<[ (n - 1)%nat := 1%Q ]> (replicate n 0%Q)))
         [] 1.

Record EvalResult := mkEvalResult {
  pool' : MemoryPool;                       (* m_pool when evaluate returns *)
  putSample : Spectrum + list Q;            (* the argument of wr->putSample *)
  putLightSamples : list LightSample;
  returned : Spectrum                       (* meanSpectrum *)
}.

Definition evaluate (m_pool : MemoryPool) : Result EvalResult :=
  (* connectionEdge1, connectionEdge2, connectionVertex *)
  let m_pool := allocVertex (allocEdge (allocEdge m_pool)) in
  let* acc := run connections initAccum in
  let n := Z.to_nat (getChannelCount wr) in
  let sample :=
    if isSteady (m_decompositionType wr)
       || (isTransientKind (m_decompositionType wr) && isModulated (getModulationType wr))
    then inl (sampleValue acc)
    else inr (<[ (n - 1)%nat := 1%Q ]>
                (<[ (n - 2)%nat := 1%Q ]> (sampleDecompositionValue acc))) in
  let m_pool := releaseVertex (releaseEdge (releaseEdge m_pool)) in
  Ok (mkEvalResult m_pool sample (lightSamples acc) (meanSpectrum acc)).
End Body.

(** *** One pixel sample of [process] (lines 128-150) and the final assertion *)

(** Modelled from the spec: [Path::initialize],
    [Path::alternatingRandomWalkFromPixel] and [Path::release] belong to the
    bidirectional library, not to the worker. By section 4.1 the walk "allocates from the
    pool" the vertices and edges of the two subpaths, and by sections 3 and
    4.7 the subpaths hand every one of them back at the end of the pixel
    sample. *)
Definition Path_acquire (p : MemoryPool) (path : Path) : MemoryPool :=
  Nat.iter (length (edges path)) allocEdge (Nat.iter (vertexCount path) allocVertex p).

Definition Path_release (p : MemoryPool) (path : Path) : MemoryPool :=
  Nat.iter (length (edges path)) releaseEdge (Nat.iter (vertexCount path) releaseVertex p).

(** What one pass through the sample loop works on. *)
Record PixelSample := mkPixelSample {
  ps_emitterSubpath : Path;
  ps_sensorSubpath : Path;
  ps_pathLengthTarget : Q;
  ps_isEmitterLaser : bool;
  ps_initialSamplePos : Point2;
  ps_collab : Z -> Z -> Collab
}.

Definition pixel_sample (cfg : BDPTConfiguration) (wr : BDPTWorkResult)
    (ps : PixelSample) (m_pool : MemoryPool) : Result MemoryPool :=
  let m_pool := Path_acquire (Path_acquire m_pool (ps_emitterSubpath ps)) (ps_sensorSubpath ps) in
  let* r := evaluate cfg wr (ps_emitterSubpath ps) (ps_sensorSubpath ps)
              (ps_pathLengthTarget ps) (ps_isEmitterLaser ps) (ps_initialSamplePos ps)
              (ps_collab ps) m_pool in
  Ok (Path_release (Path_release (pool' r) (ps_emitterSubpath ps)) (ps_sensorSubpath ps)).

Definition assert_msg : string := "Assertion m_pool.unused() failed".

(** The sample loops followed by [Assert(m_pool.unused())] (line 307). *)
Fixpoint process_samples (cfg : BDPTConfiguration) (wr : BDPTWorkResult)
    (samples : list PixelSample) (m_pool : MemoryPool) : Result MemoryPool :=
  match samples with
  | [] => if unused m_pool then Ok m_pool else Fatal assert_msg
  | ps :: rest =>
      let* m_pool' := pixel_sample cfg wr ps m_pool in
      process_samples cfg wr rest m_pool'
  end.

(** *** The pool on the way out by the fatal log entry *)

(** [Log(EError, ...)] throws: the statements after it are not run.
    [m_pool] at the moment [evaluate] is left is the pool after the three
    releases of lines 803-805 when it returns, and the pool with the three
    scratch objects still live when the fatal entry of line 588 is logged. *)
Definition evaluate_exit_pool (cfg : BDPTConfiguration) (wr : BDPTWorkResult)
    (emitterSubpath sensorSubpath : Path) (pathLengthTarget : Q)
    (isEmitterLaser : bool) (initialSamplePos : Point2) (collab : Z -> Z -> Collab)
    (m_pool : MemoryPool) : MemoryPool :=
  let m_pool := allocVertex (allocEdge (allocEdge m_pool)) in
  match run cfg wr emitterSubpath sensorSubpath pathLengthTarget isEmitterLaser
          initialSamplePos collab (connections cfg wr emitterSubpath sensorSubpath)
          (initAccum wr) with
  | Ok _ => releaseVertex (releaseEdge (releaseEdge m_pool))
  | Fatal _ => m_pool
  end.

(** [m_pool] when one pass of the sample loop is left: the two
    [release] calls of lines 147-148 come after [evaluate] and are not run
    when [evaluate] throws. *)
Definition pixel_sample_exit_pool (cfg : BDPTConfiguration) (wr : BDPTWorkResult)
    (ps : PixelSample) (m_pool : MemoryPool) : MemoryPool :=
  let m_pool := Path_acquire (Path_acquire m_pool (ps_emitterSubpath ps)) (ps_sensorSubpath ps) in
  let m_pool' := evaluate_exit_pool cfg wr (ps_emitterSubpath ps) (ps_sensorSubpath ps)
                   (ps_pathLengthTarget ps) (ps_isEmitterLaser ps) (ps_initialSamplePos ps)
                   (ps_collab ps) m_pool in
  match evaluate cfg wr (ps_emitterSubpath ps) (ps_sensorSubpath ps)
          (ps_pathLengthTarget ps) (ps_isEmitterLaser ps) (ps_initialSamplePos ps)
          (ps_collab ps) m_pool with
  | Ok _ => Path_release (Path_release m_pool' (ps_emitterSubpath ps)) (ps_sensorSubpath ps)
  | Fatal _ => m_pool'
  end.

End Evaluate.
Export Evaluate.

(** ** [Film]: serialization (film.cpp, lines 111-151) *)

Module FilmIO.

Definition byte : Type := Byte.byte.
Definition bytes : Type := list byte.

(** One kind of value on a stream: how it is written, how it is read back
    from the front of a stream, and which values of the carrier the written
    form can hold. The stream class and the instance manager belong to the
    core library, so [Film] is stated over any such codecs. *)
Record Codec (A : Type) := mkCodec {
  put : A -> bytes;
  get : bytes -> option (A * bytes);
  valid : A -> Prop
}.
Arguments put {A} _ _.
Arguments get {A} _ _.
Arguments valid {A} _ _.

(** Reading undoes writing, whatever follows on the stream. *)
Definition inverts {A : Type} (c : Codec A) : Prop :=
  forall (x : A) (rest : bytes), valid c x -> get c (put c x ++ rest) = Some (x, rest).

Section Film.
(** [Float]; the state of the [ConfigurableObject] base; the two child
    objects that travel through the instance manager *)
Variables FloatT Base RFilter PLSampler : Type.
Variable cBase : Codec Base.         (* ConfigurableObject::serialize / constructor *)
Variable cInt : Codec Z.             (* a coordinate of Vector2i / Point2i *)
Variable cBool : Codec bool.         (* writeBool / readBool *)
Variable cUInt : Codec Z.            (* writeUInt / readUInt *)
Variable cFloat : Codec FloatT.      (* writeFloat / readFloat *)
Variable cSize : Codec Z.            (* writeSize / readSize *)
Variable cFilter : Codec RFilter.    (* manager->serialize / manager->getInstance *)
Variable cSampler : Codec PLSampler.

Record Film := mkFilm {
  base : Base;
  m_size : Z * Z;
  m_cropOffset : Z * Z;
  m_cropSize : Z * Z;
  m_highQualityEdges : bool;
  m_decompositionType : Z;           (* the enumerator's integer value *)
  m_combineBDPTAndElliptic : bool;
  m_decompositionMinBound : FloatT;
  m_decompositionMaxBound : FloatT;
  m_decompositionBinWidth : FloatT;
  m_frames : Z;
  m_subSamples : Z;
  m_forceBounces : bool;
  m_sBounces : Z;
  m_tBounces : Z;
  m_filter : RFilter;
  m_pathLengthSampler : PLSampler;
  (* set by the Properties constructor only *)
  m_isldSampling : bool;
  m_isAdaptive : bool;
  m_adapMaxError : FloatT;
  m_adapPValue : FloatT;
  m_adapQuantile : FloatT;
  m_adapMaxSampleFactor : Z
}.

(** [Vector2i::serialize], [Point2i::serialize]: x, then y *)
Definition put2i (v : Z * Z) : bytes := put cInt (fst v) ++ put cInt (snd v).

Definition get2i (s : bytes) : option ((Z * Z) * bytes) :=
  '(x, s) ← get cInt s;
  '(y, s) ← get cInt s;
  Some ((x, y), s).

(** [Film::serialize] *)
Definition serialize (f : Film) : bytes :=
  put cBase (base f)
  ++ put2i (m_size f)
  ++ put2i (m_cropOffset f)
  ++ put2i (m_cropSize f)
  ++ put cBool (m_highQualityEdges f)
  ++ put cUInt (m_decompositionType f)
  ++ put cBool (m_combineBDPTAndElliptic f)
  ++ put cFloat (m_decompositionMinBound f)
  ++ put cFloat (m_decompositionMaxBound f)
  ++ put cFloat (m_decompositionBinWidth f)
  ++ put cSize (m_frames f)
  ++ put cSize (m_subSamples f)
  ++ put cBool (m_forceBounces f)
  ++ put cUInt (m_sBounces f)
  ++ put cUInt (m_tBounces f)
  ++ put cFilter (m_filter f)
  ++ put cSampler (m_pathLengthSampler f).

(** The stream constructor of [Film]. The six members that the
    constructor does not assign keep whatever the storage holds; they are
    taken from [raw]. *)
Definition unserialize (raw : Film) (s : bytes) : option (Film * bytes) :=
  '(b, s) ← get cBase s;
  '(size, s) ← get2i s;
  '(cropOffset, s) ← get2i s;
  '(cropSize, s) ← get2i s;
  '(highQualityEdges, s) ← get cBool s;
  '(decompositionType, s) ← get cUInt s;
  '(combine, s) ← get cBool s;
  '(minBound, s) ← get cFloat s;
  '(maxBound, s) ← get cFloat s;
  '(binWidth, s) ← get cFloat s;
  '(frames, s) ← get cSize s;
  '(subSamples, s) ← get cSize s;
  '(forceBounces, s) ← get cBool s;
  '(sBounces, s) ← get cUInt s;
  '(tBounces, s) ← get cUInt s;
  '(filter, s) ← get cFilter s;
  '(sampler, s) ← get cSampler s;
  Some (mkFilm b size cropOffset cropSize highQualityEdges decompositionType combine
          minBound maxBound binWidth frames subSamples forceBounces sBounces tBounces
          filter sampler
          (m_isldSampling raw) (m_isAdaptive raw) (m_adapMaxError raw)
          (m_adapPValue raw) (m_adapQuantile raw) (m_adapMaxSampleFactor raw),
        s).

(** Every serialized member holds a value its written form can hold. *)
Definition wellFormed (f : Film) : Prop :=
  valid cBase (base f)
  /\ (valid cInt (fst (m_size f)) /\ valid cInt (snd (m_size f)))
  /\ (valid cInt (fst (m_cropOffset f)) /\ valid cInt (snd (m_cropOffset f)))
  /\ (valid cInt (fst (m_cropSize f)) /\ valid cInt (snd (m_cropSize f)))
  /\ valid cBool (m_highQualityEdges f)
  /\ valid cUInt (m_decompositionType f)
  /\ valid cBool (m_combineBDPTAndElliptic f)
  /\ valid cFloat (m_decompositionMinBound f)
  /\ valid cFloat (m_decompositionMaxBound f)
  /\ valid cFloat (m_decompositionBinWidth f)
  /\ valid cSize (m_frames f)
  /\ valid cSize (m_subSamples f)
  /\ valid cBool (m_forceBounces f)
  /\ valid cUInt (m_sBounces f)
  /\ valid cUInt (m_tBounces f)
  /\ valid cFilter (m_filter f)
  /\ valid cSampler (m_pathLengthSampler f).

(** The members that travel on the stream agree. *)
Definition sameSerialized (f g : Film) : Prop :=
  base f = base g
  /\ m_size f = m_size g
  /\ m_cropOffset f = m_cropOffset g
  /\ m_cropSize f = m_cropSize g
  /\ m_highQualityEdges f = m_highQualityEdges g
  /\ m_decompositionType f = m_decompositionType g
  /\ m_combineBDPTAndElliptic f = m_combineBDPTAndElliptic g
  /\ m_decompositionMinBound f = m_decompositionMinBound g
  /\ m_decompositionMaxBound f = m_decompositionMaxBound g
  /\ m_decompositionBinWidth f = m_decompositionBinWidth g
  /\ m_frames f = m_frames g
  /\ m_subSamples f = m_subSamples g
  /\ m_forceBounces f = m_forceBounces g
  /\ m_sBounces f = m_sBounces g
  /\ m_tBounces f = m_tBounces g
  /\ m_filter f = m_filter g
  /\ m_pathLengthSampler f = m_pathLengthSampler g.
End Film.

Arguments mkFilm {FloatT Base RFilter PLSampler}.
Arguments base {FloatT Base RFilter PLSampler} _.
Arguments m_size {FloatT Base RFilter PLSampler} _.
Arguments m_cropOffset {FloatT Base RFilter PLSampler} _.
Arguments m_cropSize {FloatT Base RFilter PLSampler} _.
Arguments m_highQualityEdges {FloatT Base RFilter PLSampler} _.
Arguments m_decompositionType {FloatT Base RFilter PLSampler} _.
Arguments m_combineBDPTAndElliptic {FloatT Base RFilter PLSampler} _.
Arguments m_decompositionMinBound {FloatT Base RFilter PLSampler} _.
Arguments m_decompositionMaxBound {FloatT Base RFilter PLSampler} _.
Arguments m_decompositionBinWidth {FloatT Base RFilter PLSampler} _.
Arguments m_frames {FloatT Base RFilter PLSampler} _.
Arguments m_subSamples {FloatT Base RFilter PLSampler} _.
Arguments m_forceBounces {FloatT Base RFilter PLSampler} _.
Arguments m_sBounces {FloatT Base RFilter PLSampler} _.
Arguments m_tBounces {FloatT Base RFilter PLSampler} _.
Arguments m_filter {FloatT Base RFilter PLSampler} _.
Arguments m_pathLengthSampler {FloatT Base RFilter PLSampler} _.
Arguments m_isldSampling {FloatT Base RFilter PLSampler} _.
Arguments m_isAdaptive {FloatT Base RFilter PLSampler} _.
Arguments m_adapMaxError {FloatT Base RFilter PLSampler} _.
Arguments m_adapPValue {FloatT Base RFilter PLSampler} _.
Arguments m_adapQuantile {FloatT Base RFilter PLSampler} _.
Arguments m_adapMaxSampleFactor {FloatT Base RFilter PLSampler} _.
Arguments serialize {FloatT Base RFilter PLSampler}.
Arguments unserialize {FloatT Base RFilter PLSampler}.
Arguments wellFormed {FloatT Base RFilter PLSampler}.
Arguments sameSerialized {FloatT Base RFilter PLSampler}.

(** *** A concrete stream: fixed-width big-endian fields *)

Definition byte_of_Z (z : Z) : byte :=
  default Byte.x00 (Byte.of_N (Z.to_N (z mod 256))).

Definition Z_of_byte (b : byte) : Z := Z.of_N (Byte.to_N b).

Fixpoint be_put (n : nat) (z : Z) : bytes :=
  match n with
  | O => []
  | S n' => byte_of_Z (Z.shiftr z (8 * Z.of_nat n')) :: be_put n' z
  end.

Fixpoint be_get (n : nat) (acc : Z) (s : bytes) : option (Z * bytes) :=
  match n with
  | O => Some (acc, s)
  | S n' =>
      match s with
      | [] => None
      | b :: s' => be_get n' (acc * 256 + Z_of_byte b) s'
      end
  end.

Definition unsignedCodec (n : nat) : Codec Z :=
  mkCodec Z (be_put n) (be_get n 0) (fun z => 0 <= z < 256 ^ Z.of_nat n).

(** two's complement on [n] bytes *)
Definition signedCodec (n : nat) : Codec Z :=
  let half := 256 ^ Z.of_nat n / 2 in
  mkCodec Z (be_put n)
    (fun s => '(z, s') ← be_get n 0 s;
              Some (if half <=? z then z - 256 ^ Z.of_nat n else z, s'))
    (fun z => - half <= z < half).

Definition boolCodec : Codec bool :=
  mkCodec bool
    (fun b => [if b then Byte.x01 else Byte.x00])
    (fun s => match s with
              | [] => None
              | b :: s' => Some (negb (Z_of_byte b =? 0), s')
              end)
    (fun _ => True).

(** nothing on the stream *)
Definition unitCodec : Codec unit :=
  mkCodec unit (fun _ => []) (fun s => Some (tt, s)) (fun _ => True).

(** A film over the concrete stream: floats are their 32-bit patterns, the
    two child objects are instance identifiers. *)
Definition sampleFilm : Film Z unit Z Z :=
  mkFilm tt (768, 576) (0, 0) (768, 576) false 3 true
    0 1090519040 1056964608 16 1 false 0 0 1 2
    true false 1028443341 1028443341 1073422748 8.

Definition rawFilm : Film Z unit Z Z :=
  mkFilm tt (0, 0) (0, 0) (0, 0) true 0 false
    7 7 7 0 0 true 9 9 0 0
    false true 5 5 5 (-3).

End FilmIO.

(** ** A small scene for concrete runs *)

Module Scene.

Definition white : Spectrum := Spectrum_const 1.

Definition supernode : PathVertex := mkVertex true false white white 1.
Definition surface : PathVertex := mkVertex false false white white 1.

(** supernode, endpoint sample, one surface vertex; the second edge has
    length [len] *)
Definition twoEdgePath (len : Q) : Path :=
  mkPath [supernode; surface; surface] [mkEdge 0 white white; mkEdge len white white].

(** collaborators that succeed with unit values; the endpoints are one
    unit apart, the inserted elliptic edges have lengths one and two *)
Definition unitCollab (s t : Z) : Collab :=
  mkCollab white white white white 1 (1 # 2) true 1 2
    (fun _ _ _ _ acc => acc) true white (1 # 2) false None.

Definition config (direct light : bool) : BDPTConfiguration :=
  mkConfig 10 5 direct light 0 8 2 4 false false (1 # 20) 2 8.

(** a sample whose [putSample] adds [v] to the float data of a one-pixel
    block, and whose luminance is [lum] *)
Definition splat (v : list Q) (lum : Q) : bool * (list Q -> list Q) * Q :=
  (false, fun tg => zip_with Qplus tg v, lum).

(** bounds [0, 8], bins of width 2, four frames, fourteen channels *)
Definition workResult (d : EDecompositionType) : BDPTWorkResult :=
  mkWorkResult d false 0 8 2 4 false 0 0 ENone (fun _ => 1%Q) 14.

End Scene.

(** ** [Film::Film(const Properties &)], [addChild], [configure]
    (film.cpp, lines 26-109 and 153-175) *)

Module FilmCtor.

(** [boost::to_lower_copy] in the classic locale: the letters [A]-[Z] *)
Definition to_lower (c : Ascii.ascii) : Ascii.ascii :=
  let n := Ascii.nat_of_ascii c in
  if ((65 <=? n) && (n <=? 90))%nat then Ascii.ascii_of_nat (n + 32) else c.

Fixpoint to_lower_copy (s : string) : string :=
  match s with
  | EmptyString => EmptyString
  | String c rest => String (to_lower c) (to_lower_copy rest)
  end.

(** The keys the constructor asks for. [props.getX(key, def)] is the value
    of the key when the scene description sets it and [def] otherwise: a key
    that is not set is [None]. *)
Record FilmProperties := mkProps {
  pluginName : string;
  p_width : option Z;
  p_height : option Z;
  p_cropOffsetX : option Z;
  p_cropOffsetY : option Z;
  p_cropWidth : option Z;
  p_cropHeight : option Z;
  p_highQualityEdges : option bool;
  p_decomposition : option string;
  p_combinesamplings : option bool;
  p_minBound : option Q;
  p_maxBound : option Q;
  p_binWidth : option Q;
  p_ldSampling : option bool;
  p_adapSampling : option bool;
  p_adapMaxError : option Q;
  p_adapPValue : option Q;
  p_adapMaxSampleFactor : option Z;
  p_subSamples : option Z;
  p_forceBounce : option bool;
  p_sBounce : option Z;
  p_tBounce : option Z
}.

Record PathLengthSampler := mkSampler { modulationType : EModulationType }.

Record Film := mkFilm {
  m_size : Z * Z;
  m_cropOffset : Z * Z;
  m_cropSize : Z * Z;
  m_highQualityEdges : bool;
  m_decompositionType : EDecompositionType;
  m_combineBDPTAndElliptic : bool;
  m_decompositionMinBound : Q;
  m_decompositionMaxBound : Q;
  m_decompositionBinWidth : Q;
  m_isldSampling : bool;
  m_isAdaptive : bool;
  m_adapMaxError : Q;
  m_adapPValue : Q;
  m_adapQuantile : Q;
  m_adapMaxSampleFactor : Z;
  m_frames : Z;
  m_subSamples : Z;
  m_forceBounces : bool;
  m_sBounces : Z;
  m_tBounces : Z;
  m_pathLengthSampler : option PathLengthSampler;   (* a null reference is [None] *)
  m_filter : option string                          (* the filter, by plugin name *)
}.

Definition crop_msg : string := "Invalid crop window specification!".

(** the character of code 34, which the two messages below quote with *)
Definition dq : string := String (Ascii.ascii_of_nat 34) EmptyString.

Definition decomposition_msg : string :=
  String.concat dq
    ["The "; "decomposition"; " parameter must be equal toeither "; "none"; ", ";
     "transient"; ", or "; "bounce"; ", or "; "transientEllipse"; "!"]%string.

Definition combine_msg : string :=
  "Combining samplings (BDPT and Elliptic) is supported only if decomposition in TransientEllipse".

Definition both_msg : string :=
  "Both ldSampling and Adaptive sampling cannot be enabled simultaneously".

Definition ld_adaptive_msg : string :=
  "ld sampling and adaptive sampling for transient can only be enabled for Transient Ellipse and only when there is no modulation type".

(** lines 60-71, on the lower-cased string *)
Definition parse_decomposition (lowered : string) : option EDecompositionType :=
  if String.eqb lowered "none" then Some ESteadyState
  else if String.eqb lowered "transient" then Some ETransient
  else if String.eqb lowered "bounce" then Some EBounce
  else if String.eqb lowered "transientellipse" then Some ETransientEllipse
  else None.

(** [m_frames = ceil((Max - Min) / BinWidth)] (line 93): a [Float]
    difference and a [Float] quotient, each rounded; the result is converted
    to [size_t] *)
Definition ceilFrames (minBound maxBound binWidth : Q) : Z :=
  to_size_t (Qceiling (F32.div (F32.sub maxBound minBound) binWidth)).

(** the condition of line 97 *)
Definition singleFrame (d : EDecompositionType) (m : EModulationType) : bool :=
  isSteady d || (isTransientKind d && isModulated m).

(** the condition of lines 45-48; the two sums are [int] sums *)
Definition cropInvalid (size cropOffset cropSize : Z * Z) : bool :=
  (fst cropOffset <? 0) || (snd cropOffset <? 0)
  || (fst cropSize <=? 0) || (snd cropSize <=? 0)
  || (fst size <? to_int (fst cropOffset + fst cropSize))
  || (snd size <? to_int (snd cropOffset + snd cropSize)).

Section Constructor.
(** [boost::math::quantile] of the standard normal distribution and the
    constructor of the path-length sampler belong to other libraries; either
    may throw. *)
Variable quantile : Q -> Result Q.
Variable newPathLengthSampler : FilmProperties -> Result PathLengthSampler.

Definition Film_of_Properties (props : FilmProperties) : Result Film :=
  let isMFilm := String.eqb (to_lower_copy (pluginName props)) "mfilm" in
  let size := (default (if isMFilm then 1 else 768) (p_width props),
               default (if isMFilm then 1 else 576) (p_height props)) in
  let cropOffset := (default 0 (p_cropOffsetX props), default 0 (p_cropOffsetY props)) in
  let cropSize := (default (fst size) (p_cropWidth props),
                   default (snd size) (p_cropHeight props)) in
  if cropInvalid size cropOffset cropSize then Fatal crop_msg
  else
    let highQualityEdges := default false (p_highQualityEdges props) in
    match parse_decomposition (to_lower_copy (default "none"%string (p_decomposition props))) with
    | None => Fatal decomposition_msg
    | Some decompositionType =>
        let combine := default false (p_combinesamplings props) in
        if combine && negb (isEllipse decompositionType) then Fatal combine_msg
        else
          let minBound := default 0%Q (p_minBound props) in
          let maxBound := default 0%Q (p_maxBound props) in
          let binWidth := default 1%Q (p_binWidth props) in
          let isldSampling := default false (p_ldSampling props) in
          let isAdaptive := default false (p_adapSampling props) in
          if isAdaptive && isldSampling then Fatal both_msg
          else
            let adapMaxError := default (1 # 20)%Q (p_adapMaxError props) in
            let adapPValue := default (1 # 20)%Q (p_adapPValue props) in
            let* adapQuantile := quantile (1 - adapPValue / 2)%Q in
            let adapMaxSampleFactor := default 8 (p_adapMaxSampleFactor props) in
            let frames := ceilFrames minBound maxBound binWidth in
            let subSamples := default 1 (p_subSamples props) in
            let* sampler := newPathLengthSampler props in
            let frames :=
              if singleFrame decompositionType (modulationType sampler) then 1 else frames in
            if (isldSampling || isAdaptive)
               && (negb (isEllipse decompositionType) || isModulated (modulationType sampler))
            then Fatal ld_adaptive_msg
            else
              Ok (mkFilm size cropOffset cropSize highQualityEdges decompositionType combine
                    minBound maxBound binWidth isldSampling isAdaptive
                    adapMaxError adapPValue adapQuantile adapMaxSampleFactor
                    frames subSamples
                    (default false (p_forceBounce props))
                    (default 0 (p_sBounce props)) (default 0 (p_tBounce props))
                    (Some sampler) None)
    end.
End Constructor.

(** *** [Film::addChild] and [Film::configure] *)

(** A child node, by the first class test of [addChild] it passes. *)
Inductive Child :=
| FilterChild (plugin : string)
| SamplerChild (sampler : PathLengthSampler)
| OtherChild (className : string).

Definition set_filter (f : Film) (filter : option string) : Film :=
  mkFilm (m_size f) (m_cropOffset f) (m_cropSize f) (m_highQualityEdges f)
    (m_decompositionType f) (m_combineBDPTAndElliptic f)
    (m_decompositionMinBound f) (m_decompositionMaxBound f) (m_decompositionBinWidth f)
    (m_isldSampling f) (m_isAdaptive f) (m_adapMaxError f) (m_adapPValue f)
    (m_adapQuantile f) (m_adapMaxSampleFactor f) (m_frames f) (m_subSamples f)
    (m_forceBounces f) (m_sBounces f) (m_tBounces f) (m_pathLengthSampler f) filter.

Definition set_pathLengthSampler (f : Film) (sampler : option PathLengthSampler) : Film :=
  mkFilm (m_size f) (m_cropOffset f) (m_cropSize f) (m_highQualityEdges f)
    (m_decompositionType f) (m_combineBDPTAndElliptic f)
    (m_decompositionMinBound f) (m_decompositionMaxBound f) (m_decompositionBinWidth f)
    (m_isldSampling f) (m_isAdaptive f) (m_adapMaxError f) (m_adapPValue f)
    (m_adapQuantile f) (m_adapMaxSampleFactor f) (m_frames f) (m_subSamples f)
    (m_forceBounces f) (m_sBounces f) (m_tBounces f) sampler (m_filter f).

Definition assert_filter_msg : string := "Assertion m_filter == NULL failed".

Definition assert_sampler_msg : string := "Assertion m_pathLengthSampler == NULL failed".

Definition invalid_child_msg (className : string) : string :=
  String.concat dq ["Film: Invalid child node! ("; className; ")"]%string.

(** [Assert] is taken as compiled in. *)
Definition addChild (f : Film) (child : Child) : Result Film :=
  match child with
  | FilterChild plugin =>
      match m_filter f with
      | None => Ok (set_filter f (Some plugin))
      | Some _ => Fatal assert_filter_msg
      end
  | SamplerChild sampler =>
      match m_pathLengthSampler f with
      | None => Ok (set_pathLengthSampler f (Some sampler))
      | Some _ => Fatal assert_sampler_msg
      end
  | OtherChild className => Fatal (invalid_child_msg className)
  end.

(** the children of the scene description, in their order *)
Fixpoint addChildren (f : Film) (children : list Child) : Result Film :=
  match children with
  | [] => Ok f
  | child :: rest => let* f' := addChild f child in addChildren f' rest
  end.

Definition configure (f : Film) : Film :=
  match m_filter f with
  | None => set_filter f (Some "gaussian"%string)
  | Some _ => f
  end.

End FilmCtor.

(** ** The worker around the sample loops, and the preview of results
    (bdpt_proc.cpp, lines 52-70, 101-114, 117-152, 854-890) *)

Module Worker.

(** [emitterDepth] and [sensorDepth] (lines 101-114) *)
Definition walkDepths (cfg : BDPTConfiguration) (wr : BDPTWorkResult)
    (hasDegenerateSensor hasDegenerateEmitters : bool) : Z * Z :=
  let maxDepth := localMaxDepth cfg wr in
  let emitterDepth :=
    if negb hasDegenerateSensor && negb (maxDepth =? -1) then maxDepth + 1 else maxDepth in
  let sensorDepth :=
    if negb hasDegenerateEmitters && negb (maxDepth =? -1) then maxDepth + 1 else maxDepth in
  (emitterDepth, sensorDepth).

(** *** The preview blend of [BDPTProcess::processResult] (lines 870-889) *)

(** [dest] of pixel (x, y): [(borderSize + (y + borderSize) * width) * 5 + 5 x] *)
Definition destBase (borderSize dstWidth y x : Z) : nat :=
  Z.to_nat ((borderSize + (y + borderSize) * dstWidth) * 5 + x * 5).

(** [source] of pixel (x, y): [(offset.x + (y + offset.y) * width) * 3 + 3 x] *)
Definition sourceBase (offx offy srcWidth y x : Z) : nat :=
  Z.to_nat ((offx + (y + offy) * srcWidth) * 3 + x * 3).

(** the body of the loop over [x] *)
Definition previewPixel (invSampleCount : Q) (source : list Q) (si di : nat)
    (dest : list Q) : list Q :=
  let weight := (read dest (di + 4) * invSampleCount)%Q in
  fold_left
    (fun d k => <[ (di + k)%nat := (read d (di + k) + read source (si + k) * weight)%Q ]> d)
    [0; 1; 2]%nat dest.

Definition previewBlend (sampleCount : Z) (source dest : list Q)
    (srcWidth dstWidth borderSize offx offy sizex sizey : Z) : list Q :=
  let invSampleCount := (1 / inject_Z sampleCount)%Q in
  fold_left
    (fun d yx =>
       previewPixel invSampleCount source
         (sourceBase offx offy srcWidth (fst yx) (snd yx))
         (destBase borderSize dstWidth (fst yx) (snd yx)) d)
    (y ← seqZ 0 sizey; x ← seqZ 0 sizex; [(y, x)]) dest.

End Worker.

(** ** The coded perspective camera (codedPerspective.cpp, lines 181-261
    and 388-448) *)

Module CodedPerspective.

Definition Point : Type := Q * Q * Q.

Definition px (p : Point) : Q := fst (fst p).
Definition py (p : Point) : Q := snd (fst p).
Definition pz (p : Point) : Q := snd p.

Inductive EMeasure := EDiscrete | ESolidAngle | EArea.

(** The members the functions below read. Transforms act on points through
    the core library and are taken as the functions they compute. *)
Record Camera := mkCamera {
  m_cameraToSample : Point -> Point;
  (** the inverse of the world transform at the sample time, applied to a
      direction (getSamplePosition) and affinely to a point (sampleDirect) *)
  toLocalDirection : Point -> Point;
  toLocalPoint : Point -> Point;
  m_resolution : Q * Q;
  m_invResolution : Q * Q;
  m_mapRes : Q * Q;
  m_nearClip : Q;
  m_farClip : Q;
  imageRectContains : Q * Q -> bool; (* m_imageRect.contains *)
  m_normalization : Q;
  evalTexel : Z -> Z -> Q;           (* one channel of m_mipmap->evalTexel(0, x, y) *)
  vecLength : Point -> Q             (* Vector::length *)
}.

Definition outsideUnitSquare (x y : Q) : bool :=
  Qlt_bool x 0 || Qlt_bool 1 x || Qlt_bool y 0 || Qlt_bool 1 y.

(** [importance] (lines 181-235); [Frame::cosTheta(d)] is [d.z] *)
Definition importance (cam : Camera) (d : Point) : Q :=
  let cosTheta := pz d in
  if Qle_bool cosTheta 0 then 0%Q
  else
    let invCosTheta := (1 / cosTheta)%Q in
    if negb (imageRectContains cam ((px d * invCosTheta)%Q, (py d * invCosTheta)%Q)) then 0%Q
    else (m_normalization cam * invCosTheta * invCosTheta * invCosTheta)%Q.

(** [internalEvalDirection] (lines 237-261), one channel *)
Definition internalEvalDirection (cam : Camera) (d : Point) : Q :=
  let cosTheta := pz d in
  let invCosTheta := (1 / cosTheta)%Q in
  let uv := ((px d * invCosTheta)%Q, (py d * invCosTheta)%Q) in
  if negb (imageRectContains cam uv) then 0%Q
  else
    let sample := m_cameraToSample cam (fst uv, snd uv, 1%Q) in
    let u := (px sample * fst (m_mapRes cam))%Q in
    let v := (py sample * snd (m_mapRes cam))%Q in
    (m_normalization cam * invCosTheta * invCosTheta * invCosTheta
     * evalTexel cam (Qfloor u) (Qfloor v))%Q.

(** [getSamplePosition] (lines 388-406): [None] is the result [false] *)
Definition getSamplePosition (cam : Camera) (d : Point) : option (Q * Q) :=
  let local := toLocalDirection cam d in
  if Qle_bool (pz local) 0 then None
  else
    let screenSample := m_cameraToSample cam local in
    if outsideUnitSquare (px screenSample) (py screenSample) then None
    else Some ((px screenSample * fst (m_resolution cam))%Q,
               (py screenSample * snd (m_resolution cam))%Q).

(** what [sampleDirect] leaves in the record and returns *)
Record DirectSample := mkDirectSample {
  ds_value : Q;
  ds_pdf : Q;
  ds_uv : option (Q * Q);
  ds_dist : option Q;
  ds_measure : option EMeasure
}.

(** [sampleDirect] (lines 408-448); [ref] is the reference point of the
    record. On the two early returns the record keeps its other members. *)
Definition sampleDirect (cam : Camera) (ref : Point) : DirectSample :=
  let refP := toLocalPoint cam ref in
  if Qlt_bool (pz refP) (m_nearClip cam) || Qlt_bool (m_farClip cam) (pz refP)
  then mkDirectSample 0 0 None None None
  else
    let screenSample := m_cameraToSample cam refP in
    if outsideUnitSquare (px screenSample) (py screenSample)
    then mkDirectSample 0 0 (Some (px screenSample, py screenSample)) None None
    else
      let uvx := (px screenSample * fst (m_resolution cam))%Q in
      let uvy := (py screenSample * snd (m_resolution cam))%Q in
      let dist := vecLength cam refP in
      let invDist := (1 / dist)%Q in
      let localD := ((px refP * invDist)%Q, (py refP * invDist)%Q, (pz refP * invDist)%Q) in
      let tx := Qfloor (uvx * fst (m_invResolution cam) * fst (m_mapRes cam)) in
      let ty := Qfloor (uvy * snd (m_invResolution cam) * snd (m_mapRes cam)) in
      mkDirectSample
        (importance cam localD * invDist * invDist * evalTexel cam tx ty)%Q
        1 (Some (uvx, uvy)) (Some dist) (Some EDiscrete).

End CodedPerspective.

(** What the constructor has checked when it returns a film. The crop
    window lies inside the film in each direction in which the [int] sum of
    offset and size does not overflow. *)
Definition validFilm (f : FilmCtor.Film) : Prop :=
  (0 <= fst (FilmCtor.m_cropOffset f) /\ 0 <= snd (FilmCtor.m_cropOffset f)
   /\ 0 < fst (FilmCtor.m_cropSize f) /\ 0 < snd (FilmCtor.m_cropSize f)
   /\ to_int (fst (FilmCtor.m_cropOffset f) + fst (FilmCtor.m_cropSize f))
      <= fst (FilmCtor.m_size f)
   /\ to_int (snd (FilmCtor.m_cropOffset f) + snd (FilmCtor.m_cropSize f))
      <= snd (FilmCtor.m_size f)
   /\ (fst (FilmCtor.m_cropOffset f) + fst (FilmCtor.m_cropSize f) < 2 ^ 31 ->
       fst (FilmCtor.m_cropOffset f) + fst (FilmCtor.m_cropSize f) <= fst (FilmCtor.m_size f))
   /\ (snd (FilmCtor.m_cropOffset f) + snd (FilmCtor.m_cropSize f) < 2 ^ 31 ->
       snd (FilmCtor.m_cropOffset f) + snd (FilmCtor.m_cropSize f) <= snd (FilmCtor.m_size f)))
  /\ (FilmCtor.m_combineBDPTAndElliptic f = true
      -> FilmCtor.m_decompositionType f = ETransientEllipse)
  /\ ~ (FilmCtor.m_isAdaptive f = true /\ FilmCtor.m_isldSampling f = true)
  /\ (FilmCtor.m_isldSampling f = true \/ FilmCtor.m_isAdaptive f = true ->
      FilmCtor.m_decompositionType f = ETransientEllipse
      /\ FilmCtor.m_pathLengthSampler f = Some (FilmCtor.mkSampler ENone))
  /\ (forall smp, FilmCtor.m_pathLengthSampler f = Some smp ->
        FilmCtor.singleFrame (FilmCtor.m_decompositionType f) (FilmCtor.modulationType smp) = true ->
        FilmCtor.m_frames f = 1)
  /\ is_Some (FilmCtor.m_pathLengthSampler f)
  /\ FilmCtor.m_filter f = None.

(** A light sample that is a spectrum, or a channel array that differs from
    the initial one (zeros, the last two cells one) in the three cells of one
    bin below the frame count only. *)
Definition lightSampleInOneBin (wr : BDPTWorkResult) (ls : LightSample) : Prop :=
  match ls with
  | LightSpectrum _ _ => True
  | LightChannels _ l =>
      exists k, 0 <= k < frames wr
        /\ length l = length (l_sampleDecompositionValue (initAccum wr))
        /\ forall j : nat, ~ (Z.to_nat (k * 3) <= j <= Z.to_nat (k * 3) + 2)%nat ->
             l !! j = l_sampleDecompositionValue (initAccum wr) !! j
  end.

(** The shared array of the light samples holds its initial contents, and
    the light samples put so far carry one bin each. *)
Definition lightInvariant (wr : BDPTWorkResult) (a : Accum) : Prop :=
  l_sampleDecompositionValue a = l_sampleDecompositionValue (initAccum wr)
  /\ Forall (lightSampleInOneBin wr) (lightSamples a).

(* ================================================================== *)
(** * Part II: theorems *)
(* ================================================================== *)

(** ** Helper facts on numbers *)

Lemma Qfloor_unique (x : Q) (z : Z) :
  (inject_Z z <= x)%Q -> (x < inject_Z (z + 1))%Q -> Qfloor x = z.
Proof.
  intros Hlo Hhi.
  assert (Hge : z <= Qfloor x).
  { rewrite <- (Qfloor_Z z). now apply Qfloor_resp_le. }
  assert (Hlt : Qfloor x < z + 1).
  { rewrite Zlt_Qlt. eapply Qle_lt_trans; [apply Qfloor_le | exact Hhi]. }
  lia.
Qed.

Lemma to_size_t_small (z : Z) : 0 <= z < size_t_max -> to_size_t z = z.
Proof. intros H. unfold to_size_t. now apply Z.mod_small. Qed.

Lemma F32_round_proper (x y : Q) : (x == y)%Q -> F32.round x = F32.round y.
Proof. intros E. unfold F32.round. now rewrite (Qred_complete _ _ E). Qed.

Lemma binIndex_proper (lo w len len' : Q) :
  (len == len')%Q -> binIndex lo w len = binIndex lo w len'.
Proof.
  intros E. unfold binIndex, F32.sub.
  rewrite (F32_round_proper (len - lo) (len' - lo)); [reflexivity | now rewrite E].
Qed.

(** ** The emitter check *)

Lemma emitter_check_loop_first_only ortho persp (e : Emitter) rest lightImg indices :
  isProjector ortho persp e && lightImg = false ->
  emitter_check_loop ortho persp (e :: rest) lightImg indices = Ok tt.
Proof.
  intros He. induction indices as [|i indices IH]; [reflexivity|].
  cbn. unfold emitter_check_body. cbn. now rewrite He.
Qed.

(** C4. With the flag bits 32 (orthographic) and 64 (perspective) standing
    for the two projector kinds: a scene whose first emitter is an area light
    (flag 4, on-surface) and whose second emitter is a perspective projector
    passes the check although [lightImage] is on, whereas the same two emitters
    in the other order are rejected. The check reads [emitters[0]] in every
    iteration, so a projector is found at position 0 only. *)
Theorem emitter_check_misses_later_projector :
  let area := mkEmitter 4 in
  let projector := mkEmitter 64 in
  isProjector 32 64 projector = true
  /\ emitter_check 32 64 [area; projector] true = Ok tt
  /\ emitter_check 32 64 [projector; area] true = Fatal projector_msg.
Proof. repeat split; reflexivity. Qed.

(** ** Low-discrepancy path-length targets *)

(** C8. The sum of line 137 is a single-precision sum, rounded to nearest.
    (a) Bounds [0, 3], bins of width 1, three frames, and [u = 1 - 2^-23], a
    single-precision value below one: for the sample [j = 2] the exact sum
    [2 + u] lies in bin 2, halfway between two single-precision values, and
    the sum of the code is [3], the upper bound, whose bin index is the frame
    count; over the cycle [j = 0, 1, 2] the bins of the targets are
    [0, 1, 3], and bin 2 receives none. (b) Bounds [100, 102], bins of width
    [1/2], four frames, and [u = 1 - 2^-19]: the target of every sample is the
    upper boundary of its bin, so the bins of a cycle are [1, 2, 3, 4]. *)
Theorem ld_target_rounds_out_of_its_bin :
  let cfg := mkConfig 10 5 true false 0 3 1 3 true false (1 # 20) 2 8 in
  let u := (8388607 # 8388608)%Q in
  let cfg' := mkConfig 10 5 true false 100 102 (1 # 2) 4 true false (1 # 20) 2 8 in
  let u' := (524287 # 524288)%Q in
  ((0 <= u)%Q /\ (u < 1)%Q /\ F32.round u = u
   /\ Qfloor ((0 + 1 * 2 + 1 * u - 0) / 1) = 2
   /\ pathLengthTarget cfg 0 2 u = 3%Q
   /\ binIndex 0 1 (pathLengthTarget cfg 0 2 u) = m_frames cfg
   /\ map (fun j => binIndex 0 1 (pathLengthTarget cfg 0 j u)) (seqZ 0 3) = [0; 1; 3])
  /\ ((0 <= u')%Q /\ (u' < 1)%Q /\ F32.round u' = u'
      /\ map (fun j => pathLengthTarget cfg' 0 j u') (seqZ 0 4)
         = [201 # 2; 101; 203 # 2; 102]%Q
      /\ map (fun j => binIndex 100 (1 # 2) (pathLengthTarget cfg' 0 j u')) (seqZ 0 4)
         = [1; 2; 3; 4]).
Proof.
  intros cfg u cfg' u'. split.
  - split; [discriminate|]. split; [reflexivity|]. repeat split; vm_compute; reflexivity.
  - split; [discriminate|]. split; [reflexivity|]. repeat split; vm_compute; reflexivity.
Qed.

(** ** Pretraining luminance *)

(** C10. The pretraining configuration has one frame and a bin as wide as
    the whole range, and the luminance floor is the luminance of the
    pretraining average divided by the frame count of the real
    configuration. *)
Theorem averageLuminance_divided_by_frames (w : LuminanceWeights)
    (cfg : BDPTConfiguration) (fakeAverage : Spectrum) :
  0 < m_frames cfg ->
  m_frames (fakeConfig cfg) = 1
  /\ m_decompositionBinWidth (fakeConfig cfg)
     = (m_decompositionMaxBound cfg - m_decompositionMinBound cfg)%Q
  /\ (averageLuminance w cfg fakeAverage
      == getLuminance w fakeAverage / inject_Z (m_frames cfg))%Q.
Proof.
  intros Hf. split; [reflexivity|]. split; [reflexivity|].
  unfold averageLuminance, averegeBitmap, getLuminance, Spectrum_div. cbn.
  field. intros E.
  assert (H0 : (inject_Z 0 < inject_Z (m_frames cfg))%Q) by (rewrite <- Zlt_Qlt; exact Hf).
  rewrite E in H0. now apply Qlt_irrefl in H0.
Qed.

Lemma averageLuminance_divided_by_frames_witness :
  let cfg := mkConfig 5 5 true true 0 8 2 4 false true (1 # 20) 2 8 in
  let w := mkLum (212671 # 1000000) (715160 # 1000000) (72169 # 1000000) in
  (averageLuminance w cfg (mkSpectrum 4 4 4) == getLuminance w (mkSpectrum 4 4 4) / 4)%Q.
Proof.
  intros cfg w.
  apply (averageLuminance_divided_by_frames w cfg (mkSpectrum 4 4 4)).
  reflexivity.
Defined.

(** ** Snapshot and restore around the adaptive loop *)

Lemma blend_one_other hx hy sizeX channels j factor target entry (i : nat) :
  i <> src_index hx hy sizeX channels j (fst entry) ->
  blend_one hx hy sizeX channels j factor target entry !! i = target !! i.
Proof.
  intros Hne. unfold blend_one. now rewrite list_lookup_insert_ne.
Qed.

(** Cells that are not addressed by the index expression keep their value. *)
Lemma restore_untouched hx hy sizeX channels j factor borderSize snapshot target (i : nat) :
  (forall yx, In yx (footprint borderSize) -> i <> src_index hx hy sizeX channels j yx) ->
  restore target snapshot factor borderSize hx hy sizeX channels j !! i = target !! i.
Proof.
  unfold restore. intros Hfree.
  assert (Hgen : forall entries tgt,
             (forall e, In e entries -> i <> src_index hx hy sizeX channels j (fst e)) ->
             fold_left (blend_one hx hy sizeX channels j factor) entries tgt !! i = tgt !! i).
  { induction entries as [|e entries IH]; intros tgt He; [reflexivity|].
    cbn [fold_left]. rewrite IH.
    - apply blend_one_other. apply He. now left.
    - intros e' He'. apply He. now right. }
  apply Hgen. intros [yx q] Hin. cbn.
  apply Hfree. apply list_elem_of_In. apply list_elem_of_In in Hin.
  apply elem_of_zip_l in Hin. exact Hin.
Qed.

(** C3. One pixel, no border, nominal budget of one sample per bin, two
    samples drawn (the loop cannot leave after the first). With one frame
    (five channels R, G, B, weight, alpha) and each sample adding 2 to R, G
    and B: the snapshot holds one value; the blend halves the R channel only,
    and G and B keep the contribution of both samples. With two frames and bin
    [j = 1], each sample adding 2 to the three channels 3, 4, 5 of bin 1: the
    cell that is snapshotted and blended is channel 1 (G of bin 0), and the
    channels of bin 1 keep the contribution of both samples. *)
Theorem restore_blends_one_channel :
  let cfg := Scene.config true false in
  let one := Scene.splat [2; 2; 2; 1; 1]%Q 2 in
  let two := Scene.splat [0; 0; 0; 2; 2; 2; 1; 1]%Q 2 in
  length (take_snapshot (replicate 5 0%Q) 0 0 0 1 5 0) = 1%nat
  /\ map Qred (adaptive_bin newton_sqrt cfg 1 1 0 0 0 1 5 0 (replicate 5 0%Q) [one; one; one])
     = [2; 4; 4; 2; 2]%Q
  /\ map Qred (adaptive_bin newton_sqrt cfg 1 1 0 0 0 1 8 1 (replicate 8 0%Q) [two; two; two])
     = [0; 0; 0; 4; 4; 4; 2; 2]%Q.
Proof. repeat split; vm_compute; reflexivity. Qed.

(** ** The adaptive loop *)

Section WelfordFacts.

Lemma welford_run_snoc (xs : list Q) (x : Q) :
  welford_run (xs ++ [x]) = welford_update (welford_run xs) x.
Proof. unfold welford_run. now rewrite fold_left_app. Qed.

Lemma welford_run_count (xs : list Q) :
  Z.of_nat (length xs) < size_t_max ->
  sampleCount (welford_run xs) = Z.of_nat (length xs).
Proof.
  induction xs as [|x xs IH] using rev_ind; intros Hlen; [reflexivity|].
  rewrite welford_run_snoc. rewrite length_app in *. cbn [length] in *.
  unfold welford_update. cbn [sampleCount].
  rewrite IH by lia. rewrite to_size_t_small; lia.
Qed.

Lemma Qsum_snoc (xs : list Q) (x : Q) : (Qsum (xs ++ [x]) == Qsum xs + x)%Q.
Proof.
  induction xs as [|y xs IH]; cbn.
  - ring.
  - unfold Qsum in IH. rewrite IH. ring.
Qed.

Lemma Qsumsq_snoc (xs : list Q) (x : Q) : (Qsumsq (xs ++ [x]) == Qsumsq xs + x * x)%Q.
Proof. unfold Qsumsq. rewrite map_app. cbn [map]. apply Qsum_snoc. Qed.

Lemma inject_Z_pos_neq0 (n : Z) : 0 < n -> ~ (inject_Z n == 0)%Q.
Proof.
  intros Hn E. change 0%Q with (inject_Z 0) in E.
  apply (proj1 (inject_Z_injective n 0)) in E. lia.
Qed.

(** The running mean and [M2] in terms of the power sums. *)
Lemma welford_power_sums (xs : list Q) :
  Z.of_nat (length xs) < size_t_max ->
  (length xs >= 1)%nat ->
  let n := inject_Z (Z.of_nat (length xs)) in
  (mean (welford_run xs) == Qsum xs / n)%Q
  /\ (meanSqr (welford_run xs) == Qsumsq xs - Qsum xs * Qsum xs / n)%Q.
Proof.
  induction xs as [|x xs IH] using rev_ind; intros Hlen Hpos; [cbn in Hpos; lia|].
  rewrite length_app in *. cbn [length] in *.
  rewrite welford_run_snoc. unfold welford_update. cbn [mean meanSqr].
  rewrite welford_run_count by lia.
  rewrite to_size_t_small by lia.
  replace (Z.of_nat (length xs + 1)) with (Z.of_nat (length xs) + 1) by lia.
  rewrite Qsum_snoc, Qsumsq_snoc.
  destruct (decide (length xs = 0%nat)) as [Hnil|Hcons].
  - apply nil_length_inv in Hnil. subst xs. cbn.
    change (inject_Z (Z.of_nat 0 + 1)) with 1%Q.
    split; field.
  - assert (Hlen1 : (length xs >= 1)%nat) by lia.
    destruct (IH ltac:(lia) Hlen1) as [Hm Hq].
    set (n := Z.of_nat (length xs)) in *.
    assert (Hn : ~ (inject_Z n == 0)%Q) by (apply inject_Z_pos_neq0; lia).
    assert (Hn1 : ~ (inject_Z (n + 1) == 0)%Q) by (apply inject_Z_pos_neq0; lia).
    rewrite Hm, Hq.
    rewrite inject_Z_plus in *. change (inject_Z 1) with 1%Q in *.
    split; field; split; assumption.
Qed.

Lemma sqdev_expand (xs : list Q) (mu : Q) :
  (sqdev xs mu
   == Qsumsq xs - 2 * mu * Qsum xs + inject_Z (Z.of_nat (length xs)) * mu * mu)%Q.
Proof.
  unfold sqdev, Qsumsq.
  induction xs as [|x xs IH].
  - cbn. ring.
  - cbn [map Qsum foldr length]. unfold Qsum in IH. rewrite IH.
    rewrite Nat2Z.inj_succ, <- Z.add_1_r, inject_Z_plus.
    change (inject_Z 1) with 1%Q. ring.
Qed.

(** Welford's recurrences compute the mean and the sum of squared
    deviations from it. *)
Lemma welford_run_correct (xs : list Q) :
  Z.of_nat (length xs) < size_t_max ->
  (length xs >= 1)%nat ->
  (mean (welford_run xs) == Qavg xs)%Q
  /\ (meanSqr (welford_run xs) == sqdev xs (Qavg xs))%Q.
Proof.
  intros Hlen Hpos.
  destruct (welford_power_sums xs Hlen Hpos) as [Hm Hq].
  split; [exact Hm|].
  rewrite Hq, sqdev_expand. unfold Qavg.
  field. apply inject_Z_pos_neq0. lia.
Qed.

End WelfordFacts.

Section LoopFacts.
Variable fsqrt : Q -> Q.
Variable cfg : BDPTConfiguration.
Variable spb : Z.
Variable L : Q.
Hypothesis Hspb : 0 <= spb.
Hypothesis Hprod : m_adapMaxSampleFactor cfg * spb < size_t_max.

Lemma hardCap_iff (st : Welford) :
  hardCap cfg spb st = true
  <-> 0 <= m_adapMaxSampleFactor cfg /\ m_adapMaxSampleFactor cfg * spb <= sampleCount st.
Proof.
  unfold hardCap. rewrite andb_true_iff, !Z.leb_le.
  split; intros [Hf Hn]; (split; [exact Hf|]).
  - rewrite to_size_t_small in Hn; [exact Hn|]. split; [nia | exact Hprod].
  - rewrite to_size_t_small; [exact Hn|]. split; [nia | exact Hprod].
Qed.

Lemma converged_iff (st : Welford) :
  converged fsqrt cfg L st = true
  <-> sampleCount st <> 1
      /\ (fsqrt (meanSqr st / inject_Z (sampleCount st - 1) / inject_Z (sampleCount st))
            * m_adapQuantile cfg
          <= m_adapMaxError cfg * Qmax (mean st) (L * (1 # 100)))%Q.
Proof.
  unfold converged, ciWidth, fdiv, base.
  destruct (Qeq_bool (inject_Z (sampleCount st - 1)) 0) eqn:E.
  - apply Qeq_bool_iff in E. change 0%Q with (inject_Z 0) in E.
    apply (proj1 (inject_Z_injective _ 0)) in E.
    split; [discriminate | intros [Hne _]; lia].
  - rewrite Qle_bool_iff. split; [|intros [_ H]; exact H].
    intros H. split; [|exact H].
    intros Hone. rewrite Hone in E. discriminate E.
Qed.

Lemma exit_test_iff (st : Welford) :
  exit_test fsqrt cfg spb L st = true <-> code_stop fsqrt cfg spb L st.
Proof.
  unfold exit_test, code_stop.
  destruct (hardCap cfg spb st) eqn:Ecap.
  - apply hardCap_iff in Ecap. split; [intros _; left; exact Ecap | reflexivity].
  - assert (Hncap : ~ (0 <= m_adapMaxSampleFactor cfg
                       /\ m_adapMaxSampleFactor cfg * spb <= sampleCount st)).
    { intros H. apply hardCap_iff in H. congruence. }
    destruct (spb <=? sampleCount st) eqn:En.
    + apply Z.leb_le in En. rewrite converged_iff.
      split.
      * intros [H1 H2]. right. repeat split; assumption.
      * intros [H|[_ [H1 H2]]]; [contradiction | split; assumption].
    + apply Z.leb_gt in En.
      split; [discriminate|]. intros [H|[H _]]; [contradiction | lia].
Qed.

Local Abbreviation loop := (adaptive_loop fsqrt cfg spb L).
Local Abbreviation exits := (exit_test fsqrt cfg spb L).

Lemma adaptive_loop_trace (xs pre : list Q) :
  let run := loop (map (pair false) xs) (welford_run pre) in
  (snd run = OutOfSamples
   /\ fst run = welford_run (pre ++ xs)
   /\ forall m, (1 <= m <= length xs)%nat ->
                exits (welford_run (pre ++ take m xs)) = false)
  \/ ((snd run = HardCap \/ snd run = Converged)
      /\ exists m, (1 <= m <= length xs)%nat
           /\ fst run = welford_run (pre ++ take m xs)
           /\ exits (fst run) = true
           /\ forall m', (1 <= m' < m)%nat ->
                         exits (welford_run (pre ++ take m' xs)) = false).
Proof.
  revert pre. induction xs as [|x xs IH]; intros pre run.
  - left. subst run. cbn. rewrite app_nil_r. repeat split. intros m Hm. lia.
  - subst run. cbn [map adaptive_loop].
    rewrite <- welford_run_snoc.
    specialize (IH (pre ++ [x])).
    assert (Hshift : forall m, pre ++ take (S m) (x :: xs) = (pre ++ [x]) ++ take m xs).
    { intros m. cbn. now rewrite <- app_assoc. }
    assert (Hcont : exits (welford_run (pre ++ [x])) = false ->
                    let run := loop (map (pair false) xs) (welford_run (pre ++ [x])) in
                    (snd run = OutOfSamples
                     /\ fst run = welford_run (pre ++ x :: xs)
                     /\ forall m, (1 <= m <= length (x :: xs))%nat ->
                                  exits (welford_run (pre ++ take m (x :: xs))) = false)
                    \/ ((snd run = HardCap \/ snd run = Converged)
                        /\ exists m, (1 <= m <= length (x :: xs))%nat
                             /\ fst run = welford_run (pre ++ take m (x :: xs))
                             /\ exits (fst run) = true
                             /\ forall m', (1 <= m' < m)%nat ->
                                  exits (welford_run (pre ++ take m' (x :: xs))) = false)).
    { intros Hno run. subst run.
      destruct IH as [(Hr & Hst & Hall)|(Hr & m & Hm & Hst & Hex & Hpre)].
      - left. split; [exact Hr|]. split.
        + rewrite Hst. now rewrite <- app_assoc.
        + intros [|m] Hm; [lia|]. rewrite Hshift.
          destruct m as [|m]; [cbn; rewrite app_nil_r; exact Hno|].
          apply Hall. cbn in Hm. lia.
      - right. split; [exact Hr|]. exists (S m). split; [cbn; lia|].
        split; [rewrite Hshift; exact Hst|]. split; [exact Hex|].
        intros [|m'] Hm'; [lia|]. rewrite Hshift.
        destruct m' as [|m']; [cbn; rewrite app_nil_r; exact Hno|].
        apply Hpre. lia. }
    assert (Hone : pre ++ take 1 (x :: xs) = pre ++ [x]) by (cbn; now rewrite take_0).
    destruct (hardCap cfg spb (welford_run (pre ++ [x]))) eqn:Ecap.
    + right. cbn [fst snd]. split; [now left|]. exists 1%nat.
      split; [cbn; lia|]. split; [now rewrite Hone|].
      split; [unfold exit_test; now rewrite Ecap | intros m' Hm'; lia].
    + destruct (spb <=? sampleCount (welford_run (pre ++ [x]))) eqn:En.
      * destruct (converged fsqrt cfg L (welford_run (pre ++ [x]))) eqn:Ecv.
        -- right. cbn [fst snd]. split; [now right|]. exists 1%nat.
           split; [cbn; lia|]. split; [now rewrite Hone|].
           split; [unfold exit_test; now rewrite Ecap, En | intros m' Hm'; lia].
        -- apply Hcont. unfold exit_test. now rewrite Ecap, En.
      * apply Hcont. unfold exit_test. now rewrite Ecap, En.
Qed.

End LoopFacts.

(** C2, as the code has it. For samples [xs] drawn without cancellation,
    after [k] of them the loop state holds the count [k], the mean of the
    first [k] samples and the sum of their squared deviations from that mean;
    and the loop leaves after exactly [k] samples (through the hard cap or
    through convergence) if and only if the stopping rule of the code holds
    after [k] samples and after no smaller number of samples. The stopping
    rule is: [adapMaxSampleFactor >= 0] and [k >= adapMaxSampleFactor *
    samplesPerBin], or [k >= samplesPerBin], [k <> 1] and
    [adapQuantile * sqrt(M2/(k-1)/k) <= adapMaxError * max(mean, 0.01 *
    averageLuminance)]. *)
Theorem adaptive_loop_stops_exactly (fsqrt : Q -> Q) (cfg : BDPTConfiguration)
    (spb : Z) (L : Q) (xs : list Q) (k : nat) :
  0 <= spb ->
  m_adapMaxSampleFactor cfg * spb < size_t_max ->
  Z.of_nat (length xs) < size_t_max ->
  (1 <= k <= length xs)%nat ->
  let st := welford_run (take k xs) in
  let run := adaptive_loop fsqrt cfg spb L (map (pair false) xs) welford_init in
  sampleCount st = Z.of_nat k
  /\ (mean st == Qavg (take k xs))%Q
  /\ (meanSqr st == sqdev (take k xs) (Qavg (take k xs)))%Q
  /\ ((fst run = st /\ (snd run = HardCap \/ snd run = Converged))
      <-> (code_stop fsqrt cfg spb L st
           /\ forall m, (1 <= m < k)%nat ->
                        ~ code_stop fsqrt cfg spb L (welford_run (take m xs)))).
Proof.
  intros Hspb Hprod Hlen Hk st run. subst st run.
  assert (Hcount : forall m, (m <= length xs)%nat ->
                     sampleCount (welford_run (take m xs)) = Z.of_nat m).
  { intros m Hm. rewrite welford_run_count; rewrite length_take; lia. }
  assert (Hlk : length (take k xs) = k) by (rewrite length_take; lia).
  destruct (welford_run_correct (take k xs)) as [Hmean Hsq]; [lia | lia |].
  split; [apply Hcount; lia|]. split; [exact Hmean|]. split; [exact Hsq|].
  pose proof (adaptive_loop_trace fsqrt cfg spb L xs []) as Htrace.
  cbn [app] in Htrace. change (welford_run []) with welford_init in Htrace.
  cbv zeta in Htrace.
  split.
  - intros [Hst Hr].
    destruct Htrace as [(Ho & _)|(_ & m & Hm & Hfst & Hex & Hpre)].
    { destruct Hr as [Hr|Hr]; rewrite Hr in Ho; discriminate. }
    assert (m = k).
    { assert (E : sampleCount (welford_run (take m xs))
                  = sampleCount (welford_run (take k xs)))
        by (rewrite <- Hfst, Hst; reflexivity).
      rewrite !Hcount in E by lia. lia. }
    subst m. split.
    + apply (exit_test_iff fsqrt cfg spb L Hspb Hprod). rewrite <- Hst. exact Hex.
    + intros m' Hm' Hstop.
      apply (exit_test_iff fsqrt cfg spb L Hspb Hprod) in Hstop.
      rewrite (Hpre m' Hm') in Hstop. discriminate.
  - intros [Hstop Hnone].
    apply (exit_test_iff fsqrt cfg spb L Hspb Hprod) in Hstop.
    destruct Htrace as [(_ & _ & Hall)|(Hr & m & Hm & Hfst & Hex & Hpre)].
    { rewrite (Hall k Hk) in Hstop. discriminate. }
    destruct (Nat.lt_trichotomy m k) as [Hlt|[Heq|Hgt]].
    + exfalso. apply (Hnone m); [lia|].
      apply (exit_test_iff fsqrt cfg spb L Hspb Hprod). rewrite <- Hfst. exact Hex.
    + subst m. split; [exact Hfst | exact Hr].
    + rewrite (Hpre k) in Hstop by lia. discriminate.
Qed.

Lemma adaptive_loop_stops_exactly_witness :
  let cfg := mkConfig 5 5 true true 0 8 2 4 false true (1 # 20) 2 8 in
  let xs := [1; 1; 1]%Q in
  sampleCount (welford_run (take 2 xs)) = 2
  /\ adaptive_loop newton_sqrt cfg 2 1 (map (pair false) xs) welford_init
     = (welford_run (take 2 xs), Converged).
Proof.
  intros cfg xs.
  assert (H1 : 0 <= 2) by lia.
  assert (H2 : m_adapMaxSampleFactor cfg * 2 < size_t_max) by reflexivity.
  assert (H3 : Z.of_nat (length xs) < size_t_max) by reflexivity.
  assert (H4 : (1 <= 2 <= length xs)%nat) by (cbn; lia).
  split.
  - exact (proj1 (adaptive_loop_stops_exactly newton_sqrt cfg 2 1 xs 2 H1 H2 H3 H4)).
  - vm_compute. reflexivity.
Defined.

(** C2, counterexample to the rule as the specification words it. (a) With
    [adapMaxSampleFactor = -1] and [samplesPerBin = 2] the worded hard cap
    [sampleCount >= adapMaxSampleFactor * samplesPerBin] holds after the first
    sample, yet the loop draws the second sample and is still running after
    it. (b) With the stop flag raised the loop leaves at once, with no sample
    drawn, although neither worded condition holds. (c) With
    [samplesPerBin = 1], after the first sample [M2] is zero and the worded
    width, read with the quotient by [n(n-1) = 0] as zero, is within the
    bound, yet the loop goes on: the variance of the code is [0/0] there. *)
Lemma adaptive_loop_counterexample :
  let uncapped := mkConfig 5 5 true true 0 8 2 4 false true (1 # 20) 2 (-1) in
  let capped := mkConfig 5 5 true true 0 8 2 4 false true (1 # 20) 2 8 in
  (spec_stop newton_sqrt uncapped 2 1 1 1 0
   /\ adaptive_loop newton_sqrt uncapped 2 1 [(false, 1%Q); (false, 3%Q)] welford_init
      = (welford_run [1; 3]%Q, OutOfSamples))
  /\ (~ spec_stop newton_sqrt capped 2 1 0 0 0
      /\ adaptive_loop newton_sqrt capped 2 1 [(true, 1%Q); (false, 3%Q)] welford_init
         = (welford_init, Cancelled))
  /\ (spec_stop newton_sqrt capped 1 1 1 1 0
      /\ adaptive_loop newton_sqrt capped 1 1 [(false, 1%Q)] welford_init
         = (welford_run [1%Q], OutOfSamples)).
Proof.
  intros uncapped capped. split; [|split]; split.
  - left. cbn. lia.
  - vm_compute. reflexivity.
  - intros [H|[H _]]; cbn in H; lia.
  - reflexivity.
  - right. split; [lia|]. vm_compute. discriminate.
  - vm_compute. reflexivity.
Qed.

(** ** [evaluate]: the length arrays *)

Section ArrayFacts.
Variable wr : BDPTWorkResult.
Hypothesis Hbounce : m_decompositionType wr = EBounce.

Lemma read_app_l (a : list Q) (x : Q) (i : nat) :
  (i < length a)%nat -> read (a ++ [x]) i = read a i.
Proof. intros Hi. unfold read. now rewrite lookup_app_l. Qed.

Lemma read_app_last (a : list Q) (x : Q) : read (a ++ [x]) (length a) = x.
Proof.
  unfold read. rewrite lookup_app_r by lia.
  now rewrite Nat.sub_diag.
Qed.

(** In bounce mode cell [i >= 1] of a length array holds [i - 1]. *)
Lemma bounce_array_prefix (p : Path) (n : nat) :
  let a := fold_left
             (fun a i => a ++ [(read a (i - 1) + lengthStep wr (edges p !! (i - 1)%nat))%Q])
             (seq 2 n) [0%Q; 0%Q] in
  length a = (n + 2)%nat
  /\ forall i, (1 <= i < n + 2)%nat -> (read a i == inject_Z (Z.of_nat i - 1))%Q.
Proof.
  induction n as [|n IH]; cbn zeta.
  - split; [reflexivity|]. intros i Hi. assert (i = 1%nat) by lia. subst i. reflexivity.
  - rewrite seq_S, fold_left_app. cbn [fold_left].
    cbn zeta in IH. destruct IH as [Hlen Hval].
    set (a := fold_left _ (seq 2 n) [0%Q; 0%Q]) in *.
    split; [rewrite length_app; cbn; lia|].
    intros i Hi.
    destruct (decide (i < n + 2)%nat) as [Hlt|Hge].
    + rewrite read_app_l by lia. apply Hval. lia.
    + assert (i = length a) by lia. subst i.
      rewrite read_app_last. rewrite Hlen.
      replace (2 + n - 1)%nat with (n + 1)%nat by lia.
      rewrite Hval by lia.
      unfold lengthStep. rewrite Hbounce.
      rewrite <- (inject_Z_plus _ 1). apply inject_Z_injective. lia.
Qed.

Lemma bounce_pathlengthArray (p : Path) (i : nat) :
  (1 <= i < vertexCount p)%nat ->
  (read (pathlengthArray wr p) i == inject_Z (Z.of_nat i - 1))%Q.
Proof.
  intros Hi. unfold pathlengthArray.
  apply (bounce_array_prefix p (vertexCount p - 2)). lia.
Qed.
End ArrayFacts.

(** ** [evaluate]: one pair (s,t) *)

Ltac split_if_in H :=
  match type of H with
  | context [if ?b then _ else _] => destruct b eqn:?
  end.

Ltac split_ifs_in H := repeat (split_if_in H; try discriminate H).

Ltac bool_hyps :=
  repeat match goal with
    | H : false = true |- _ => discriminate H
    | H : true = false |- _ => discriminate H
    | H : (_ && _) = true |- _ => apply andb_true_iff in H; destruct H
    | H : (_ || _) = true |- _ => apply orb_true_iff in H; destruct H
    | H : (_ || _) = false |- _ => apply orb_false_iff in H; destruct H
    | H : negb _ = true |- _ => apply negb_true_iff in H
    | H : negb _ = false |- _ => apply negb_false_iff in H
    | H : (_ =? _) = true |- _ => apply Z.eqb_eq in H
    | H : (_ =? _) = false |- _ => apply Z.eqb_neq in H
    | H : (_ <? _) = true |- _ => apply Z.ltb_lt in H
    | H : (_ <? _) = false |- _ => apply Z.ltb_ge in H
    | H : (_ <=? _) = true |- _ => apply Z.leb_le in H
    | H : (_ <=? _) = false |- _ => apply Z.leb_gt in H
    end.

Lemma set_corrWeight_same (acc : Accum) : set_corrWeight acc (corrWeight acc) = acc.
Proof. now destruct acc. Qed.

Section EndpointFacts.
Variable cfg : BDPTConfiguration.
Variable wr : BDPTWorkResult.
Variables emitterSubpath sensorSubpath : Path.
Variable pathLengthTarget : Q.

Local Abbreviation endpoints' := (endpoints cfg wr emitterSubpath sensorSubpath pathLengthTarget).

(** In bounce mode a candidate that reaches the connection carries the
    length [s + t - 1], whichever of the three branches produced it. *)
Lemma endpoints_bounce (s t : Z) (vs vt : PathVertex) (c : Collab) (corrW : Q)
    cur value pathLength corrW' sd :
  m_decompositionType wr = EBounce ->
  (1 <= Z.to_nat s < vertexCount emitterSubpath)%nat ->
  (1 <= Z.to_nat t < vertexCount sensorSubpath)%nat ->
  endpoints' s t vs vt c corrW = Connect cur value pathLength corrW' sd ->
  cur = EBounce /\ corrW' = corrW /\ (pathLength == inject_Z (s + t - 1))%Q.
Proof.
  intros Hb Hs Ht H.
  pose proof (bounce_pathlengthArray wr Hb emitterSubpath (Z.to_nat s) Hs) as HeL.
  pose proof (bounce_pathlengthArray wr Hb sensorSubpath (Z.to_nat t) Ht) as HsL.
  rewrite Z2Nat.id in HeL, HsL by lia.
  unfold endpoints, chooseSampling, emitterPathlength, sensorPathlength in H.
  rewrite Hb in H. cbn [isSteady isEllipse isTransientKind negb] in H.
  rewrite !andb_false_r in H. cbn [andb] in H.
  split_ifs_in H; inversion H; subst; clear H;
    (split; [reflexivity|]); (split; [reflexivity|]);
    cbn [directPathLength]; try discriminate;
    bool_hyps; rewrite ?HeL, ?HsL;
    rewrite <- ?inject_Z_plus, <- ?(inject_Z_plus _ 1);
    apply inject_Z_injective; lia.
Qed.

(** The fatal log entry sits in the t = 1 branch only: with s = 1 the
    endpoint part never aborts. *)
Lemma endpoints_s1_no_abort (t : Z) (vs vt : PathVertex) (c : Collab) (corrW : Q) msg :
  1 < t ->
  endpoints' 1 t vs vt c corrW <> Abort msg.
Proof.
  intros Ht H. unfold endpoints, chooseSampling in H.
  assert (Et : (t =? 1) = false) by (apply Z.eqb_neq; lia).
  rewrite Et in H. cbn [Z.eqb Pos.eqb andb orb] in H.
  destruct (m_decompositionType wr); cbn [isEllipse isSteady isTransientKind negb] in H;
    rewrite ?andb_false_r in H; cbn [andb] in H;
    repeat (first [ discriminate H | split_if_in H ]).
Qed.

(** The only message [endpoints] aborts with. *)
Lemma endpoints_abort_msg (s t : Z) (vs vt : PathVertex) (c : Collab) (corrW : Q) msg :
  endpoints' s t vs vt c corrW = Abort msg -> msg = direct_ellipsoidal_msg.
Proof.
  intros H. unfold endpoints in H.
  destruct (chooseSampling wr c (m_decompositionType wr) _ corrW) as [cur1 w1] in H.
  destruct (chooseSampling wr c (m_decompositionType wr) _ corrW) as [cur2 w2] in H.
  repeat (first [ discriminate H | split_if_in H ]);
    try (destruct cur2; discriminate H).
  now inversion H.
Qed.

(** Without modulation the correction weight is left as it was, and the
    only change of the decomposition type is from the elliptic to the plain
    transient kind. *)
Lemma chooseSampling_unmodulated (c : Collab) cur temp corrW cur' corrW' :
  getModulationType wr = ENone ->
  chooseSampling wr c cur temp corrW = (cur', corrW') ->
  corrW' = corrW /\ (cur' = cur \/ (cur = ETransientEllipse /\ cur' = ETransient)).
Proof.
  intros Hm H. unfold chooseSampling in H. rewrite Hm in H. cbn [isModulated] in H.
  destruct (m_combineBDPTAndElliptic wr && isEllipse cur && inBounds wr temp) eqn:E;
    inversion H; subst; split; auto.
  right. split; [|reflexivity].
  apply andb_true_iff in E as [E _]. apply andb_true_iff in E as [_ E].
  now destruct cur.
Qed.

End EndpointFacts.

Section ConnectionFacts.
Variable cfg : BDPTConfiguration.
Variable wr : BDPTWorkResult.
Variables emitterSubpath sensorSubpath : Path.
Variable pathLengthTarget : Q.
Variable initialSamplePos : Point2.

Local Abbreviation endpoints' := (endpoints cfg wr emitterSubpath sensorSubpath pathLengthTarget).

(** What each way of leaving the endpoint part tells, when the
    correction weight cannot change (no elliptic mode, or no modulation). *)
Lemma endpoints_stable (s t : Z) (vs vt : PathVertex) (c : Collab) (corrW : Q) :
  m_decompositionType wr <> ETransientEllipse \/ getModulationType wr = ENone ->
  match endpoints' s t vs vt c corrW with
  | Continue w => w = corrW
  | Abort msg => m_decompositionType wr = ETransientEllipse
  | Elliptic _ _ _ w => w = corrW /\ m_decompositionType wr = ETransientEllipse
  | Connect cur _ _ w _ =>
      w = corrW
      /\ (cur = m_decompositionType wr
          \/ (m_decompositionType wr = ETransientEllipse /\ cur = ETransient))
  end.
Proof.
  intros Hst.
  assert (Hchoose : forall temp cur' w',
             chooseSampling wr c (m_decompositionType wr) temp corrW = (cur', w') ->
             w' = corrW
             /\ (cur' = m_decompositionType wr
                 \/ (m_decompositionType wr = ETransientEllipse /\ cur' = ETransient))).
  { intros temp cur' w' H. destruct Hst as [Hne|Hm].
    - unfold chooseSampling in H.
      assert (Hf : isEllipse (m_decompositionType wr) = false)
        by (destruct (m_decompositionType wr) eqn:Ed; try reflexivity; congruence).
      rewrite Hf, andb_false_r in H. cbn in H. inversion H; auto.
    - now apply (chooseSampling_unmodulated wr c _ temp corrW). }
  unfold endpoints.
  repeat match goal with
         | |- context [chooseSampling wr c (m_decompositionType wr) ?temp corrW] =>
             let E := fresh "E" in
             destruct (chooseSampling wr c (m_decompositionType wr) temp corrW)
               as [? ?] eqn:E;
             apply Hchoose in E; destruct E as [? ?]; subst
         end.
  repeat match goal with
         | |- match (if ?b then _ else _) with Continue _ => _ | _ => _ end =>
             destruct b eqn:?
         | |- match (match ?d with ESteadyState => _ | _ => _ end) with
              | Continue _ => _ | _ => _ end =>
             destruct d eqn:?
         end;
    cbn iota beta; try reflexivity.
  all: repeat match goal with
              | H : isEllipse ?d = true |- _ =>
                  assert (d = ETransientEllipse) by (now destruct d); clear H
              | H : _ \/ (_ /\ _) |- _ => destruct H as [H|[H ?]]
              end;
         try congruence.
  all: try (split; [reflexivity|]); try congruence; auto.
  all: match goal with
       | |- (if ?b then _ else _) = _ \/ _ =>
           destruct b eqn:E; [right|left; reflexivity]
       end.
  all: split; [|reflexivity].
  all: apply andb_true_iff in E as [E _]; apply andb_true_iff in E as [_ E].
  all: now destruct (m_decompositionType wr).
Qed.

End ConnectionFacts.

Section CommitFacts.
Variable cfg : BDPTConfiguration.
Variable wr : BDPTWorkResult.
Variables emitterSubpath sensorSubpath : Path.
Variable pathLengthTarget : Q.
Variable isEmitterLaser : bool.
Variable initialSamplePos : Point2.
Variable collab : Z -> Z -> Collab.

(** The binning block without modulation: either nothing changes, or the
    guard of line 761 held and the three cells of bin [k] received the
    contribution, in the pixel accumulator for [t >= 2], in the light sample
    for [t = 1]. *)
Lemma commit_unmodulated cur value pathLength miW t samplePos acc :
  getModulationType wr = ENone ->
  cur <> ESteadyState ->
  let k := binIndex (minBound wr) (binWidth wr) pathLength in
  let acc' := commit wr cur value pathLength miW t samplePos acc in
  acc' = acc
  \/ (((minBound wr <= pathLength)%Q /\ (pathLength <= maxBound wr)%Q)
      /\ 0 <= k < frames wr
      /\ ((2 <= t
           /\ acc' = set_sampleDecompositionValue acc
                       (addBin (sampleDecompositionValue acc) k (toLinearRGB value) miW))
          \/ (t = 1
              /\ acc' = set_l_sampleDecompositionValue
                          (putLightSample acc
                             (LightChannels samplePos
                                (addBin (l_sampleDecompositionValue acc) k
                                   (toLinearRGB value) miW)))
                          (resetBin (addBin (l_sampleDecompositionValue acc) k
                                       (toLinearRGB value) miW) k)))).
Proof.
  intros Hm Hcur k acc'. subst acc'. unfold commit.
  rewrite Hm. cbn [isModulated]. rewrite !andb_false_r.
  assert (Hs : isSteady cur = false) by (now destruct cur).
  rewrite Hs. cbn [negb andb orb].
  destruct (binGuard wr cur value pathLength) eqn:G; [|now left].
  unfold binGuard in G. fold k in G.
  repeat (apply andb_true_iff in G; destruct G as [G ?]).
  apply Qle_bool_iff in G.
  match goal with H : Qle_bool pathLength _ = true |- _ => apply Qle_bool_iff in H end.
  bool_hyps.
  destruct (2 <=? t) eqn:E2.
  - right. apply Z.leb_le in E2. repeat split; try assumption. now left.
  - destruct (t =? 1) eqn:E1; [|now left].
    right. apply Z.eqb_eq in E1. repeat split; try assumption. now right.
Qed.

(** In bounce mode the binning block depends on the path length through
    comparisons and the floor only. *)
Lemma commit_bounce_proper value pathLength pathLength' miW t samplePos acc :
  (pathLength == pathLength')%Q ->
  commit wr EBounce value pathLength miW t samplePos acc
  = commit wr EBounce value pathLength' miW t samplePos acc.
Proof.
  intros E. unfold commit, binGuard.
  cbn [EDecompositionType_eqb isSteady andb negb orb].
  rewrite (binIndex_proper _ _ _ _ E).
  rewrite (Qleb_comp _ _ (Qeq_refl (minBound wr)) _ _ E).
  rewrite (Qleb_comp _ _ E _ _ (Qeq_refl (maxBound wr))).
  reflexivity.
Qed.

Lemma commit_out_of_bounds cur value pathLength miW t samplePos acc :
  getModulationType wr = ENone ->
  cur <> ESteadyState ->
  ~ ((minBound wr <= pathLength)%Q /\ (pathLength <= maxBound wr)%Q) ->
  commit wr cur value pathLength miW t samplePos acc = acc.
Proof.
  intros Hm Hcur Hout.
  destruct (commit_unmodulated cur value pathLength miW t samplePos acc Hm Hcur)
    as [H|[Hin _]]; [exact H | contradiction].
Qed.

Lemma iteration_abort_msg (s t : Z) (acc : Accum) msg :
  iteration cfg wr emitterSubpath sensorSubpath pathLengthTarget isEmitterLaser
    initialSamplePos collab s t acc = Fatal msg ->
  msg = direct_ellipsoidal_msg.
Proof.
  unfold iteration. intros H.
  destruct (skipped wr isEmitterLaser s t); [discriminate|].
  destruct (vertices emitterSubpath !! Z.to_nat s) as [vs|]; [|discriminate].
  destruct (vertices sensorSubpath !! Z.to_nat t) as [vt|]; [|discriminate].
  destruct (endpoints _ _ _ _ _ s t vs vt (collab s t) (corrWeight acc)) eqn:E;
    try discriminate.
  inversion H; subst. now apply endpoints_abort_msg in E.
Qed.

Lemma run_abort_msg (pairs : list (Z * Z)) (acc : Accum) msg :
  run cfg wr emitterSubpath sensorSubpath pathLengthTarget isEmitterLaser
    initialSamplePos collab pairs acc = Fatal msg ->
  msg = direct_ellipsoidal_msg.
Proof.
  revert acc. induction pairs as [|[s t] pairs IH]; intros acc H; [discriminate|].
  cbn [run] in H.
  destruct (iteration _ _ _ _ _ _ _ _ s t acc) as [acc1|m] eqn:E; cbn [bind] in H.
  - now apply IH in H.
  - inversion H; subst. now apply iteration_abort_msg in E.
Qed.

(** Outside the elliptic mode no pair (s,t) aborts. *)
Lemma run_total (pairs : list (Z * Z)) (acc : Accum) :
  m_decompositionType wr <> ETransientEllipse ->
  exists acc', run cfg wr emitterSubpath sensorSubpath pathLengthTarget isEmitterLaser
                 initialSamplePos collab pairs acc = Ok acc'.
Proof.
  intros Hne. revert acc.
  induction pairs as [|[s t] pairs IH]; intros acc; [now exists acc|].
  cbn [run].
  destruct (iteration _ _ _ _ _ _ _ _ s t acc) as [acc1|m] eqn:E; cbn [bind]; [apply IH|].
  exfalso. unfold iteration in E.
  destruct (skipped wr isEmitterLaser s t); [discriminate|].
  destruct (vertices emitterSubpath !! Z.to_nat s) as [vs|]; [|discriminate].
  destruct (vertices sensorSubpath !! Z.to_nat t) as [vt|]; [|discriminate].
  pose proof (endpoints_stable cfg wr emitterSubpath sensorSubpath pathLengthTarget
                s t vs vt (collab s t) (corrWeight acc) (or_introl Hne)) as Hst.
  destruct (endpoints _ _ _ _ _ s t vs vt (collab s t) (corrWeight acc));
    try discriminate.
  contradiction.
Qed.

End CommitFacts.

(** ** The pool *)

Lemma iter_allocVertex (n : nat) (p : MemoryPool) :
  Nat.iter n allocVertex p = mkPool (n + liveVertices p) (liveEdges p).
Proof.
  induction n as [|n IH]; [now destruct p|].
  change (Nat.iter (S n) allocVertex p) with (allocVertex (Nat.iter n allocVertex p)).
  rewrite IH. reflexivity.
Qed.

Lemma iter_allocEdge (n : nat) (p : MemoryPool) :
  Nat.iter n allocEdge p = mkPool (liveVertices p) (n + liveEdges p).
Proof.
  induction n as [|n IH]; [now destruct p|].
  change (Nat.iter (S n) allocEdge p) with (allocEdge (Nat.iter n allocEdge p)).
  rewrite IH. reflexivity.
Qed.

Lemma iter_releaseVertex (n : nat) (p : MemoryPool) :
  Nat.iter n releaseVertex p = mkPool (liveVertices p - n) (liveEdges p).
Proof.
  induction n as [|n IH].
  - destruct p; cbn. now rewrite Nat.sub_0_r.
  - change (Nat.iter (S n) releaseVertex p) with (releaseVertex (Nat.iter n releaseVertex p)).
    rewrite IH. unfold releaseVertex. cbn [liveVertices liveEdges]. f_equal; lia.
Qed.

Lemma iter_releaseEdge (n : nat) (p : MemoryPool) :
  Nat.iter n releaseEdge p = mkPool (liveVertices p) (liveEdges p - n).
Proof.
  induction n as [|n IH].
  - destruct p; cbn. now rewrite Nat.sub_0_r.
  - change (Nat.iter (S n) releaseEdge p) with (releaseEdge (Nat.iter n releaseEdge p)).
    rewrite IH. unfold releaseEdge. cbn [liveVertices liveEdges]. f_equal; lia.
Qed.

Lemma Path_acquire_release (p : MemoryPool) (e s : Path) :
  Path_release (Path_release (Path_acquire (Path_acquire p e) s) e) s = p.
Proof.
  unfold Path_release, Path_acquire.
  rewrite !iter_allocVertex, !iter_allocEdge, !iter_releaseVertex, !iter_releaseEdge.
  cbn [liveVertices liveEdges]. destruct p as [v ed]. cbn [liveVertices liveEdges].
  f_equal; lia.
Qed.

Lemma evaluate_pool cfg wr eP sP target laser pos collab (p : MemoryPool) :
  match evaluate cfg wr eP sP target laser pos collab p with
  | Ok r => pool' r = p
  | Fatal msg => msg = direct_ellipsoidal_msg
  end.
Proof.
  unfold evaluate.
  destruct (run cfg wr eP sP target laser pos collab _ _) as [acc|msg] eqn:E; cbn [bind].
  - cbn [pool']. now destruct p.
  - now apply run_abort_msg in E.
Qed.

Lemma pixel_sample_pool cfg wr (ps : PixelSample) (p : MemoryPool) :
  match pixel_sample cfg wr ps p with
  | Ok p' => p' = p
  | Fatal msg => msg = direct_ellipsoidal_msg
  end.
Proof.
  unfold pixel_sample.
  pose proof (evaluate_pool cfg wr (ps_emitterSubpath ps) (ps_sensorSubpath ps)
                (ps_pathLengthTarget ps) (ps_isEmitterLaser ps) (ps_initialSamplePos ps)
                (ps_collab ps)
                (Path_acquire (Path_acquire p (ps_emitterSubpath ps)) (ps_sensorSubpath ps)))
    as Hev.
  destruct (evaluate _ _ _ _ _ _ _ _ _) as [r|msg]; cbn [bind]; [|exact Hev].
  rewrite Hev. apply Path_acquire_release.
Qed.

(** Outside the elliptic mode the sample loops run to the assertion, and
    the assertion holds. *)
Lemma process_samples_total cfg wr (samples : list PixelSample) :
  m_decompositionType wr <> ETransientEllipse ->
  process_samples cfg wr samples (mkPool 0 0) = Ok (mkPool 0 0).
Proof.
  intros Hne. induction samples as [|ps samples IH]; [reflexivity|].
  cbn [process_samples].
  pose proof (pixel_sample_pool cfg wr ps (mkPool 0 0)) as Hps.
  destruct (pixel_sample cfg wr ps (mkPool 0 0)) as [p1|msg] eqn:E; cbn [bind].
  - subst p1. exact IH.
  - exfalso. unfold pixel_sample, evaluate in E.
    destruct (run_total cfg wr (ps_emitterSubpath ps) (ps_sensorSubpath ps)
                (ps_pathLengthTarget ps) (ps_isEmitterLaser ps) (ps_initialSamplePos ps)
                (ps_collab ps)
                (connections cfg wr (ps_emitterSubpath ps) (ps_sensorSubpath ps))
                (initAccum wr) Hne) as [acc Hacc].
    rewrite Hacc in E. discriminate E.
Qed.

Lemma evaluate_exit_pool_cases cfg wr eP sP target laser pos collab (p : MemoryPool) :
  match evaluate cfg wr eP sP target laser pos collab p with
  | Ok r => evaluate_exit_pool cfg wr eP sP target laser pos collab p = p
  | Fatal msg =>
      evaluate_exit_pool cfg wr eP sP target laser pos collab p
      = mkPool (S (liveVertices p)) (S (S (liveEdges p)))
  end.
Proof.
  unfold evaluate, evaluate_exit_pool.
  destruct (run cfg wr eP sP target laser pos collab _ _) as [acc|msg]; cbn [bind].
  - now destruct p.
  - reflexivity.
Qed.

Lemma pixel_sample_exit_pool_cases cfg wr (ps : PixelSample) (p : MemoryPool) :
  match pixel_sample cfg wr ps p with
  | Ok p' => pixel_sample_exit_pool cfg wr ps p = p
  | Fatal msg => unused (pixel_sample_exit_pool cfg wr ps p) = false
  end.
Proof.
  unfold pixel_sample, pixel_sample_exit_pool.
  pose proof (evaluate_exit_pool_cases cfg wr (ps_emitterSubpath ps) (ps_sensorSubpath ps)
                (ps_pathLengthTarget ps) (ps_isEmitterLaser ps) (ps_initialSamplePos ps)
                (ps_collab ps)
                (Path_acquire (Path_acquire p (ps_emitterSubpath ps)) (ps_sensorSubpath ps)))
    as Hexit.
  destruct (evaluate cfg wr (ps_emitterSubpath ps) (ps_sensorSubpath ps)
              (ps_pathLengthTarget ps) (ps_isEmitterLaser ps) (ps_initialSamplePos ps)
              (ps_collab ps) _) as [r|msg]; cbn [bind].
  - rewrite Hexit. apply Path_acquire_release.
  - rewrite Hexit. reflexivity.
Qed.

(** C6. On every path on which it returns, [evaluate] gives back to the pool
    what it took, whatever the collaborators return and whichever branch each
    pair (s,t) takes; one pass of the sample loop that returns leaves the pool
    as it found it; and after any number of pixel samples, started with an
    empty pool, the assertion at the end of [process] holds. The only other
    way out is the fatal log entry of the direct ellipsoidal connection: on
    that path [evaluate] is left with its three scratch objects live, the
    sample loop with a pool that is in use, and the work unit ends. *)
Theorem pool_unused_at_sample_boundary (cfg : BDPTConfiguration) (wr : BDPTWorkResult) :
  (forall eP sP target laser pos collab (p : MemoryPool),
      match evaluate cfg wr eP sP target laser pos collab p with
      | Ok r =>
          pool' r = p /\ evaluate_exit_pool cfg wr eP sP target laser pos collab p = p
      | Fatal msg =>
          msg = direct_ellipsoidal_msg
          /\ evaluate_exit_pool cfg wr eP sP target laser pos collab p
             = allocVertex (allocEdge (allocEdge p))
      end)
  /\ (forall (ps : PixelSample) (p : MemoryPool),
         match pixel_sample cfg wr ps p with
         | Ok p' => p' = p /\ pixel_sample_exit_pool cfg wr ps p = p
         | Fatal msg =>
             msg = direct_ellipsoidal_msg
             /\ unused (pixel_sample_exit_pool cfg wr ps p) = false
         end)
  /\ (forall samples : list PixelSample,
         match process_samples cfg wr samples (mkPool 0 0) with
         | Ok p' => unused p' = true
         | Fatal msg => msg = direct_ellipsoidal_msg
         end).
Proof.
  split; [|split].
  - intros eP sP target laser pos collab p.
    pose proof (evaluate_pool cfg wr eP sP target laser pos collab p) as H1.
    pose proof (evaluate_exit_pool_cases cfg wr eP sP target laser pos collab p) as H2.
    destruct (evaluate cfg wr eP sP target laser pos collab p); split; assumption.
  - intros ps p.
    pose proof (pixel_sample_pool cfg wr ps p) as H1.
    pose proof (pixel_sample_exit_pool_cases cfg wr ps p) as H2.
    destruct (pixel_sample cfg wr ps p); split; assumption.
  - intros samples. induction samples as [|ps samples IH]; [reflexivity|].
    cbn [process_samples].
    pose proof (pixel_sample_pool cfg wr ps (mkPool 0 0)) as Hps.
    destruct (pixel_sample cfg wr ps (mkPool 0 0)) as [p1|msg]; cbn [bind]; [|exact Hps].
    subst p1. exact IH.
Qed.

(** C6, counterexample to the release on every control-flow path. Elliptic
    mode with direct sampling and the light image on, two subpaths of three
    vertices each, an empty pool before the pixel sample: the pair
    (s,t) = (2,1) logs the fatal entry, [evaluate] is left with one vertex
    and two edges of its own still live, and the pass of the sample loop with
    those and the six vertices and four edges of the two subpaths. *)
Lemma pool_in_use_on_fatal_path :
  let wr := Scene.workResult ETransientEllipse in
  let eP := Scene.twoEdgePath 2 in
  let sP := Scene.twoEdgePath 3 in
  let ps := mkPixelSample eP sP 8 false (0%Q, 0%Q) Scene.unitCollab in
  evaluate (Scene.config true true) wr eP sP 8 false (0%Q, 0%Q) Scene.unitCollab (mkPool 0 0)
  = Fatal direct_ellipsoidal_msg
  /\ evaluate_exit_pool (Scene.config true true) wr eP sP 8 false (0%Q, 0%Q)
       Scene.unitCollab (mkPool 0 0) = mkPool 1 2
  /\ pixel_sample_exit_pool (Scene.config true true) wr ps (mkPool 0 0) = mkPool 7 6
  /\ unused (pixel_sample_exit_pool (Scene.config true true) wr ps (mkPool 0 0)) = false.
Proof. repeat split; vm_compute; reflexivity. Qed.

(** ** Binning *)

(** C1. Without modulation and outside steady state, a candidate (s,t) that
    reaches the connection with path length [pathLength] either leaves the
    accumulators as they were, or [Min <= pathLength <= Max], the bin index
    [k = floor((pathLength - Min)/BinWidth)] satisfies [0 <= k < frames], and
    the contribution went to the three cells of bin [k]: of the pixel
    accumulator when [t >= 2], of the light sample when [t = 1]. A candidate
    whose path length is outside [Min, Max] changes nothing. *)
Theorem bin_commit_guard (cfg : BDPTConfiguration) (wr : BDPTWorkResult)
    (eP sP : Path) (target : Q) (pos : Point2) (s t : Z) (vs vt : PathVertex)
    (c : Collab) (corrW : Q) cur value pathLength cw sd (acc : Accum) :
  getModulationType wr = ENone ->
  m_decompositionType wr <> ESteadyState ->
  endpoints cfg wr eP sP target s t vs vt c corrW = Connect cur value pathLength cw sd ->
  let acc' := connect wr pos c cur value pathLength t acc in
  let k := binIndex (minBound wr) (binWidth wr) pathLength in
  let rgb := toLinearRGB (Spectrum_mul value (evalCached c)) in
  (acc' = acc
   \/ (((minBound wr <= pathLength)%Q /\ (pathLength <= maxBound wr)%Q)
       /\ 0 <= k < frames wr
       /\ exists samplePos,
           (2 <= t
            /\ acc' = set_sampleDecompositionValue acc
                        (addBin (sampleDecompositionValue acc) k rgb (miWeight c)))
           \/ (t = 1
               /\ acc' = set_l_sampleDecompositionValue
                           (putLightSample acc
                              (LightChannels samplePos
                                 (addBin (l_sampleDecompositionValue acc) k rgb (miWeight c))))
                           (resetBin (addBin (l_sampleDecompositionValue acc) k rgb
                                        (miWeight c)) k))))
  /\ (~ ((minBound wr <= pathLength)%Q /\ (pathLength <= maxBound wr)%Q) -> acc' = acc).
Proof.
  intros Hm Hns E acc' k rgb.
  pose proof (endpoints_stable cfg wr eP sP target s t vs vt c corrW (or_intror Hm)) as Hst.
  rewrite E in Hst. destruct Hst as [_ Hcur].
  assert (Hcs : cur <> ESteadyState).
  { destruct Hcur as [->|[_ ->]]; [exact Hns | discriminate]. }
  assert (Hmain : forall samplePos,
             let a := commit wr cur (Spectrum_mul value (evalCached c)) pathLength
                        (miWeight c) t samplePos acc in
             (a = acc
              \/ (((minBound wr <= pathLength)%Q /\ (pathLength <= maxBound wr)%Q)
                  /\ 0 <= k < frames wr
                  /\ exists samplePos,
                      (2 <= t
                       /\ a = set_sampleDecompositionValue acc
                                (addBin (sampleDecompositionValue acc) k rgb (miWeight c)))
                      \/ (t = 1
                          /\ a = set_l_sampleDecompositionValue
                                   (putLightSample acc
                                      (LightChannels samplePos
                                         (addBin (l_sampleDecompositionValue acc) k rgb
                                            (miWeight c))))
                                   (resetBin (addBin (l_sampleDecompositionValue acc) k rgb
                                                (miWeight c)) k))))
             /\ (~ ((minBound wr <= pathLength)%Q /\ (pathLength <= maxBound wr)%Q)
                 -> a = acc)).
  { intros samplePos a. subst a. split.
    - destruct (commit_unmodulated wr cur (Spectrum_mul value (evalCached c)) pathLength
                  (miWeight c) t samplePos acc Hm Hcs) as [H|(Hin & Hk & H)];
        [now left | right].
      split; [exact Hin|]. split; [exact Hk|]. exists samplePos. exact H.
    - intros Hout. now apply commit_out_of_bounds. }
  subst acc'. unfold connect.
  destruct (negb (isEllipse cur)); [|split; [now left | reflexivity]].
  destruct (isZero value || negb (pathConnectAndCollapse c));
    [split; [now left | reflexivity]|].
  destruct (isSensorSample c); [|apply Hmain].
  destruct (getSamplePosition c) as [samplePos|]; [apply Hmain|].
  split; [now left | reflexivity].
Qed.

Lemma bin_commit_guard_witness :
  let wr := Scene.workResult ETransient in
  let acc := initAccum wr in
  exists value pathLength,
    endpoints (Scene.config false false) wr (Scene.twoEdgePath 2) (Scene.twoEdgePath 3) 6
      2 2 Scene.surface Scene.surface (Scene.unitCollab 2 2) 1
    = Connect ETransient value pathLength 1 false
    /\ binIndex 0 2 pathLength = 3
    /\ (~ ((0 <= pathLength)%Q /\ (pathLength <= 8)%Q) ->
        connect wr (0%Q, 0%Q) (Scene.unitCollab 2 2) ETransient value pathLength 2 acc = acc).
Proof.
  intros wr acc. eexists. eexists.
  split; [vm_compute; reflexivity|]. split; [vm_compute; reflexivity|].
  apply (bin_commit_guard (Scene.config false false) wr (Scene.twoEdgePath 2)
           (Scene.twoEdgePath 3) 6 (0%Q, 0%Q) 2 2 Scene.surface Scene.surface
           (Scene.unitCollab 2 2) 1 ETransient _ _ 1 false acc).
  - reflexivity.
  - discriminate.
  - vm_compute. reflexivity.
Defined.

(** ** Bounce mode *)

Section BounceFacts.
Variable cfg : BDPTConfiguration.
Variable wr : BDPTWorkResult.
Variables eP sP : Path.
Variable target : Q.
Variable pos : Point2.
Hypothesis Hbounce : m_decompositionType wr = EBounce.

(** The endpoint part in bounce mode, branch by branch. *)
Lemma endpoints_bounce_cases (s t : Z) (vs vt : PathVertex) (c : Collab) (corrW : Q) :
  let imp := read_spectrum (importanceWeights eP) (Z.to_nat s) in
  let rad := read_spectrum (radianceWeights sP) (Z.to_nat t) in
  let eL := read (emitterPathlength wr eP) (Z.to_nat s) in
  let sL := read (sensorPathlength wr sP) (Z.to_nat t) in
  let direct := sampleDirect cfg && (((t =? 1) && (1 <? s)) || ((s =? 1) && (1 <? t))) in
  endpoints cfg wr eP sP target s t vs vt c corrW
  = if isSupernode vs || isSupernode vt then Continue corrW
    else if direct then
      if s =? 1 then
        if isDegenerate vt || isZero (Spectrum_mul rad (directValue c))
        then Continue corrW
        else Connect EBounce (Spectrum_mul (Spectrum_mul rad (directValue c)) (evalFacing c))
               (sL + 1) corrW true
      else
        if isDegenerate vs || isZero (Spectrum_mul imp (directValue c))
        then Continue corrW
        else Connect EBounce (Spectrum_mul (Spectrum_mul imp (directValue c)) (evalFacing c))
               (eL + 1) corrW true
    else
      if isDegenerate vs || isDegenerate vt then Continue corrW
      else Connect EBounce
             (Spectrum_mul (Spectrum_mul (Spectrum_mul imp rad) (evalVs c)) (evalVt c))
             (eL + sL + 1) corrW false.
Proof.
  intros imp rad eL sL direct. subst imp rad eL sL direct.
  unfold endpoints, chooseSampling. rewrite Hbounce.
  cbn [isSteady isEllipse isTransientKind negb directPathLength].
  rewrite !andb_false_r. cbn [andb].
  repeat match goal with
         | |- context [if ?b then _ else _] =>
             lazymatch b with
             | context [if _ then _ else _] => fail
             | _ => destruct b eqn:?
             end
         end; cbn [orb andb]; try reflexivity; try discriminate.
Qed.

Lemma connect_bounce_proper (c : Collab) value pathLength pathLength' (t : Z) (acc : Accum) :
  (pathLength == pathLength')%Q ->
  connect wr pos c EBounce value pathLength t acc
  = connect wr pos c EBounce value pathLength' t acc.
Proof.
  intros E. unfold connect. cbn [isEllipse negb].
  destruct (isZero value || negb (pathConnectAndCollapse c)); [reflexivity|].
  destruct (isSensorSample c).
  - destruct (getSamplePosition c); [|reflexivity]. now apply commit_bounce_proper.
  - now apply commit_bounce_proper.
Qed.

(** In bounce mode the last test of the commit (line 786) fails, so a commit
    is the update of one bin or nothing. *)
Lemma commit_bounce_bin value pathLength miW (t : Z) samplePos (acc : Accum) :
  let k := binIndex (minBound wr) (binWidth wr) pathLength in
  commit wr EBounce value pathLength miW t samplePos acc
  = if binGuard wr EBounce value pathLength then
      if 2 <=? t then
        set_sampleDecompositionValue acc
          (addBin (sampleDecompositionValue acc) k (toLinearRGB value) miW)
      else if t =? 1 then
        set_l_sampleDecompositionValue
          (putLightSample acc
             (LightChannels samplePos
                (addBin (l_sampleDecompositionValue acc) k (toLinearRGB value) miW)))
          (resetBin (addBin (l_sampleDecompositionValue acc) k (toLinearRGB value) miW) k)
      else acc
    else acc.
Proof.
  intros k. subst k. unfold commit. rewrite Hbounce.
  cbn [EDecompositionType_eqb isSteady andb negb orb]. reflexivity.
Qed.

End BounceFacts.

(** C7. In bounce mode, for a pair (s,t) with [s, t >= 1] inside the two
    subpaths: (1) the pair is worked off without a fatal error, and unless it
    is skipped or dropped before the connection (a supernode, a degenerate
    vertex, a zero direct-sampling value) it is handed to the connection with
    the value of its branch and the path length [s + t - 1], in the two
    direct-sampling branches as in the general one; (2) the connection leaves
    the accumulators as they were or commits at that length; (3) a commit at
    that length adds to the bin of [s + t - 1], and to no other cell. *)
Theorem bounce_connection_length (cfg : BDPTConfiguration) (wr : BDPTWorkResult)
    (eP sP : Path) (target : Q) (laser : bool) (pos : Point2)
    (collab : Z -> Z -> Collab) (s t : Z) (vs vt : PathVertex) (acc : Accum) :
  m_decompositionType wr = EBounce ->
  1 <= s -> 1 <= t ->
  vertices eP !! Z.to_nat s = Some vs ->
  vertices sP !! Z.to_nat t = Some vt ->
  let c := collab s t in
  let len := inject_Z (s + t - 1) in
  let k := binIndex (minBound wr) (binWidth wr) len in
  let imp := read_spectrum (importanceWeights eP) (Z.to_nat s) in
  let rad := read_spectrum (radianceWeights sP) (Z.to_nat t) in
  let direct := sampleDirect cfg && (((t =? 1) && (1 <? s)) || ((s =? 1) && (1 <? t))) in
  let dropped :=
    isSupernode vs || isSupernode vt
    || (if direct then
          if s =? 1 then isDegenerate vt || isZero (Spectrum_mul rad (directValue c))
          else isDegenerate vs || isZero (Spectrum_mul imp (directValue c))
        else isDegenerate vs || isDegenerate vt) in
  let value :=
    if direct then
      Spectrum_mul (Spectrum_mul (if s =? 1 then rad else imp) (directValue c)) (evalFacing c)
    else Spectrum_mul (Spectrum_mul (Spectrum_mul imp rad) (evalVs c)) (evalVt c) in
  iteration cfg wr eP sP target laser pos collab s t acc
  = Ok (if skipped wr laser s t || dropped then acc
        else connect wr pos c EBounce value len t acc)
  /\ (forall value',
        connect wr pos c EBounce value' len t acc = acc
        \/ exists samplePos,
             connect wr pos c EBounce value' len t acc
             = commit wr EBounce (Spectrum_mul value' (evalCached c)) len (miWeight c) t
                 samplePos acc)
  /\ (forall value' miW samplePos,
        commit wr EBounce value' len miW t samplePos acc
        = if binGuard wr EBounce value' len then
            if 2 <=? t then
              set_sampleDecompositionValue acc
                (addBin (sampleDecompositionValue acc) k (toLinearRGB value') miW)
            else if t =? 1 then
              set_l_sampleDecompositionValue
                (putLightSample acc
                   (LightChannels samplePos
                      (addBin (l_sampleDecompositionValue acc) k (toLinearRGB value') miW)))
                (resetBin (addBin (l_sampleDecompositionValue acc) k (toLinearRGB value') miW)
                   k)
            else acc
          else acc).
Proof.
  intros Hb Hs Ht Evs Evt c len k imp rad direct dropped value.
  split; [|split].
  - assert (HeL : (read (emitterPathlength wr eP) (Z.to_nat s) == inject_Z (s - 1))%Q).
    { unfold emitterPathlength. rewrite Hb. cbn [isSteady].
      rewrite (bounce_pathlengthArray wr Hb eP (Z.to_nat s)).
      - now rewrite Z2Nat.id by lia.
      - apply lookup_lt_Some in Evs. unfold vertexCount. lia. }
    assert (HsL : (read (sensorPathlength wr sP) (Z.to_nat t) == inject_Z (t - 1))%Q).
    { unfold sensorPathlength. rewrite Hb. cbn [isSteady].
      rewrite (bounce_pathlengthArray wr Hb sP (Z.to_nat t)).
      - now rewrite Z2Nat.id by lia.
      - apply lookup_lt_Some in Evt. unfold vertexCount. lia. }
    unfold iteration. rewrite Evs, Evt.
    destruct (skipped wr laser s t) eqn:Esk; [reflexivity|]. cbn [orb].
    rewrite (endpoints_bounce_cases cfg wr eP sP target Hb s t vs vt (collab s t)
               (corrWeight acc)).
    subst dropped value. fold c imp rad direct.
    destruct (isSupernode vs || isSupernode vt); cbn [orb];
      [now rewrite set_corrWeight_same|].
    destruct direct eqn:Edir.
    + destruct (s =? 1) eqn:Es1.
      * destruct (isDegenerate vt || isZero (Spectrum_mul rad (directValue c)));
          rewrite set_corrWeight_same; [reflexivity|].
        f_equal. apply connect_bounce_proper.
        apply Z.eqb_eq in Es1. subst s. rewrite HsL, <- (inject_Z_plus _ 1).
        subst len. now replace (t - 1 + 1) with (1 + t - 1) by lia.
      * destruct (isDegenerate vs || isZero (Spectrum_mul imp (directValue c)));
          rewrite set_corrWeight_same; [reflexivity|].
        f_equal. apply connect_bounce_proper.
        assert (t = 1).
        { subst direct. apply andb_true_iff in Edir as [_ Edir].
          apply orb_true_iff in Edir as [Edir|Edir];
            apply andb_true_iff in Edir as [E1 E2].
          - now apply Z.eqb_eq in E1.
          - congruence. }
        subst t. rewrite HeL, <- (inject_Z_plus _ 1).
        subst len. now replace (s - 1 + 1) with (s + 1 - 1) by lia.
    + destruct (isDegenerate vs || isDegenerate vt);
        rewrite set_corrWeight_same; [reflexivity|].
      f_equal. apply connect_bounce_proper.
      rewrite HeL, HsL, <- inject_Z_plus, <- (inject_Z_plus _ 1).
      subst len. now replace (s - 1 + (t - 1) + 1) with (s + t - 1) by lia.
  - intros value'. unfold connect. cbn [isEllipse negb].
    destruct (isZero value' || negb (pathConnectAndCollapse c)); [now left|].
    destruct (isSensorSample c).
    + destruct (getSamplePosition c) as [samplePos|]; [|now left].
      right. now exists samplePos.
    + right. now exists pos.
  - intros value' miW samplePos. now apply commit_bounce_bin.
Qed.

(** The pair (2,2) of two subpaths of three vertices, no direct sampling:
    the length is 3, the bin of 3 with bounds [0, 8] and bins of width 2 is
    bin 1, and the three cells of bin 1 of the pixel accumulator receive the
    contribution. *)
Lemma bounce_connection_length_witness :
  let wr := Scene.workResult EBounce in
  let acc := initAccum wr in
  binIndex 0 2 (inject_Z (2 + 2 - 1)) = 1
  /\ exists acc',
       iteration (Scene.config false true) wr (Scene.twoEdgePath 2) (Scene.twoEdgePath 3) 6
         false (0%Q, 0%Q) Scene.unitCollab 2 2 acc = Ok acc'
       /\ acc' = connect wr (0%Q, 0%Q) (Scene.unitCollab 2 2) EBounce Scene.white
                   (inject_Z (2 + 2 - 1)) 2 acc
       /\ map Qred (sampleDecompositionValue acc')
          = [0; 0; 0; 1 # 2; 1 # 2; 1 # 2; 0; 0; 0; 0; 0; 0; 0; 0]%Q.
Proof.
  intros wr acc. split; [vm_compute; reflexivity|].
  assert (H1 : 1 <= 2) by lia.
  destruct (bounce_connection_length (Scene.config false true) wr
              (Scene.twoEdgePath 2) (Scene.twoEdgePath 3) 6 false (0%Q, 0%Q)
              Scene.unitCollab 2 2 Scene.surface Scene.surface acc
              eq_refl H1 H1 eq_refl eq_refl) as (Hit & _ & _).
  eexists. split; [exact Hit|]. split; vm_compute; reflexivity.
Defined.

(** ** Direct ellipsoidal connections *)

(** C5. Elliptic mode with direct sampling on, two subpaths of three vertices
    each. For (s,t) = (1,2) the endpoint part calls the ellipsoidal sampler and
    hands on a candidate that is still of the elliptic kind; the pair ends
    without a fatal error, and so does the whole of [evaluate] when the light
    image is off (so that no pair has t = 1). For (s,t) = (2,1) the same
    request is fatal. *)
Theorem direct_ellipsoidal_only_fatal_at_t1 :
  let wr := Scene.workResult ETransientEllipse in
  let eP := Scene.twoEdgePath 2 in
  let sP := Scene.twoEdgePath 3 in
  let acc := initAccum wr in
  (exists value pathLength,
      endpoints (Scene.config true true) wr eP sP 8 1 2 Scene.surface Scene.surface
        (Scene.unitCollab 1 2) 1
      = Connect ETransientEllipse value pathLength 1 true)
  /\ iteration (Scene.config true true) wr eP sP 8 false (0%Q, 0%Q) Scene.unitCollab 1 2 acc
     = Ok acc
  /\ (exists r, evaluate (Scene.config true false) wr eP sP 8 false (0%Q, 0%Q)
                  Scene.unitCollab (mkPool 0 0) = Ok r)
  /\ iteration (Scene.config true true) wr eP sP 8 false (0%Q, 0%Q) Scene.unitCollab 2 1 acc
     = Fatal direct_ellipsoidal_msg.
Proof.
  intros wr eP sP acc. split; [|split; [|split]].
  - eexists. eexists. vm_compute. reflexivity.
  - vm_compute. reflexivity.
  - eexists. vm_compute. reflexivity.
  - vm_compute. reflexivity.
Qed.

(** ** Film serialization *)

Section FilmFacts.
Import FilmIO.
Variables FloatT Base RFilter PLSampler : Type.
Variable cBase : Codec Base.
Variable cInt : Codec Z.
Variable cBool : Codec bool.
Variable cUInt : Codec Z.
Variable cFloat : Codec FloatT.
Variable cSize : Codec Z.
Variable cFilter : Codec RFilter.
Variable cSampler : Codec PLSampler.

Lemma get2i_put2i (v : Z * Z) (rest : bytes) :
  inverts cInt -> valid cInt (fst v) -> valid cInt (snd v) ->
  get2i cInt (put2i cInt v ++ rest) = Some (v, rest).
Proof.
  intros Hinv Hx Hy. unfold get2i, put2i.
  rewrite <- app_assoc, (Hinv _ _ Hx). cbn.
  rewrite (Hinv _ _ Hy). cbn. now destruct v.
Qed.

Lemma unserialize_serialize (f raw : Film FloatT Base RFilter PLSampler) (rest : bytes) :
  inverts cBase -> inverts cInt -> inverts cBool -> inverts cUInt ->
  inverts cFloat -> inverts cSize -> inverts cFilter -> inverts cSampler ->
  wellFormed cBase cInt cBool cUInt cFloat cSize cFilter cSampler f ->
  unserialize cBase cInt cBool cUInt cFloat cSize cFilter cSampler raw
    (serialize cBase cInt cBool cUInt cFloat cSize cFilter cSampler f ++ rest)
  = Some (mkFilm
            (base f) (m_size f) (m_cropOffset f) (m_cropSize f) (m_highQualityEdges f)
            (FilmIO.m_decompositionType f) (FilmIO.m_combineBDPTAndElliptic f)
            (FilmIO.m_decompositionMinBound f) (FilmIO.m_decompositionMaxBound f)
            (FilmIO.m_decompositionBinWidth f) (FilmIO.m_frames f) (m_subSamples f)
            (FilmIO.m_forceBounces f) (FilmIO.m_sBounces f) (FilmIO.m_tBounces f)
            (m_filter f) (m_pathLengthSampler f)
            (FilmIO.m_isldSampling raw) (FilmIO.m_isAdaptive raw)
            (FilmIO.m_adapMaxError raw) (m_adapPValue raw)
            (FilmIO.m_adapQuantile raw) (FilmIO.m_adapMaxSampleFactor raw),
          rest).
Proof.
  intros HBase HInt HBool HUInt HFloat HSize HFilter HSampler Hwf.
  destruct Hwf as (Hb & [Hs1 Hs2] & [Ho1 Ho2] & [Hc1 Hc2] & Hhq & Hdt & Hcb & Hmin & Hmax
                   & Hbw & Hfr & Hss & Hfb & Hsb & Htb & Hfl & Hsm).
  unfold serialize, unserialize.
  repeat rewrite <- app_assoc.
  rewrite (HBase _ _ Hb). cbn [mbind option_bind].
  do 3 (rewrite get2i_put2i by assumption; cbn [mbind option_bind]).
  rewrite (HBool _ _ Hhq). cbn [mbind option_bind].
  rewrite (HUInt _ _ Hdt). cbn [mbind option_bind].
  rewrite (HBool _ _ Hcb). cbn [mbind option_bind].
  rewrite (HFloat _ _ Hmin). cbn [mbind option_bind].
  rewrite (HFloat _ _ Hmax). cbn [mbind option_bind].
  rewrite (HFloat _ _ Hbw). cbn [mbind option_bind].
  rewrite (HSize _ _ Hfr). cbn [mbind option_bind].
  rewrite (HSize _ _ Hss). cbn [mbind option_bind].
  rewrite (HBool _ _ Hfb). cbn [mbind option_bind].
  rewrite (HUInt _ _ Hsb). cbn [mbind option_bind].
  rewrite (HUInt _ _ Htb). cbn [mbind option_bind].
  rewrite (HFilter _ _ Hfl). cbn [mbind option_bind].
  rewrite (HSampler _ _ Hsm). cbn [mbind option_bind].
  reflexivity.
Qed.

End FilmFacts.

Section ConcreteStream.
Import FilmIO.

Lemma Z_of_byte_of_Z (z : Z) : Z_of_byte (byte_of_Z z) = z mod 256.
Proof.
  unfold Z_of_byte, byte_of_Z.
  assert (Hr : 0 <= z mod 256 < 256) by (apply Z.mod_pos_bound; lia).
  destruct (Byte.of_N (Z.to_N (z mod 256))) as [b|] eqn:E; cbn [default from_option id].
  - apply Byte.to_of_N in E. rewrite E. apply Z2N.id. lia.
  - apply Byte.of_N_None_iff in E. lia.
Qed.

Lemma pow256_shift (n : nat) : 2 ^ (8 * Z.of_nat n) = 256 ^ Z.of_nat n.
Proof. rewrite Z.pow_mul_r by lia. reflexivity. Qed.

Lemma be_get_put (n : nat) (acc z : Z) (rest : bytes) :
  be_get n acc (be_put n z ++ rest)
  = Some (acc * 256 ^ Z.of_nat n + z mod 256 ^ Z.of_nat n, rest).
Proof.
  revert acc. induction n as [|n IH]; intros acc.
  - cbn. rewrite Z.mod_1_r. do 2 f_equal. lia.
  - cbn [be_put be_get app]. rewrite IH, Z_of_byte_of_Z.
    rewrite Z.shiftr_div_pow2 by lia. rewrite pow256_shift.
    rewrite Nat2Z.inj_succ, Z.pow_succ_r by lia.
    assert (Hp : 0 < 256 ^ Z.of_nat n) by (apply Z.pow_pos_nonneg; lia).
    rewrite (Z.mul_comm 256 (256 ^ Z.of_nat n)).
    rewrite (Z.rem_mul_r z (256 ^ Z.of_nat n) 256) by lia.
    do 2 f_equal. ring.
Qed.

Lemma unsignedCodec_inverts (n : nat) : inverts (unsignedCodec n).
Proof.
  intros z rest Hz. cbn in *. rewrite be_get_put.
  rewrite Z.mod_small by lia. do 2 f_equal.
Qed.

Lemma signedCodec_inverts (n : nat) : (1 <= n)%nat -> inverts (signedCodec n).
Proof.
  intros Hn z rest Hz. cbn in *. rewrite be_get_put. cbn [mbind option_bind].
  assert (Heven : 256 ^ Z.of_nat n = 2 * (256 ^ Z.of_nat n / 2)).
  { destruct n as [|n]; [lia|].
    rewrite Nat2Z.inj_succ, Z.pow_succ_r by lia.
    replace (256 * 256 ^ Z.of_nat n) with ((128 * 256 ^ Z.of_nat n) * 2) by ring.
    rewrite Z.div_mul by lia. ring. }
  set (m := 256 ^ Z.of_nat n) in *. set (half := m / 2) in *.
  rewrite Z.add_0_l.
  destruct (Z.leb_spec half (z mod m)) as [Hge|Hlt].
  - do 2 f_equal.
    destruct (Z.lt_ge_cases z 0) as [Hneg|Hpos].
    + rewrite <- (Z.mod_add z 1 m) by lia. rewrite Z.mod_small; lia.
    + rewrite Z.mod_small in Hge by lia. lia.
  - do 2 f_equal.
    destruct (Z.lt_ge_cases z 0) as [Hneg|Hpos].
    + rewrite <- (Z.mod_add z 1 m) in Hlt by lia. rewrite Z.mod_small in Hlt; lia.
    + apply Z.mod_small. lia.
Qed.

Lemma boolCodec_inverts : inverts boolCodec.
Proof. intros [|] rest _; reflexivity. Qed.

Lemma unitCodec_inverts : inverts unitCodec.
Proof. intros [] rest _. reflexivity. Qed.

End ConcreteStream.

(** C9. Over any stream whose read primitives undo its write primitives: the
    stream constructor applied to the bytes that [serialize] wrote consumes
    exactly those bytes, recovers every serialized member (size, crop offset
    and size, highQualityEdges, decomposition type, combineBDPTAndElliptic,
    min/max bound, bin width, frames, subSamples, forceBounces, sBounces,
    tBounces, filter, path-length sampler), and serializing the result gives
    the same bytes again; the members that the constructor leaves unassigned
    do not enter. *)
Theorem Film_serialize_roundtrip (FloatT Base RFilter PLSampler : Type)
    (cBase : FilmIO.Codec Base) (cInt : FilmIO.Codec Z) (cBool : FilmIO.Codec bool)
    (cUInt : FilmIO.Codec Z) (cFloat : FilmIO.Codec FloatT) (cSize : FilmIO.Codec Z)
    (cFilter : FilmIO.Codec RFilter) (cSampler : FilmIO.Codec PLSampler)
    (f raw : FilmIO.Film FloatT Base RFilter PLSampler) :
  FilmIO.inverts cBase -> FilmIO.inverts cInt -> FilmIO.inverts cBool ->
  FilmIO.inverts cUInt -> FilmIO.inverts cFloat -> FilmIO.inverts cSize ->
  FilmIO.inverts cFilter -> FilmIO.inverts cSampler ->
  FilmIO.wellFormed cBase cInt cBool cUInt cFloat cSize cFilter cSampler f ->
  exists f',
    FilmIO.unserialize cBase cInt cBool cUInt cFloat cSize cFilter cSampler raw
      (FilmIO.serialize cBase cInt cBool cUInt cFloat cSize cFilter cSampler f)
    = Some (f', [])
    /\ FilmIO.serialize cBase cInt cBool cUInt cFloat cSize cFilter cSampler f'
       = FilmIO.serialize cBase cInt cBool cUInt cFloat cSize cFilter cSampler f
    /\ FilmIO.sameSerialized f' f.
Proof.
  intros HBase HInt HBool HUInt HFloat HSize HFilter HSampler Hwf.
  pose proof (unserialize_serialize FloatT Base RFilter PLSampler cBase cInt cBool cUInt
                cFloat cSize cFilter cSampler f raw []
                HBase HInt HBool HUInt HFloat HSize HFilter HSampler Hwf) as H.
  rewrite app_nil_r in H.
  eexists. split; [exact H|]. split; [reflexivity|].
  unfold FilmIO.sameSerialized. cbn. repeat split.
Qed.

Lemma Film_serialize_roundtrip_witness :
  let ser := FilmIO.serialize FilmIO.unitCodec (FilmIO.signedCodec 4) FilmIO.boolCodec
               (FilmIO.unsignedCodec 4) (FilmIO.unsignedCodec 4) (FilmIO.unsignedCodec 8)
               (FilmIO.unsignedCodec 4) (FilmIO.unsignedCodec 4) in
  exists f',
    FilmIO.unserialize FilmIO.unitCodec (FilmIO.signedCodec 4) FilmIO.boolCodec
      (FilmIO.unsignedCodec 4) (FilmIO.unsignedCodec 4) (FilmIO.unsignedCodec 8)
      (FilmIO.unsignedCodec 4) (FilmIO.unsignedCodec 4) FilmIO.rawFilm
      (ser FilmIO.sampleFilm) = Some (f', [])
    /\ ser f' = ser FilmIO.sampleFilm.
Proof.
  intros ser.
  assert (Hwf : FilmIO.wellFormed FilmIO.unitCodec (FilmIO.signedCodec 4) FilmIO.boolCodec
                  (FilmIO.unsignedCodec 4) (FilmIO.unsignedCodec 4) (FilmIO.unsignedCodec 8)
                  (FilmIO.unsignedCodec 4) (FilmIO.unsignedCodec 4) FilmIO.sampleFilm).
  { unfold FilmIO.wellFormed. cbn. repeat split; try lia; discriminate. }
  destruct (Film_serialize_roundtrip Z unit Z Z
              FilmIO.unitCodec (FilmIO.signedCodec 4) FilmIO.boolCodec
              (FilmIO.unsignedCodec 4) (FilmIO.unsignedCodec 4) (FilmIO.unsignedCodec 8)
              (FilmIO.unsignedCodec 4) (FilmIO.unsignedCodec 4)
              FilmIO.sampleFilm FilmIO.rawFilm
              unitCodec_inverts (signedCodec_inverts 4 ltac:(lia)) boolCodec_inverts
              (unsignedCodec_inverts 4) (unsignedCodec_inverts 4) (unsignedCodec_inverts 8)
              (unsignedCodec_inverts 4) (unsignedCodec_inverts 4) Hwf)
    as (f' & Hread & Hser & _).
  exists f'. split; [exact Hread | exact Hser].
Defined.

(* ------------------------------------------------------------------ *)
(** * Further properties of the code *)
(* ------------------------------------------------------------------ *)

(** ** The film constructor *)

Section FilmCtorFacts.
Import FilmCtor.
Variable quantile : Q -> Result Q.
Variable newPathLengthSampler : FilmProperties -> Result PathLengthSampler.

Lemma to_int_small (z : Z) : - 2 ^ 31 <= z < 2 ^ 31 -> to_int z = z.
Proof. intros H. unfold to_int. rewrite Z.mod_small; lia. Qed.

Lemma to_int_le (z : Z) : 0 <= z -> to_int z <= z.
Proof.
  intros H. unfold to_int.
  pose proof (Z.mod_le (z + 2 ^ 31) (2 ^ 32)). lia.
Qed.

Lemma to_int_inside (o c s : Z) :
  0 <= o -> 0 < c -> to_int (o + c) <= s -> o + c < 2 ^ 31 -> o + c <= s.
Proof. intros Ho Hc Hs Hno. rewrite to_int_small in Hs; lia. Qed.

Lemma cropInvalid_false (size cropOffset cropSize : Z * Z) :
  cropInvalid size cropOffset cropSize = false
  <-> 0 <= fst cropOffset /\ 0 <= snd cropOffset
      /\ 0 < fst cropSize /\ 0 < snd cropSize
      /\ to_int (fst cropOffset + fst cropSize) <= fst size
      /\ to_int (snd cropOffset + snd cropSize) <= snd size.
Proof.
  unfold cropInvalid. rewrite !orb_false_iff, !Z.ltb_ge, !Z.leb_gt. tauto.
Qed.

Lemma Film_of_Properties_validFilm (props : FilmProperties) (f : Film) :
  Film_of_Properties quantile newPathLengthSampler props = Ok f -> validFilm f.
Proof.
  unfold Film_of_Properties. intros H.
  destruct (cropInvalid _ _ _) eqn:Ecrop; [discriminate|].
  apply cropInvalid_false in Ecrop.
  destruct (parse_decomposition _) as [d|]; [|discriminate].
  destruct (default false (p_combinesamplings props) && negb (isEllipse d)) eqn:Ecomb;
    [discriminate|].
  destruct (default false (p_adapSampling props) && default false (p_ldSampling props))
    eqn:Eboth; [discriminate|].
  destruct (quantile _) as [q|]; [|discriminate]. cbn [bind] in H.
  destruct (newPathLengthSampler props) as [smp|]; [|discriminate]. cbn [bind] in H.
  destruct ((default false (p_ldSampling props) || default false (p_adapSampling props))
            && (negb (isEllipse d) || isModulated (modulationType smp))) eqn:Eld;
    [discriminate|].
  inversion H; subst; clear H. unfold validFilm.
  cbn [FilmCtor.m_cropOffset FilmCtor.m_cropSize FilmCtor.m_size
       FilmCtor.m_combineBDPTAndElliptic FilmCtor.m_decompositionType
       FilmCtor.m_isAdaptive FilmCtor.m_isldSampling FilmCtor.m_pathLengthSampler
       FilmCtor.m_frames FilmCtor.m_filter].
  split.
  { destruct Ecrop as (H1 & H2 & H3 & H4 & H5 & H6).
    repeat (split; [assumption|]). split.
    - now apply to_int_inside.
    - now apply to_int_inside. }
  split.
  { intros Hc. rewrite Hc in Ecomb. cbn in Ecomb.
    apply negb_false_iff in Ecomb. now destruct d. }
  split.
  { intros [Ha Hl]. rewrite Ha, Hl in Eboth. discriminate. }
  split.
  { intros Hor.
    assert (Hon : default false (p_ldSampling props) || default false (p_adapSampling props)
                  = true) by (destruct Hor as [->| ->]; [reflexivity | apply orb_true_r]).
    rewrite Hon in Eld. cbn in Eld. apply orb_false_iff in Eld as [He Hm].
    apply negb_false_iff in He. split; [now destruct d|].
    destruct smp as [[|]]; [reflexivity | discriminate]. }
  split.
  { intros smp' E Hs. inversion E; subst. now rewrite Hs. }
  split; [eexists; reflexivity | reflexivity].
Qed.

End FilmCtorFacts.



(** The [int] sum at work: with [cropOffsetX = 2^31 - 1] and [cropWidth = 1]
    the sum wraps to [-2^31], the check of line 47 passes, and the constructor
    returns a film whose crop window starts far outside it. *)
Example crop_sum_overflow_is_accepted :
  let props := FilmCtor.mkProps "hdrfilm" (Some 640) (Some 480) (Some 2147483647) None
                 (Some 1) None None None None None None None None None None None None None
                 None None None in
  exists f,
    FilmCtor.Film_of_Properties (fun _ => Ok 2%Q) (fun _ => Ok (FilmCtor.mkSampler ENone)) props
    = Ok f
    /\ FilmCtor.m_cropOffset f = (2147483647, 0) /\ FilmCtor.m_size f = (640, 480).
Proof. intros props. eexists. split; [vm_compute; reflexivity|]. split; reflexivity. Qed.

(** X2. Missing keys. When the scene description sets no crop key, no
    decomposition and none of the sampling switches, and the width and height
    it sets (if any) are positive, the constructor succeeds as soon as its two
    library calls do: the crop window is the whole film, the film is steady
    and has one frame. *)
Theorem Film_constructor_defaults
    (quantile : Q -> Result Q)
    (newPathLengthSampler : FilmCtor.FilmProperties -> Result FilmCtor.PathLengthSampler)
    (props : FilmCtor.FilmProperties) (q : Q) (smp : FilmCtor.PathLengthSampler) :
  FilmCtor.p_cropOffsetX props = None -> FilmCtor.p_cropOffsetY props = None ->
  FilmCtor.p_cropWidth props = None -> FilmCtor.p_cropHeight props = None ->
  FilmCtor.p_decomposition props = None ->
  FilmCtor.p_combinesamplings props = None ->
  FilmCtor.p_ldSampling props = None -> FilmCtor.p_adapSampling props = None ->
  (forall w, FilmCtor.p_width props = Some w -> 0 < w) ->
  (forall h, FilmCtor.p_height props = Some h -> 0 < h) ->
  quantile (1 - default (1 # 20) (FilmCtor.p_adapPValue props) / 2)%Q = Ok q ->
  newPathLengthSampler props = Ok smp ->
  exists f,
    FilmCtor.Film_of_Properties quantile newPathLengthSampler props = Ok f
    /\ FilmCtor.m_cropOffset f = (0, 0)
    /\ FilmCtor.m_cropSize f = FilmCtor.m_size f
    /\ FilmCtor.m_decompositionType f = ESteadyState
    /\ FilmCtor.m_frames f = 1.
Proof.
  intros Hox Hoy Hcw Hch Hd Hc Hl Ha Hw Hh Hq Hs.
  unfold FilmCtor.Film_of_Properties.
  rewrite Hox, Hoy, Hcw, Hch, Hd, Hc, Hl, Ha. cbn [default from_option id fst snd].
  set (mf := String.eqb (FilmCtor.to_lower_copy (FilmCtor.pluginName props)) "mfilm").
  set (w := default (if mf then 1 else 768) (FilmCtor.p_width props)).
  set (h := default (if mf then 1 else 576) (FilmCtor.p_height props)).
  assert (Hwpos : 0 < w).
  { subst w. destruct (FilmCtor.p_width props) as [w0|]; cbn; [now apply Hw|].
    destruct mf; lia. }
  assert (Hhpos : 0 < h).
  { subst h. destruct (FilmCtor.p_height props) as [h0|]; cbn; [now apply Hh|].
    destruct mf; lia. }
  assert (Ecrop : FilmCtor.cropInvalid (w, h) (0, 0) (w, h) = false).
  { apply cropInvalid_false. cbn [fst snd]. rewrite !Z.add_0_l.
    pose proof (to_int_le w). pose proof (to_int_le h). lia. }
  rewrite Ecrop.
  change (FilmCtor.parse_decomposition (FilmCtor.to_lower_copy "none"))
    with (Some ESteadyState).
  cbn [andb orb isEllipse negb].
  rewrite Hq, Hs. cbn [bind FilmCtor.singleFrame isSteady orb andb].
  eexists. split; [reflexivity|]. cbn. repeat split.
Qed.

Lemma Film_constructor_defaults_witness :
  let props := FilmCtor.mkProps "mfilm" None (Some 4) None None None None
                 None None None None None None None None None None None None None None None in
  exists f,
    FilmCtor.Film_of_Properties (fun _ => Ok 2%Q) (fun _ => Ok (FilmCtor.mkSampler ENone)) props
    = Ok f
    /\ FilmCtor.m_cropSize f = (1, 4).
Proof.
  intros props.
  destruct (Film_constructor_defaults
              (fun _ => Ok 2%Q) (fun _ => Ok (FilmCtor.mkSampler ENone)) props
              2%Q (FilmCtor.mkSampler ENone)
              eq_refl eq_refl eq_refl eq_refl eq_refl eq_refl eq_refl eq_refl)
    as (f & Hf & _ & Hcs & _).
  - intros w Hw. discriminate Hw.
  - intros h Hh. inversion Hh. lia.
  - reflexivity.
  - reflexivity.
  - exists f. split; [exact Hf|]. rewrite Hcs.
    vm_compute in Hf. inversion Hf. reflexivity.
Defined.

(** ** Quotients *)

Lemma Qdiv_nonneg (a w : Q) : (0 <= a)%Q -> (0 < w)%Q -> (0 <= a / w)%Q.
Proof.
  intros Ha Hw. unfold Qdiv. apply Qmult_le_0_compat; [exact Ha|].
  apply Qlt_le_weak. now apply Qinv_lt_0_compat.
Qed.

(** ** Frames and bins *)

Lemma Qceiling_whole (n : Z) (x : Q) : (x == inject_Z n)%Q -> Qceiling x = n.
Proof. intros E. rewrite (Qceiling_comp _ _ E). apply Qceiling_Z. Qed.

Lemma Qfloor_whole (n : Z) (x : Q) : (x == inject_Z n)%Q -> Qfloor x = n.
Proof. intros E. rewrite (Qfloor_comp _ _ E). apply Qfloor_Z. Qed.

(** X4. The upper bound itself falls outside whenever the single-precision
    quotient (maxBound - minBound) / binWidth, as the constructor computes it,
    is a whole number n: the frame count is n, a path of length exactly
    maxBound has bin index n, and the guard before the bins rejects it
    although its range test accepts maxBound. *)
Theorem maxBound_is_dropped_on_whole_bins
    (wr : BDPTWorkResult) (cur : EDecompositionType) (value : Spectrum) (n : Z) :
  0 <= n < size_t_max ->
  (F32.div (F32.sub (maxBound wr) (minBound wr)) (binWidth wr) == inject_Z n)%Q ->
  (minBound wr <= maxBound wr)%Q ->
  frames wr = FilmCtor.ceilFrames (minBound wr) (maxBound wr) (binWidth wr) ->
  frames wr = n
  /\ binIndex (minBound wr) (binWidth wr) (maxBound wr) = n
  /\ Qle_bool (minBound wr) (maxBound wr) && Qle_bool (maxBound wr) (maxBound wr) = true
  /\ binGuard wr cur value (maxBound wr) = false.
Proof.
  intros Hn Hq Hle Hfr.
  assert (Hf : frames wr = n).
  { rewrite Hfr. unfold FilmCtor.ceilFrames.
    rewrite (Qceiling_whole n _ Hq). now apply to_size_t_small. }
  assert (Hb : binIndex (minBound wr) (binWidth wr) (maxBound wr) = n).
  { unfold binIndex. rewrite (Qfloor_whole n _ Hq). now apply to_size_t_small. }
  split; [exact Hf|]. split; [exact Hb|]. split.
  - apply andb_true_iff. split; apply Qle_bool_iff; [exact Hle | apply Qle_refl].
  - unfold binGuard. rewrite Hb, Hf, Z.ltb_irrefl. apply andb_false_r.
Qed.

Lemma maxBound_is_dropped_on_whole_bins_witness :
  FilmCtor.ceilFrames 0 8 2 = 4
  /\ binGuard (Scene.workResult ETransient) ETransient Scene.white 8 = false.
Proof.
  split; [reflexivity|].
  apply (maxBound_is_dropped_on_whole_bins (Scene.workResult ETransient) ETransient
           Scene.white 4).
  - split; [discriminate | reflexivity].
  - reflexivity.
  - discriminate.
  - reflexivity.
Defined.

(** ** Children of the film *)

Lemma addChildren_full_film (f : FilmCtor.Film) (children : list FilmCtor.Child) :
  is_Some (FilmCtor.m_filter f) -> is_Some (FilmCtor.m_pathLengthSampler f) ->
  children <> [] ->
  exists msg, FilmCtor.addChildren f children = Fatal msg.
Proof.
  intros [p Hp] [s Hs] Hne. destruct children as [|c rest]; [congruence|].
  cbn [FilmCtor.addChildren]. unfold FilmCtor.addChild, bind.
  destruct c; rewrite ?Hp, ?Hs; eexists; reflexivity.
Qed.

(** X5. A film built by the Properties constructor accepts its children
    exactly when there is none or the only one is a reconstruction filter: a
    path-length sampler child always meets the sampler that the constructor
    made, a second filter meets the first, and any other child is rejected.
    After configure the filter is that child, or the Gaussian filter when
    there was none. *)
Theorem Film_children_accepted_iff
    (quantile : Q -> Result Q)
    (newPathLengthSampler : FilmCtor.FilmProperties -> Result FilmCtor.PathLengthSampler)
    (props : FilmCtor.FilmProperties) (f : FilmCtor.Film)
    (children : list FilmCtor.Child) :
  FilmCtor.Film_of_Properties quantile newPathLengthSampler props = Ok f ->
  ((exists f', FilmCtor.addChildren f children = Ok f')
   <-> children = [] \/ exists plugin, children = [FilmCtor.FilterChild plugin])
  /\ (forall f', FilmCtor.addChildren f children = Ok f' ->
        FilmCtor.m_filter (FilmCtor.configure f')
        = Some (match children with
                | FilmCtor.FilterChild plugin :: _ => plugin
                | _ => "gaussian"%string
                end)).
Proof.
  intros Hf. apply Film_of_Properties_validFilm in Hf.
  destruct Hf as (_ & _ & _ & _ & _ & [smp Hsmp] & Hfilter).
  destruct children as [|c rest].
  - split.
    + split; [intros _; now left | intros _; eexists; reflexivity].
    + intros f' E. inversion E; subst. unfold FilmCtor.configure.
      rewrite Hfilter. reflexivity.
  - assert (Hrest : forall plugin, rest <> [] ->
              exists msg, FilmCtor.addChildren (FilmCtor.set_filter f (Some plugin)) rest
                          = Fatal msg).
    { intros plugin Hne. apply addChildren_full_film; [| |exact Hne].
      - eexists; reflexivity.
      - exists smp. exact Hsmp. }
    cbn [FilmCtor.addChildren]. unfold FilmCtor.addChild.
    destruct c as [plugin|s|cn]; rewrite ?Hfilter, ?Hsmp; cbn [bind].
    + split.
      * split.
        -- intros [f' E]. right. exists plugin. f_equal.
           destruct rest as [|c' rest']; [reflexivity|].
           destruct (Hrest plugin) as [msg Hm]; [discriminate|]. congruence.
        -- intros [E|[p E]]; [discriminate|]. inversion E; subst.
           eexists; reflexivity.
      * intros f' E. destruct rest as [|c' rest'].
        -- inversion E; subst. reflexivity.
        -- destruct (Hrest plugin) as [msg Hm]; [discriminate|]. congruence.
    + split.
      * split; [intros [f' E]; discriminate | intros [E|[p E]]; discriminate].
      * intros f' E. discriminate.
    + split.
      * split; [intros [f' E]; discriminate | intros [E|[p E]]; discriminate].
      * intros f' E. discriminate.
Qed.

Lemma Film_children_accepted_iff_witness :
  let props := FilmCtor.mkProps "hdrfilm" None None None None None None
                 None None None None None None None None None None None None None None None in
  let ctor := FilmCtor.Film_of_Properties (fun _ => Ok 2%Q)
                (fun _ => Ok (FilmCtor.mkSampler ENone)) props in
  exists f, ctor = Ok f
    /\ ~ (exists f', FilmCtor.addChildren f [FilmCtor.SamplerChild (FilmCtor.mkSampler ENone)]
                     = Ok f').
Proof.
  intros props ctor. eexists. split; [vm_compute; reflexivity|].
  intros Hex.
  apply (Film_children_accepted_iff (fun _ => Ok 2%Q)
           (fun _ => Ok (FilmCtor.mkSampler ENone)) props _ _ eq_refl) in Hex.
  destruct Hex as [E|[p E]]; discriminate.
Defined.

(** ** The emitter check, in general *)

(** X6. The emitter check of process has two outcomes only, and it rejects
    the scene exactly when lightImage is on and the first emitter is a
    projector; the emitters after the first have no influence. *)
Theorem emitter_check_depends_on_first_only
    (ortho persp : Z) (emitters : list Emitter) (lightImg : bool) :
  emitter_check ortho persp emitters lightImg
  = match emitters with
    | e :: _ => if isProjector ortho persp e && lightImg then Fatal projector_msg else Ok tt
    | [] => Ok tt
    end.
Proof.
  destruct emitters as [|e rest]; [reflexivity|].
  destruct (isProjector ortho persp e && lightImg) eqn:E.
  - unfold emitter_check. cbn [length seq emitter_check_loop].
    unfold emitter_check_body. cbn. now rewrite E.
  - unfold emitter_check. now apply emitter_check_loop_first_only.
Qed.

(** ** The blend after the adaptive loop, in general *)

Lemma footprint_nonneg (borderSize : Z) (yx : Z * Z) :
  yx ∈ footprint borderSize -> 0 <= fst yx /\ 0 <= snd yx.
Proof.
  unfold footprint. intros H.
  apply list_elem_of_bind in H as (y & H & Hy).
  apply list_elem_of_bind in H as (x & H & Hx).
  apply list_elem_of_singleton in H. subst yx. cbn.
  apply elem_of_seqZ in Hy. apply elem_of_seqZ in Hx. lia.
Qed.

Lemma restore_length hx hy sizeX channels j factor borderSize snapshot target :
  length (restore target snapshot factor borderSize hx hy sizeX channels j) = length target.
Proof.
  unfold restore. generalize (zip (footprint borderSize) snapshot). intros entries.
  revert target. induction entries as [|e entries IH]; intros target; [reflexivity|].
  cbn [fold_left]. rewrite IH. unfold blend_one. apply length_insert.
Qed.

Lemma Forall2_Qeq_refl (l : list Q) : Forall2 Qeq l l.
Proof. induction l; constructor; [reflexivity | assumption]. Qed.

Lemma insert_Qeq (l : list Q) (i : nat) (v : Q) :
  (v == read l i)%Q -> Forall2 Qeq (<[i:=v]> l) l.
Proof.
  revert i. induction l as [|x l IH]; intros i Hv; [constructor|].
  destruct i as [|i]; cbn.
  - constructor; [exact Hv | apply Forall2_Qeq_refl].
  - constructor; [reflexivity|]. apply IH. exact Hv.
Qed.

Lemma Forall2_Qeq_trans (a b c : list Q) :
  Forall2 Qeq a b -> Forall2 Qeq b c -> Forall2 Qeq a c.
Proof.
  intros Hab. revert c. induction Hab as [|x y a b Hxy Hab IH]; intros c Hbc.
  - inversion Hbc. constructor.
  - inversion Hbc; subst. constructor; [now rewrite Hxy | now apply IH].
Qed.

(** X7. The blend writes one channel only. For a block at non-negative
    offsets the blend after the adaptive loop keeps the size of the image
    data and changes no cell whose index is not congruent to the bin index j
    modulo the channel count: of the channels of a pixel only channel j is
    blended. *)
Theorem restore_writes_channel_j_only
    (target snapshot : list Q) (factor : Q) (borderSize hx hy sizeX channels j : Z) :
  0 <= hx -> 0 <= hy -> 0 <= sizeX -> 0 < channels -> 0 <= j ->
  length (restore target snapshot factor borderSize hx hy sizeX channels j) = length target
  /\ forall i : nat,
       Z.of_nat i mod channels <> j mod channels ->
       restore target snapshot factor borderSize hx hy sizeX channels j !! i = target !! i.
Proof.
  intros Hhx Hhy Hsx Hch Hj. split; [apply restore_length|].
  intros i Hi. apply restore_untouched. intros yx Hin Heq.
  apply list_elem_of_In in Hin. apply footprint_nonneg in Hin as [Hy Hx].
  apply Hi. rewrite Heq. unfold src_index.
  rewrite Z2Nat.id by nia.
  rewrite Z.add_comm. apply Z_mod_plus_full.
Qed.

Lemma restore_writes_channel_j_only_witness :
  restore [1; 2; 3; 4; 5; 6; 7; 8]%Q [9]%Q (1 # 2) 0 0 0 1 8 3 !! 4%nat = Some 5%Q.
Proof.
  apply (proj2 (restore_writes_channel_j_only [1; 2; 3; 4; 5; 6; 7; 8]%Q [9]%Q (1 # 2)
                  0 0 0 1 8 3 ltac:(lia) ltac:(lia) ltac:(lia) ltac:(lia) ltac:(lia)) 4%nat).
  vm_compute. discriminate.
Defined.

(** X8. When the loop has drawn exactly the nominal number of samples the
    blend factor is one, and the blend leaves every cell of the image data
    with the value the samples accumulated, whatever the snapshot holds. *)
Theorem restore_is_identity_at_nominal_count
    (target snapshot : list Q) (n borderSize hx hy sizeX channels j : Z) :
  n <> 0 ->
  Forall2 Qeq
    (restore target snapshot (blend_factor n n) borderSize hx hy sizeX channels j)
    target.
Proof.
  intros Hn.
  assert (Hone : (blend_factor n n == 1)%Q).
  { unfold blend_factor. field. intros E. change 0%Q with (inject_Z 0) in E.
    apply (proj1 (inject_Z_injective n 0)) in E. contradiction. }
  unfold restore. generalize (zip (footprint borderSize) snapshot). intros entries.
  revert target. induction entries as [|e entries IH]; intros target.
  - cbn. apply Forall2_Qeq_refl.
  - cbn [fold_left]. eapply Forall2_Qeq_trans; [apply IH|].
    unfold blend_one. apply insert_Qeq. rewrite Hone. ring.
Qed.

Lemma restore_is_identity_at_nominal_count_witness :
  Forall2 Qeq (restore [1; 2; 3; 4; 5]%Q [9]%Q (blend_factor 4 4) 0 0 0 1 5 0)
    [1; 2; 3; 4; 5]%Q.
Proof.
  apply (restore_is_identity_at_nominal_count [1; 2; 3; 4; 5]%Q [9]%Q 4 0 0 0 1 5 0).
  discriminate.
Defined.

(** ** The hard cap of the adaptive loop *)

Section HardCapFacts.
Variable fsqrt : Q -> Q.
Variable cfg : BDPTConfiguration.
Variable spb : Z.
Variable L : Q.
Hypothesis Hspb : 0 <= spb.
Hypothesis Hfactor : 0 <= m_adapMaxSampleFactor cfg.
Hypothesis Hprod : m_adapMaxSampleFactor cfg * spb < size_t_max.

Local Abbreviation cap := (Z.max 1 (m_adapMaxSampleFactor cfg * spb)).

Lemma adaptive_loop_capped (inputs : list (bool * Q)) (st : Welford) :
  0 <= sampleCount st < cap ->
  let run := adaptive_loop fsqrt cfg spb L inputs st in
  sampleCount st <= sampleCount (fst run) <= cap
  /\ (cap - sampleCount st <= Z.of_nat (length inputs) -> snd run <> OutOfSamples).
Proof.
  assert (Hmax : 1 < size_t_max) by reflexivity.
  revert st. induction inputs as [|[stop x] rest IH]; intros st Hst run; subst run.
  - cbn. split; [lia|]. intros H. lia.
  - cbn [adaptive_loop]. destruct stop.
    { cbn. split; [lia | discriminate]. }
    set (st' := welford_update st x).
    assert (Hc : sampleCount st' = sampleCount st + 1).
    { subst st'. cbn. apply to_size_t_small. lia. }
    destruct (hardCap cfg spb st') eqn:Ecap.
    { cbn [fst snd]. rewrite Hc. split; [lia | discriminate]. }
    assert (Hlt : sampleCount st' < cap).
    { destruct (Z_lt_le_dec (sampleCount st') (m_adapMaxSampleFactor cfg * spb)) as [Hl|Hg];
        [lia|].
      assert (hardCap cfg spb st' = true) by (apply hardCap_iff; auto).
      congruence. }
    assert (Hrest : sampleCount st <= sampleCount (fst (adaptive_loop fsqrt cfg spb L rest st'))
                    <= cap
                    /\ (cap - sampleCount st <= Z.of_nat (S (length rest)) ->
                        snd (adaptive_loop fsqrt cfg spb L rest st') <> OutOfSamples)).
    { destruct (IH st') as [Hb Ho]; [lia|]. split; [lia|].
      intros Hlen. apply Ho. lia. }
    cbn [length] in Hrest |- *.
    destruct (spb <=? sampleCount st'); [|exact Hrest].
    destruct (converged fsqrt cfg L st'); [|exact Hrest].
    cbn [fst snd]. rewrite Hc. split; [lia | discriminate].
Qed.

End HardCapFacts.

(** X9. With a non-negative sample factor the adaptive loop never draws more
    than max(1, factor x samplesPerBin) samples for a bin, whatever the
    samples are and whether or not the error test is ever met; and once that
    many samples are at hand the loop leaves by itself (cancelled, at the cap
    or converged). *)
Theorem adaptive_loop_respects_hard_cap
    (fsqrt : Q -> Q) (cfg : BDPTConfiguration) (spb : Z) (L : Q)
    (inputs : list (bool * Q)) :
  0 <= spb -> 0 <= m_adapMaxSampleFactor cfg ->
  m_adapMaxSampleFactor cfg * spb < size_t_max ->
  let run := adaptive_loop fsqrt cfg spb L inputs welford_init in
  let cap := Z.max 1 (m_adapMaxSampleFactor cfg * spb) in
  0 <= sampleCount (fst run) <= cap
  /\ (cap <= Z.of_nat (length inputs) -> snd run <> OutOfSamples).
Proof.
  intros Hspb Hf Hprod run cap. subst run cap.
  destruct (adaptive_loop_capped fsqrt cfg spb L Hspb Hf Hprod inputs welford_init)
    as [Hb Ho].
  - cbn. lia.
  - cbn [sampleCount welford_init] in Hb, Ho. split; [lia|].
    intros Hlen. apply Ho. lia.
Qed.

Lemma adaptive_loop_respects_hard_cap_witness :
  let cfg := mkConfig 10 5 true false 0 8 2 4 false true 0 2 2 in
  let run := adaptive_loop newton_sqrt cfg 2 1
               (map (pair false) [1; 5; 1; 5; 1; 5]%Q) welford_init in
  0 <= sampleCount (fst run) <= 4 /\ snd run = HardCap.
Proof.
  intros cfg run.
  destruct (adaptive_loop_respects_hard_cap newton_sqrt cfg 2 1
              (map (pair false) [1; 5; 1; 5; 1; 5]%Q))
    as [Hb _]; [lia | cbn; lia | reflexivity |].
  split; [exact Hb | vm_compute; reflexivity].
Defined.

(** ** The two loops of [evaluate] *)

Lemma elem_of_downto (hi lo x : Z) : x ∈ downto hi lo <-> lo <= x <= hi.
Proof.
  unfold downto. rewrite list_elem_of_In, in_map_iff. split.
  - intros (i & <- & Hi). apply in_seq in Hi. lia.
  - intros H. exists (Z.to_nat (hi - x)). split; [lia|]. apply in_seq. lia.
Qed.

Lemma elem_of_connections cfg wr (eP sP : Path) (s t : Z) :
  (s, t) ∈ connections cfg wr eP sP
  <-> 0 <= s <= Z.of_nat (vertexCount eP) - 1 /\ minT cfg s <= t <= maxT cfg wr sP s.
Proof.
  unfold connections. rewrite list_elem_of_bind. split.
  - intros (s' & H & Hs). apply list_elem_of_bind in H as (t' & H & Ht).
    apply list_elem_of_singleton in H. inversion H; subst s' t'.
    apply elem_of_downto in Hs. apply elem_of_downto in Ht. tauto.
  - intros [Hs Ht]. exists s. split; [|now apply elem_of_downto].
    apply list_elem_of_bind. exists t. split; [|now apply elem_of_downto].
    now apply list_elem_of_singleton.
Qed.

Lemma maxT_le cfg wr (sP : Path) (s : Z) :
  maxT cfg wr sP s <= Z.of_nat (vertexCount sP) - 1
  /\ (maxDepth cfg <> -1 -> maxT cfg wr sP s <= localMaxDepth cfg wr + 1 - s).
Proof.
  unfold maxT. destruct (maxDepth cfg =? -1) eqn:E; cbn [negb].
  - apply Z.eqb_eq in E. split; [lia | intros H; contradiction].
  - split; [lia | intros _; lia].
Qed.

Lemma minT_ge cfg (s : Z) :
  0 <= minT cfg s /\ 2 - s <= minT cfg s /\ (lightImage cfg = false -> 2 <= minT cfg s).
Proof.
  unfold minT. destruct (lightImage cfg); repeat split; try lia; discriminate.
Qed.

(** X10. The pairs (s,t) that the two loops of evaluate visit stay inside the
    two subpaths, so the vertex reads at s and t succeed; every pair has
    s + t >= 2; with a depth limit the pair has at most localMaxDepth + 1
    vertices; and with lightImage off every pair has t >= 2. *)
Theorem connections_within_subpaths
    (cfg : BDPTConfiguration) (wr : BDPTWorkResult) (eP sP : Path) (s t : Z) :
  (s, t) ∈ connections cfg wr eP sP ->
  0 <= s /\ 0 <= t /\ 2 <= s + t
  /\ is_Some (vertices eP !! Z.to_nat s) /\ is_Some (vertices sP !! Z.to_nat t)
  /\ (maxDepth cfg <> -1 -> s + t <= localMaxDepth cfg wr + 1)
  /\ (lightImage cfg = false -> 2 <= t).
Proof.
  intros H. apply elem_of_connections in H as [Hs [Hlo Hhi]].
  destruct (maxT_le cfg wr sP s) as [Hm Hd].
  destruct (minT_ge cfg s) as (H0 & H2 & Hl).
  split; [lia|]. split; [lia|]. split; [lia|].
  split; [apply lookup_lt_is_Some; unfold vertexCount in Hs; lia|].
  split; [apply lookup_lt_is_Some; unfold vertexCount in Hm; lia|].
  split.
  - intros Hne. specialize (Hd Hne). lia.
  - intros Hli. specialize (Hl Hli). lia.
Qed.

Lemma connections_within_subpaths_witness :
  is_Some (vertices (Scene.twoEdgePath 3) !! Z.to_nat 2) /\ 2 <= 2 + 2.
Proof.
  destruct (connections_within_subpaths (Scene.config false false)
              (Scene.workResult ETransient) (Scene.twoEdgePath 2) (Scene.twoEdgePath 3) 2 2)
    as (_ & _ & H2 & _ & Hv & _).
  - apply elem_of_connections. vm_compute. repeat split; discriminate.
  - split; [exact Hv | exact H2].
Defined.

Lemma connections_nil_shallow cfg wr (eP sP : Path) :
  maxDepth cfg <> -1 -> localMaxDepth cfg wr <= 0 -> connections cfg wr eP sP = [].
Proof.
  intros Hne Hd. destruct (connections cfg wr eP sP) as [|[s t] rest] eqn:E; [reflexivity|].
  assert (Hin : (s, t) ∈ connections cfg wr eP sP) by (rewrite E; left).
  apply elem_of_connections in Hin as [Hs [Hlo Hhi]].
  destruct (maxT_le cfg wr sP s) as [_ Hm]. specialize (Hm Hne).
  destruct (minT_ge cfg s) as (_ & H2 & _). lia.
Qed.

(** X11. With a depth limit that leaves localMaxDepth at zero or below
    (maxDepth in {0, -2, -3, ...}, and also 1 in elliptic mode, where one is
    taken off), evaluate makes no connection at all: it returns the zero
    spectrum, puts no light sample, and the pixel sample it puts is the one
    of the initial accumulators. *)
Theorem evaluate_idle_at_shallow_depth
    (cfg : BDPTConfiguration) (wr : BDPTWorkResult) (eP sP : Path) (target : Q)
    (laser : bool) (pos : Point2) (collab : Z -> Z -> Collab) (p : MemoryPool) :
  maxDepth cfg <> -1 -> localMaxDepth cfg wr <= 0 ->
  exists r,
    evaluate cfg wr eP sP target laser pos collab p = Ok r
    /\ returned r = Spectrum_const 0
    /\ putLightSamples r = []
    /\ putSample r
       = (if isSteady (m_decompositionType wr)
             || (isTransientKind (m_decompositionType wr)
                 && isModulated (getModulationType wr))
          then inl (Spectrum_const 0)
          else inr (<[ (Z.to_nat (getChannelCount wr) - 1)%nat := 1%Q ]>
                      (<[ (Z.to_nat (getChannelCount wr) - 2)%nat := 1%Q ]>
                         (replicate (Z.to_nat (getChannelCount wr)) 0%Q)))).
Proof.
  intros Hne Hd. unfold evaluate.
  rewrite (connections_nil_shallow cfg wr eP sP Hne Hd). cbn [run bind].
  eexists. split; [reflexivity|]. cbn [returned putLightSamples putSample].
  unfold initAccum. destruct (m_decompositionType wr); cbn; try (repeat split; reflexivity).
  all: destruct (getModulationType wr); cbn; repeat split; reflexivity.
Qed.

Lemma evaluate_idle_at_shallow_depth_witness :
  let cfg := mkConfig 1 5 true false 0 8 2 4 false false (1 # 20) 2 8 in
  exists r,
    evaluate cfg (Scene.workResult ETransientEllipse) (Scene.twoEdgePath 2)
      (Scene.twoEdgePath 3) 6 false (0, 0)%Q Scene.unitCollab (mkPool 0 0) = Ok r
    /\ putLightSamples r = [].
Proof.
  intros cfg.
  destruct (evaluate_idle_at_shallow_depth cfg (Scene.workResult ETransientEllipse)
              (Scene.twoEdgePath 2) (Scene.twoEdgePath 3) 6 false (0, 0)%Q
              Scene.unitCollab (mkPool 0 0))
    as (r & Hr & _ & Hl & _).
  - discriminate.
  - vm_compute. discriminate.
  - exists r. split; assumption.
Defined.

(** ** What the loop over the pairs preserves *)

Section RunFacts.
Variable cfg : BDPTConfiguration.
Variable wr : BDPTWorkResult.
Variables emitterSubpath sensorSubpath : Path.
Variable pathLengthTarget : Q.
Variable isEmitterLaser : bool.
Variable initialSamplePos : Point2.
Variable collab : Z -> Z -> Collab.

Local Abbreviation iteration' :=
  (iteration cfg wr emitterSubpath sensorSubpath pathLengthTarget isEmitterLaser
     initialSamplePos collab).
Local Abbreviation run' :=
  (run cfg wr emitterSubpath sensorSubpath pathLengthTarget isEmitterLaser
     initialSamplePos collab).

(** The elliptic sampler runs in elliptic mode only. *)
Lemma endpoints_elliptic_mode (s t : Z) (vs vt : PathVertex) (c : Collab) (corrW : Q)
    value plr tpl w :
  endpoints cfg wr emitterSubpath sensorSubpath pathLengthTarget s t vs vt c corrW
  = Elliptic value plr tpl w ->
  m_decompositionType wr = ETransientEllipse.
Proof.
  intros H. unfold endpoints, chooseSampling in H.
  destruct (m_decompositionType wr); [exfalso..|reflexivity];
    cbn [isEllipse isSteady isTransientKind negb andb orb] in H;
    rewrite ?andb_false_r in H; cbn [andb] in H;
    repeat (first [ discriminate H | split_if_in H ]).
Qed.

Lemma run_invariant (P : Accum -> Prop) (pairs : list (Z * Z)) :
  (forall s t acc acc', (s, t) ∈ pairs -> P acc -> iteration' s t acc = Ok acc' -> P acc') ->
  forall acc acc', P acc -> run' pairs acc = Ok acc' -> P acc'.
Proof.
  induction pairs as [|[s t] pairs IH]; intros Hstep acc acc' HP Hrun.
  - inversion Hrun; subst. exact HP.
  - cbn [run] in Hrun.
    destruct (iteration' s t acc) as [acc1|msg] eqn:E; cbn [bind] in Hrun; [|discriminate].
    apply (IH (fun s' t' a a' Hin => Hstep s' t' a a' (list_elem_of_further _ _ _ Hin))
              acc1 acc'); [|exact Hrun].
    apply (Hstep s t acc acc1); [left | exact HP | exact E].
Qed.

(** One pair keeps a property of the accumulators that the correction
    weight does not touch, that the commit of a connection keeps, and that the
    elliptic sampler keeps whenever it can run. *)
Lemma iteration_preserves (P : Accum -> Prop) (s t : Z) (acc acc' : Accum) :
  (forall a w, P a -> P (set_corrWeight a w)) ->
  (forall cur value pathLength miW samplePos a,
      P a -> P (commit wr cur value pathLength miW t samplePos a)) ->
  (m_decompositionType wr = ETransientEllipse ->
   forall value plr tpl w a, P a -> P (ellipticCommit (collab s t) value plr tpl w a)) ->
  P acc -> iteration' s t acc = Ok acc' -> P acc'.
Proof.
  intros Hw Hc He HP H. unfold iteration in H.
  destruct (skipped wr isEmitterLaser s t); [inversion H; subst; exact HP|].
  destruct (vertices emitterSubpath !! Z.to_nat s) as [vs|];
    [|inversion H; subst; exact HP].
  destruct (vertices sensorSubpath !! Z.to_nat t) as [vt|];
    [|inversion H; subst; exact HP].
  destruct (endpoints _ _ _ _ _ s t vs vt _ _) as [w|msg|value plr tpl w|cur value pl w sd]
    eqn:E.
  - inversion H; subst. now apply Hw.
  - discriminate.
  - inversion H; subst. apply endpoints_elliptic_mode in E.
    apply (He E). now apply Hw.
  - inversion H; subst. unfold connect.
    repeat match goal with
           | |- P (if ?b then _ else _) => destruct b
           | |- P (match ?o with Some _ => _ | None => _ end) => destruct o
           end; try (apply Hc); now apply Hw.
Qed.

Lemma commit_meanSpectrum cur value pathLength miW t samplePos acc :
  meanSpectrum (commit wr cur value pathLength miW t samplePos acc) = meanSpectrum acc.
Proof.
  unfold commit.
  repeat match goal with
         | |- context [if ?b then _ else _] => destruct b
         end; reflexivity.
Qed.

Lemma commit_lightSamples cur value pathLength miW t samplePos acc :
  2 <= t ->
  lightSamples (commit wr cur value pathLength miW t samplePos acc) = lightSamples acc.
Proof.
  intros Ht. unfold commit.
  assert (E : (2 <=? t) = true) by (apply Z.leb_le; exact Ht). rewrite E.
  repeat match goal with
         | |- context [if ?b then _ else _] => destruct b
         end; reflexivity.
Qed.

Lemma addBin_length (a : list Q) (k : Z) (rgb : Q * Q * Q) (miW : Q) :
  length (addBin a k rgb miW) = length a.
Proof. unfold addBin. destruct rgb as [[r g] b]. now rewrite !length_insert. Qed.

Lemma commit_sample_length cur value pathLength miW t samplePos acc :
  length (sampleDecompositionValue (commit wr cur value pathLength miW t samplePos acc))
  = length (sampleDecompositionValue acc).
Proof.
  unfold commit.
  repeat match goal with
         | |- context [if ?b then _ else _] => destruct b
         end; cbn [sampleDecompositionValue set_sampleDecompositionValue set_sampleValue
                   set_l_sampleDecompositionValue putLightSample];
    rewrite ?addBin_length; reflexivity.
Qed.

End RunFacts.

Lemma initAccum_fields (wr : BDPTWorkResult) :
  lightSamples (initAccum wr) = [] /\ meanSpectrum (initAccum wr) = Spectrum_const 0
  /\ sampleValue (initAccum wr) = Spectrum_const 0
  /\ (isSteady (m_decompositionType wr) = false ->
      length (sampleDecompositionValue (initAccum wr)) = Z.to_nat (getChannelCount wr)).
Proof.
  unfold initAccum. destruct (isSteady (m_decompositionType wr)); cbn.
  - repeat split; discriminate.
  - repeat split. intros _. apply length_replicate.
Qed.

(** X12. With lightImage off evaluate puts no light sample, in every mode:
    the loops leave out t < 2, and a connection with t >= 2 goes to the pixel
    accumulators. The elliptic sampler, which is not part of this file, is
    taken to put none either. *)
Theorem no_light_sample_without_lightImage
    (cfg : BDPTConfiguration) (wr : BDPTWorkResult) (eP sP : Path) (target : Q)
    (laser : bool) (pos : Point2) (collab : Z -> Z -> Collab) (p : MemoryPool)
    (r : EvalResult) :
  lightImage cfg = false ->
  (m_decompositionType wr = ETransientEllipse ->
   forall s t value plr tpl w a,
     lightSamples (ellipticCommit (collab s t) value plr tpl w a) = lightSamples a) ->
  evaluate cfg wr eP sP target laser pos collab p = Ok r ->
  putLightSamples r = [].
Proof.
  intros Hli Hell H. unfold evaluate in H.
  destruct (run cfg wr eP sP target laser pos collab _ _) as [acc|msg] eqn:E;
    cbn [bind] in H; [|discriminate].
  inversion H; subst; clear H. cbn [putLightSamples].
  apply (run_invariant cfg wr eP sP target laser pos collab
           (fun a => lightSamples a = [])
             (connections cfg wr eP sP)) with (acc := initAccum wr) (acc' := acc);
    [|apply initAccum_fields|exact E].
  intros s t a a' Hin Ha Hit.
  apply elem_of_connections in Hin as [_ [Hlo _]].
  destruct (minT_ge cfg s) as (_ & _ & Hl). specialize (Hl Hli).
  apply (iteration_preserves cfg wr eP sP target laser pos collab
           (fun a => lightSamples a = []) s t a a'); [| | |exact Ha|exact Hit].
  - intros a0 w H0. exact H0.
  - intros cur value pl miW samplePos a0 H0. rewrite commit_lightSamples; [exact H0 | lia].
  - intros Hte value plr tpl w a0 H0. now rewrite Hell.
Qed.

Lemma no_light_sample_without_lightImage_witness :
  exists r,
    evaluate (Scene.config true false) (Scene.workResult ETransient) (Scene.twoEdgePath 2)
      (Scene.twoEdgePath 3) 6 false (0, 0)%Q Scene.unitCollab (mkPool 0 0) = Ok r
    /\ putLightSamples r = [].
Proof.
  eexists. split; [vm_compute; reflexivity|].
  apply (no_light_sample_without_lightImage (Scene.config true false)
           (Scene.workResult ETransient) (Scene.twoEdgePath 2) (Scene.twoEdgePath 3) 6
           false (0, 0)%Q Scene.unitCollab (mkPool 0 0)).
  - reflexivity.
  - intros _ s t value plr tpl w a. reflexivity.
  - vm_compute. reflexivity.
Defined.

(** X13. Outside elliptic mode evaluate always returns, and the spectrum it
    returns is zero: the mean spectrum is written by the elliptic sampler
    only. *)
Theorem evaluate_returns_zero_outside_elliptic_mode
    (cfg : BDPTConfiguration) (wr : BDPTWorkResult) (eP sP : Path) (target : Q)
    (laser : bool) (pos : Point2) (collab : Z -> Z -> Collab) (p : MemoryPool) :
  m_decompositionType wr <> ETransientEllipse ->
  exists r,
    evaluate cfg wr eP sP target laser pos collab p = Ok r
    /\ returned r = Spectrum_const 0.
Proof.
  intros Hne. unfold evaluate.
  destruct (run_total cfg wr eP sP target laser pos collab
              (connections cfg wr eP sP) (initAccum wr) Hne) as [acc E].
  rewrite E. cbn [bind]. eexists. split; [reflexivity|]. cbn [returned].
  apply (run_invariant cfg wr eP sP target laser pos collab
           (fun a => meanSpectrum a = Spectrum_const 0)
             (connections cfg wr eP sP))
    with (acc := initAccum wr) (acc' := acc); [|apply initAccum_fields|exact E].
  intros s t a a' _ Ha Hit.
  apply (iteration_preserves cfg wr eP sP target laser pos collab
           (fun a => meanSpectrum a = Spectrum_const 0) s t a a'); [| | |exact Ha|exact Hit].
  - intros a0 w H0. exact H0.
  - intros cur value pl miW samplePos a0 H0. now rewrite commit_meanSpectrum.
  - intros Hte. contradiction.
Qed.

Lemma evaluate_returns_zero_outside_elliptic_mode_witness :
  exists r,
    evaluate (Scene.config true true) (Scene.workResult EBounce) (Scene.twoEdgePath 2)
      (Scene.twoEdgePath 3) 6 false (0, 0)%Q Scene.unitCollab (mkPool 0 0) = Ok r
    /\ returned r = Spectrum_const 0.
Proof.
  apply (evaluate_returns_zero_outside_elliptic_mode (Scene.config true true)
           (Scene.workResult EBounce)).
  discriminate.
Defined.

(** X14. In bounce mode and in transient mode without modulation the pixel
    sample that evaluate puts is an array of getChannelCount cells whose last
    two cells are one, whatever the connections added to the bins. *)
Theorem evaluate_sample_array_shape
    (cfg : BDPTConfiguration) (wr : BDPTWorkResult) (eP sP : Path) (target : Q)
    (laser : bool) (pos : Point2) (collab : Z -> Z -> Collab) (p : MemoryPool) :
  m_decompositionType wr = EBounce
  \/ (m_decompositionType wr = ETransient /\ getModulationType wr = ENone) ->
  2 <= getChannelCount wr ->
  exists r a,
    evaluate cfg wr eP sP target laser pos collab p = Ok r
    /\ putSample r = inr a
    /\ length a = Z.to_nat (getChannelCount wr)
    /\ a !! (Z.to_nat (getChannelCount wr) - 1)%nat = Some 1%Q
    /\ a !! (Z.to_nat (getChannelCount wr) - 2)%nat = Some 1%Q.
Proof.
  intros Hmode Hn.
  assert (Hne : m_decompositionType wr <> ETransientEllipse)
    by (destruct Hmode as [H|[H _]]; rewrite H; discriminate).
  assert (Hst : isSteady (m_decompositionType wr) = false)
    by (destruct Hmode as [H|[H _]]; rewrite H; reflexivity).
  assert (Hinl : isSteady (m_decompositionType wr)
                 || (isTransientKind (m_decompositionType wr)
                     && isModulated (getModulationType wr)) = false).
  { destruct Hmode as [H|[H Hm]]; rewrite H, ?Hm; reflexivity. }
  unfold evaluate.
  destruct (run_total cfg wr eP sP target laser pos collab
              (connections cfg wr eP sP) (initAccum wr) Hne) as [acc E].
  rewrite E. cbn [bind]. rewrite Hinl.
  assert (Hlen : length (sampleDecompositionValue acc) = Z.to_nat (getChannelCount wr)).
  { apply (run_invariant cfg wr eP sP target laser pos collab
             (fun a => length (sampleDecompositionValue a) = Z.to_nat (getChannelCount wr))
             (connections cfg wr eP sP))
      with (acc := initAccum wr) (acc' := acc); [|now apply initAccum_fields|exact E].
    intros s t a a' _ Ha Hit.
    apply (iteration_preserves cfg wr eP sP target laser pos collab
             (fun a => length (sampleDecompositionValue a) = Z.to_nat (getChannelCount wr))
             s t a a'); [| | |exact Ha|exact Hit].
    - intros a0 w H0. exact H0.
    - intros cur value pl miW samplePos a0 H0. now rewrite commit_sample_length.
    - intros Hte. contradiction. }
  eexists. eexists. split; [reflexivity|]. cbn [putSample]. split; [reflexivity|].
  split; [now rewrite !length_insert|]. split.
  - apply list_lookup_insert_eq. rewrite length_insert. lia.
  - rewrite list_lookup_insert_ne by lia. apply list_lookup_insert_eq. lia.
Qed.

Lemma evaluate_sample_array_shape_witness :
  exists r a,
    evaluate (Scene.config true true) (Scene.workResult EBounce) (Scene.twoEdgePath 2)
      (Scene.twoEdgePath 3) 6 false (0, 0)%Q Scene.unitCollab (mkPool 0 0) = Ok r
    /\ putSample r = inr a
    /\ length a = 14%nat
    /\ a !! 13%nat = Some 1%Q
    /\ a !! 12%nat = Some 1%Q.
Proof.
  apply (evaluate_sample_array_shape (Scene.config true true) (Scene.workResult EBounce)).
  - left. reflexivity.
  - cbn. lia.
Defined.

(** ** Elliptic mode with modulation *)

Section ModulatedFacts.
Variable cfg : BDPTConfiguration.
Variable wr : BDPTWorkResult.
Variables emitterSubpath sensorSubpath : Path.
Variable pathLengthTarget : Q.

(** The kind of a candidate is the mode of the film, or transient after a
    reclassification in elliptic mode. *)
Lemma endpoints_connect_kind (s t : Z) (vs vt : PathVertex) (c : Collab) (corrW : Q)
    cur value pathLength w sd :
  endpoints cfg wr emitterSubpath sensorSubpath pathLengthTarget s t vs vt c corrW
  = Connect cur value pathLength w sd ->
  cur = m_decompositionType wr
  \/ (m_decompositionType wr = ETransientEllipse /\ cur = ETransient).
Proof.
  intros H. unfold endpoints, chooseSampling in H.
  destruct (m_decompositionType wr);
    cbn [isEllipse isSteady isTransientKind negb andb orb] in H;
    rewrite ?andb_false_r in H; cbn [andb] in H;
    repeat (first [ discriminate H | split_if_in H ]);
    inversion H; subst; auto.
Qed.

Lemma commit_modulated_elliptic value pathLength miW t samplePos acc :
  m_decompositionType wr = ETransientEllipse ->
  getModulationType wr = EModulated ->
  commit wr ETransient value pathLength miW t samplePos acc = acc.
Proof.
  intros Hte Hm. unfold commit. rewrite Hte, Hm. reflexivity.
Qed.

End ModulatedFacts.

(** X15. In elliptic mode with a modulated sensor the connection of the two
    subpaths never contributes: a candidate that the combination of the two
    samplings turned into a transient one gets its weight but is accumulated
    nowhere, since the last test reads the mode of the film and not the kind
    of the candidate. One pair either leaves the accumulators as they were,
    up to the correction weight, or hands them to the elliptic sampler. *)
Theorem modulated_elliptic_mode_discards_connections
    (cfg : BDPTConfiguration) (wr : BDPTWorkResult) (eP sP : Path) (target : Q)
    (laser : bool) (pos : Point2) (collab : Z -> Z -> Collab) (s t : Z)
    (acc acc' : Accum) :
  m_decompositionType wr = ETransientEllipse ->
  getModulationType wr = EModulated ->
  iteration cfg wr eP sP target laser pos collab s t acc = Ok acc' ->
  (exists w, acc' = set_corrWeight acc w)
  \/ (exists value plr tpl w,
        acc' = ellipticCommit (collab s t) value plr tpl w (set_corrWeight acc w)).
Proof.
  intros Hte Hm H. unfold iteration in H.
  assert (Hsame : exists w, acc = set_corrWeight acc w)
    by (exists (corrWeight acc); now rewrite set_corrWeight_same).
  destruct (skipped wr laser s t); [inversion H; subst; now left|].
  destruct (vertices eP !! Z.to_nat s) as [vs|]; [|inversion H; subst; now left].
  destruct (vertices sP !! Z.to_nat t) as [vt|]; [|inversion H; subst; now left].
  destruct (endpoints _ _ _ _ _ s t vs vt _ _) as [w|msg|value plr tpl w|cur value pl w sd]
    eqn:E.
  - inversion H; subst. left. now exists w.
  - discriminate.
  - inversion H; subst. right. now exists value, plr, tpl, w.
  - inversion H; subst. left. exists w.
    apply endpoints_connect_kind in E. unfold connect.
    destruct E as [Hc|[_ Hc]]; rewrite Hc, ?Hte; cbn [isEllipse negb]; [reflexivity|].
    repeat match goal with
           | |- (if ?b then _ else _) = _ => destruct b
           | |- match ?o with Some _ => _ | None => _ end = _ => destruct o
           end; try reflexivity; now apply commit_modulated_elliptic.
Qed.

Lemma modulated_elliptic_mode_discards_connections_witness :
  let wr := mkWorkResult ETransientEllipse true 0 8 2 1 false 0 0 EModulated
              (fun _ => 1 # 2) 5 in
  let collab := fun _ _ : Z =>
    mkCollab Scene.white Scene.white Scene.white Scene.white
      1 (1 # 4) true 1 2 (fun _ _ _ _ a => a) true Scene.white (1 # 2) false None in
  let acc := initAccum wr in
  iteration (Scene.config false false) wr (Scene.twoEdgePath 2) (Scene.twoEdgePath 3) 6
    false (0, 0)%Q collab 2 2 acc = Ok (set_corrWeight acc 2)
  /\ ((exists w, set_corrWeight acc 2 = set_corrWeight acc w)
      \/ (exists value plr tpl w,
            set_corrWeight acc 2
            = ellipticCommit (collab 2 2) value plr tpl w (set_corrWeight acc w))).
Proof.
  intros wr collab acc. split; [vm_compute; reflexivity|].
  apply (modulated_elliptic_mode_discards_connections
           (Scene.config false false) wr (Scene.twoEdgePath 2) (Scene.twoEdgePath 3) 6
           false (0, 0)%Q collab 2 2 acc (set_corrWeight acc 2) eq_refl eq_refl).
  vm_compute. reflexivity.
Defined.

(** ** Forced bounces *)

Lemma NoDup_downto (hi lo : Z) : NoDup (downto hi lo).
Proof.
  unfold downto.
  assert (Hinj : Inj eq eq (fun i : nat => hi - Z.of_nat i)) by (intros i j H; lia).
  apply (NoDup_fmap_2 (fun i : nat => hi - Z.of_nat i)). apply NoDup_seq.
Qed.

Lemma NoDup_connections cfg wr (eP sP : Path) : NoDup (connections cfg wr eP sP).
Proof.
  unfold connections. apply NoDup_bind; [| |apply NoDup_downto].
  - intros s1 s2 y _ _ H1 H2.
    apply list_elem_of_bind in H1 as (t1 & H1 & _). apply list_elem_of_singleton in H1.
    apply list_elem_of_bind in H2 as (t2 & H2 & _). apply list_elem_of_singleton in H2.
    congruence.
  - intros s _. apply NoDup_bind; [| |apply NoDup_downto].
    + intros t1 t2 y _ _ H1 H2.
      apply list_elem_of_singleton in H1. apply list_elem_of_singleton in H2. congruence.
    + intros t _. apply NoDup_singleton.
Qed.

Section ForcedFacts.
Variable cfg : BDPTConfiguration.
Variable wr : BDPTWorkResult.
Variables emitterSubpath sensorSubpath : Path.
Variable pathLengthTarget : Q.
Variable isEmitterLaser : bool.
Variable initialSamplePos : Point2.
Variable collab : Z -> Z -> Collab.
Hypothesis Hforce : m_forceBounces wr = true.

Local Abbreviation iteration' :=
  (iteration cfg wr emitterSubpath sensorSubpath pathLengthTarget isEmitterLaser
     initialSamplePos collab).
Local Abbreviation run' :=
  (run cfg wr emitterSubpath sensorSubpath pathLengthTarget isEmitterLaser
     initialSamplePos collab).

Lemma iteration_forced_skip (s t : Z) (acc : Accum) :
  (s, t) <> (m_sBounces wr, m_tBounces wr) -> iteration' s t acc = Ok acc.
Proof.
  intros Hne. unfold iteration.
  assert (E : skipped wr isEmitterLaser s t = true).
  { unfold skipped. rewrite Hforce. cbn [andb].
    destruct (s =? m_sBounces wr) eqn:Es; [|cbn; apply orb_true_r].
    destruct (t =? m_tBounces wr) eqn:Et; [|cbn; apply orb_true_r].
    apply Z.eqb_eq in Es, Et. congruence. }
  now rewrite E.
Qed.

Lemma run_forced (pairs : list (Z * Z)) (acc : Accum) :
  NoDup pairs ->
  run' pairs acc
  = if decide ((m_sBounces wr, m_tBounces wr) ∈ pairs)
    then iteration' (m_sBounces wr) (m_tBounces wr) acc
    else Ok acc.
Proof.
  revert acc. induction pairs as [|[s t] rest IH]; intros acc Hnd.
  - cbn [run]. destruct (decide _) as [Hin|_]; [|reflexivity].
    apply elem_of_nil in Hin. contradiction.
  - apply NoDup_cons in Hnd as [Hnotin Hnd]. cbn [run].
    destruct (decide ((s, t) = (m_sBounces wr, m_tBounces wr))) as [Heq|Hne].
    + inversion Heq; subst s t.
      destruct (decide ((m_sBounces wr, m_tBounces wr)
                        ∈ (m_sBounces wr, m_tBounces wr) :: rest)) as [_|Hout];
        [|exfalso; apply Hout; left].
      destruct (iteration' (m_sBounces wr) (m_tBounces wr) acc) as [acc1|msg];
        cbn [bind]; [|reflexivity].
      rewrite (IH acc1 Hnd).
      destruct (decide ((m_sBounces wr, m_tBounces wr) ∈ rest)) as [Hin|_];
        [contradiction | reflexivity].
    + rewrite (iteration_forced_skip s t acc Hne). cbn [bind]. rewrite (IH acc Hnd).
      destruct (decide ((m_sBounces wr, m_tBounces wr) ∈ rest)) as [Hin|Hout];
        destruct (decide ((m_sBounces wr, m_tBounces wr) ∈ (s, t) :: rest))
          as [Hin'|Hout']; try reflexivity.
      * exfalso. apply Hout'. now right.
      * exfalso. apply elem_of_cons in Hin' as [Heq|Hin']; [congruence | contradiction].
Qed.

End ForcedFacts.

(** X16. With forceBounces on, the whole double loop of evaluate comes down to
    the one pair (sBounce, tBounce): when the loops reach that pair the
    accumulators are what this pair alone makes of the initial ones, and when
    they do not reach it nothing is accumulated. *)
Theorem forced_bounces_single_pair
    (cfg : BDPTConfiguration) (wr : BDPTWorkResult) (eP sP : Path) (target : Q)
    (laser : bool) (pos : Point2) (collab : Z -> Z -> Collab) (acc : Accum) :
  m_forceBounces wr = true ->
  run cfg wr eP sP target laser pos collab (connections cfg wr eP sP) acc
  = if decide ((m_sBounces wr, m_tBounces wr) ∈ connections cfg wr eP sP)
    then iteration cfg wr eP sP target laser pos collab (m_sBounces wr) (m_tBounces wr) acc
    else Ok acc.
Proof.
  intros Hforce. apply run_forced; [exact Hforce | apply NoDup_connections].
Qed.

Lemma forced_bounces_single_pair_witness :
  let wr := mkWorkResult ETransient false 0 8 2 4 true 2 2 ENone (fun _ => 1%Q) 14 in
  let acc := initAccum wr in
  run (Scene.config false false) wr (Scene.twoEdgePath 2) (Scene.twoEdgePath 3) 6 false
    (0, 0)%Q Scene.unitCollab
    (connections (Scene.config false false) wr (Scene.twoEdgePath 2) (Scene.twoEdgePath 3))
    acc
  = iteration (Scene.config false false) wr (Scene.twoEdgePath 2) (Scene.twoEdgePath 3) 6
      false (0, 0)%Q Scene.unitCollab 2 2 acc.
Proof.
  intros wr acc.
  rewrite (forced_bounces_single_pair (Scene.config false false) wr (Scene.twoEdgePath 2)
             (Scene.twoEdgePath 3) 6 false (0, 0)%Q Scene.unitCollab acc eq_refl).
  destruct (decide _) as [_|Hout]; [reflexivity|].
  exfalso. apply Hout. apply elem_of_connections. vm_compute.
  repeat split; discriminate.
Defined.

(** ** The channel arrays of the light samples *)

Lemma addBin_other (a : list Q) (k : Z) (rgb : Q * Q * Q) (miW : Q) (j : nat) :
  ~ (Z.to_nat (k * 3) <= j <= Z.to_nat (k * 3) + 2)%nat ->
  addBin a k rgb miW !! j = a !! j.
Proof.
  intros Hj. unfold addBin. destruct rgb as [[r g] b]. cbn zeta.
  rewrite !list_lookup_insert_ne by lia. reflexivity.
Qed.

Lemma resetBin_addBin (a : list Q) (k : Z) (rgb : Q * Q * Q) (miW : Q) :
  (forall i : nat, (Z.to_nat (k * 3) <= i <= Z.to_nat (k * 3) + 2)%nat ->
     a !! i = Some 0%Q \/ a !! i = None) ->
  resetBin (addBin a k rgb miW) k = a.
Proof.
  intros Hz. apply list_eq. intros j.
  destruct (decide (Z.to_nat (k * 3) <= j <= Z.to_nat (k * 3) + 2)%nat) as [Hin|Hout].
  - unfold resetBin. rewrite !list_lookup_insert, !length_insert, addBin_length.
    destruct (Hz j Hin) as [Hs|Hn].
    + assert (Hlt : (j < length a)%nat) by (apply lookup_lt_is_Some; eauto).
      rewrite Hs. repeat case_decide; try reflexivity. lia.
    + assert (Hge : (length a <= j)%nat) by (now apply lookup_ge_None).
      repeat case_decide; try lia.
      rewrite Hn. apply lookup_ge_None. rewrite addBin_length. exact Hge.
  - unfold resetBin. rewrite !list_lookup_insert_ne by lia. now apply addBin_other.
Qed.

Lemma initial_light_array_zero (wr : BDPTWorkResult) (k : Z) (i : nat) :
  3 * frames wr + 2 <= getChannelCount wr -> 0 <= k < frames wr ->
  (Z.to_nat (k * 3) <= i <= Z.to_nat (k * 3) + 2)%nat ->
  l_sampleDecompositionValue (initAccum wr) !! i = Some 0%Q
  \/ l_sampleDecompositionValue (initAccum wr) !! i = None.
Proof.
  intros Hn Hk Hi. unfold initAccum.
  destruct (isSteady (m_decompositionType wr)); cbn [l_sampleDecompositionValue].
  - right. reflexivity.
  - left. rewrite !list_lookup_insert_ne by lia. apply lookup_replicate_2. lia.
Qed.

Section LightFacts.
Variable wr : BDPTWorkResult.
Hypothesis Hchannels : 3 * frames wr + 2 <= getChannelCount wr.

Lemma binGuard_frames cur value pathLength :
  binGuard wr cur value pathLength = true ->
  0 <= binIndex (minBound wr) (binWidth wr) pathLength < frames wr.
Proof.
  unfold binGuard. intros H.
  apply andb_true_iff in H as [H H2]. apply andb_true_iff in H as [_ H1].
  apply Z.leb_le in H1. apply Z.ltb_lt in H2. lia.
Qed.

Lemma commit_lightInvariant cur value pathLength miW t samplePos acc :
  lightInvariant wr acc ->
  lightInvariant wr (commit wr cur value pathLength miW t samplePos acc).
Proof.
  intros [Hl Hs]. unfold commit.
  set (miW' := if negb (isSteady cur) && _ then _ else miW).
  set (k := binIndex (minBound wr) (binWidth wr) pathLength).
  assert (Hbin : lightInvariant wr
            (if negb (isSteady cur)
                && negb (EDecompositionType_eqb cur ETransient
                         && isModulated (getModulationType wr))
                && binGuard wr cur value pathLength
             then
               if 2 <=? t then
                 set_sampleDecompositionValue acc
                   (addBin (sampleDecompositionValue acc) k (toLinearRGB value) miW')
               else if t =? 1 then
                 set_l_sampleDecompositionValue
                   (putLightSample acc
                      (LightChannels samplePos
                         (addBin (l_sampleDecompositionValue acc) k (toLinearRGB value) miW')))
                   (resetBin
                      (addBin (l_sampleDecompositionValue acc) k (toLinearRGB value) miW') k)
               else acc
             else acc)).
  { destruct (negb (isSteady cur) && _ && binGuard wr cur value pathLength) eqn:E;
      [|split; assumption].
    apply andb_true_iff in E as [_ E]. apply binGuard_frames in E. fold k in E.
    destruct (2 <=? t); [split; assumption|].
    destruct (t =? 1); [|split; assumption].
    split; cbn [l_sampleDecompositionValue lightSamples set_l_sampleDecompositionValue
                putLightSample].
    - rewrite Hl. apply resetBin_addBin. intros i Hi.
      now apply (initial_light_array_zero wr k i).
    - apply Forall_app. split; [exact Hs|]. constructor; [|constructor].
      cbn [lightSampleInOneBin]. exists k. split; [exact E|]. rewrite Hl. split.
      + apply addBin_length.
      + intros j Hj. now apply addBin_other. }
  revert Hbin. generalize (if negb (isSteady cur)
                              && negb (EDecompositionType_eqb cur ETransient
                                       && isModulated (getModulationType wr))
                              && binGuard wr cur value pathLength
                           then
                             if 2 <=? t then
                               set_sampleDecompositionValue acc
                                 (addBin (sampleDecompositionValue acc) k
                                    (toLinearRGB value) miW')
                             else if t =? 1 then
                               set_l_sampleDecompositionValue
                                 (putLightSample acc
                                    (LightChannels samplePos
                                       (addBin (l_sampleDecompositionValue acc) k
                                          (toLinearRGB value) miW')))
                                 (resetBin
                                    (addBin (l_sampleDecompositionValue acc) k
                                       (toLinearRGB value) miW') k)
                             else acc
                           else acc).
  intros acc1 [Hl1 Hs1].
  destruct (isSteady cur || _); [|split; assumption].
  destruct (2 <=? t); [split; assumption|].
  split; [exact Hl1|]. cbn [lightSamples putLightSample].
  apply Forall_app. split; [exact Hs1|]. constructor; [exact I | constructor].
Qed.

End LightFacts.

(** X17. Each light sample carries one bin. Outside elliptic mode, with a
    channel array of at least 3 x frames + 2 cells, every call of
    putLightSample that evaluate makes has either a spectrum or a channel
    array that differs from the initial array (zeros, then two ones) in the
    three cells of one bin below the frame count: the reset after each call
    brings the shared array back to its initial contents. *)
Theorem light_samples_carry_one_bin
    (cfg : BDPTConfiguration) (wr : BDPTWorkResult) (eP sP : Path) (target : Q)
    (laser : bool) (pos : Point2) (collab : Z -> Z -> Collab) (p : MemoryPool) :
  m_decompositionType wr <> ETransientEllipse ->
  3 * frames wr + 2 <= getChannelCount wr ->
  exists r,
    evaluate cfg wr eP sP target laser pos collab p = Ok r
    /\ Forall (lightSampleInOneBin wr) (putLightSamples r).
Proof.
  intros Hne Hch. unfold evaluate.
  destruct (run_total cfg wr eP sP target laser pos collab
              (connections cfg wr eP sP) (initAccum wr) Hne) as [acc E].
  rewrite E. cbn [bind]. eexists. split; [reflexivity|]. cbn [putLightSamples].
  apply (run_invariant cfg wr eP sP target laser pos collab (lightInvariant wr)
           (connections cfg wr eP sP)) with (acc := initAccum wr) (acc' := acc);
    [| |exact E].
  - intros s t a a' _ Ha Hit.
    apply (iteration_preserves cfg wr eP sP target laser pos collab (lightInvariant wr)
             s t a a'); [| | |exact Ha|exact Hit].
    + intros a0 w H0. exact H0.
    + intros cur value pl miW samplePos a0 H0. now apply commit_lightInvariant.
    + intros Hte. contradiction.
  - split; [reflexivity|]. rewrite (proj1 (initAccum_fields wr)). constructor.
Qed.

Lemma light_samples_carry_one_bin_witness :
  exists r,
    evaluate (Scene.config true true) (Scene.workResult ETransient) (Scene.twoEdgePath 2)
      (Scene.twoEdgePath 3) 6 false (0, 0)%Q
      (fun _ _ => mkCollab Scene.white Scene.white Scene.white Scene.white 1 (1 # 2) true 1 2
                    (fun _ _ _ _ a => a) true Scene.white (1 # 2) true (Some (0, 0)%Q))
      (mkPool 0 0) = Ok r
    /\ Forall (lightSampleInOneBin (Scene.workResult ETransient)) (putLightSamples r).
Proof.
  apply (light_samples_carry_one_bin (Scene.config true true) (Scene.workResult ETransient)).
  - discriminate.
  - cbn. lia.
Defined.

(** ** Depth limits of the walks and of the connections *)

(** X19. When the depth limit leaves localMaxDepth at -1 without the
    configured maxDepth being -1 (elliptic mode with maxDepth 0), process asks
    for random walks of depth -1, the value that stands for no limit, on both
    sides, while evaluate makes no connection on whatever subpaths result. *)
Theorem unlimited_walks_without_connections
    (cfg : BDPTConfiguration) (wr : BDPTWorkResult)
    (hasDegenerateSensor hasDegenerateEmitters : bool) (eP sP : Path) :
  maxDepth cfg <> -1 -> localMaxDepth cfg wr = -1 ->
  Worker.walkDepths cfg wr hasDegenerateSensor hasDegenerateEmitters = (-1, -1)
  /\ connections cfg wr eP sP = [].
Proof.
  intros Hne Hl. split.
  - unfold Worker.walkDepths. rewrite Hl. cbn. now rewrite !andb_false_r.
  - apply connections_nil_shallow; [exact Hne | lia].
Qed.

Lemma unlimited_walks_without_connections_witness :
  let cfg := mkConfig 0 5 true false 0 8 2 4 false false (1 # 20) 2 8 in
  Worker.walkDepths cfg (Scene.workResult ETransientEllipse) true false = (-1, -1)
  /\ connections cfg (Scene.workResult ETransientEllipse) (Scene.twoEdgePath 2)
       (Scene.twoEdgePath 3) = [].
Proof.
  intros cfg.
  apply (unlimited_walks_without_connections cfg (Scene.workResult ETransientEllipse)
           true false (Scene.twoEdgePath 2) (Scene.twoEdgePath 3)).
  - discriminate.
  - reflexivity.
Defined.

(** ** The preview blend *)

Lemma previewPixel_length invSampleCount source si di dest :
  length (Worker.previewPixel invSampleCount source si di dest) = length dest.
Proof. unfold Worker.previewPixel. cbn [fold_left]. now rewrite !length_insert. Qed.

Lemma previewPixel_other invSampleCount source si di dest (i : nat) :
  ~ (di <= i <= di + 2)%nat ->
  Worker.previewPixel invSampleCount source si di dest !! i = dest !! i.
Proof.
  intros Hi. unfold Worker.previewPixel. cbn [fold_left].
  rewrite !list_lookup_insert_ne by lia. reflexivity.
Qed.

(** X20. The preview blend of processResult, for a block at non-negative
    offsets, keeps the size of the image data of the block and writes colour
    cells only: of the five channels of a pixel the last two (alpha and
    weight) keep their values. *)
Theorem previewBlend_keeps_alpha_and_weight
    (sampleCount : Z) (source dest : list Q)
    (srcWidth dstWidth borderSize offx offy sizex sizey : Z) :
  0 <= borderSize -> 0 <= dstWidth ->
  length (Worker.previewBlend sampleCount source dest srcWidth dstWidth borderSize
            offx offy sizex sizey) = length dest
  /\ forall i : nat,
       3 <= Z.of_nat i mod 5 ->
       Worker.previewBlend sampleCount source dest srcWidth dstWidth borderSize
         offx offy sizex sizey !! i = dest !! i.
Proof.
  intros Hb Hw. unfold Worker.previewBlend.
  set (pixels := y ← seqZ 0 sizey; x ← seqZ 0 sizex; [(y, x)]).
  assert (Hpix : forall yx, yx ∈ pixels -> 0 <= fst yx /\ 0 <= snd yx).
  { intros yx H. subst pixels.
    apply list_elem_of_bind in H as (y & H & Hy).
    apply list_elem_of_bind in H as (x & H & Hx).
    apply list_elem_of_singleton in H. subst yx. cbn.
    apply elem_of_seqZ in Hy. apply elem_of_seqZ in Hx. lia. }
  clearbody pixels. revert dest.
  induction pixels as [|yx pixels IH]; intros dest; [split; reflexivity|].
  cbn [fold_left].
  destruct (IH (fun yx' H => Hpix yx' (list_elem_of_further _ _ _ H))
               (Worker.previewPixel (1 / inject_Z sampleCount) source
                  (Worker.sourceBase offx offy srcWidth (fst yx) (snd yx))
                  (Worker.destBase borderSize dstWidth (fst yx) (snd yx)) dest))
    as [Hlen Hother].
  split; [now rewrite Hlen, previewPixel_length|].
  intros i Hi. rewrite (Hother i Hi). apply previewPixel_other.
  destruct (Hpix yx) as [Hy Hx]; [left|].
  unfold Worker.destBase.
  set (m := (borderSize + (fst yx + borderSize) * dstWidth)).
  assert (Hm : 0 <= m) by (subst m; nia).
  intros Hrange.
  assert (Hd : exists k, 0 <= k <= 2 /\ Z.of_nat i = (m + snd yx) * 5 + k).
  { exists (Z.of_nat i - (m * 5 + snd yx * 5)). lia. }
  destruct Hd as (k & Hk & Heq). rewrite Heq in Hi.
  rewrite Z.add_comm, Z_mod_plus_full, Z.mod_small in Hi; lia.
Qed.

Lemma previewBlend_keeps_alpha_and_weight_witness :
  Worker.previewBlend 4 [8; 8; 8]%Q [1; 1; 1; 1; 2]%Q 1 1 0 0 0 1 1 !! 4%nat = Some 2%Q.
Proof.
  apply (proj2 (previewBlend_keeps_alpha_and_weight 4 [8; 8; 8]%Q [1; 1; 1; 1; 2]%Q
                  1 1 0 0 0 1 1 ltac:(lia) ltac:(lia)) 4%nat).
  vm_compute. discriminate.
Defined.

(** ** The coded perspective camera *)

Section CameraFacts.
Import CodedPerspective.
Variable cam : Camera.

Lemma Qlt_bool_false (x y : Q) : Qlt_bool x y = false -> (y <= x)%Q.
Proof.
  unfold Qlt_bool. intros H. apply negb_false_iff in H. now apply Qle_bool_iff in H.
Qed.

Lemma outsideUnitSquare_false (x y : Q) :
  outsideUnitSquare x y = false -> (0 <= x <= 1 /\ 0 <= y <= 1)%Q.
Proof.
  unfold outsideUnitSquare. intros H.
  apply orb_false_iff in H as [H H4]. apply orb_false_iff in H as [H H3].
  apply orb_false_iff in H as [H1 H2].
  apply Qlt_bool_false in H1, H2, H3, H4. repeat split; assumption.
Qed.

Lemma scale_in_range (a r : Q) : (0 <= a <= 1)%Q -> (0 <= r)%Q -> (0 <= a * r <= r)%Q.
Proof. intros [H0 H1] Hr. split; nra. Qed.

Lemma importance_nonneg (d : Point) :
  (0 <= m_normalization cam)%Q -> (0 <= importance cam d)%Q.
Proof.
  intros Hn. unfold importance.
  destruct (Qle_bool (pz d) 0) eqn:Ez; [apply Qle_refl|].
  destruct (negb _); [apply Qle_refl|].
  assert (Hpos : (0 < pz d)%Q).
  { apply Qnot_le_lt. intros Hle. apply Qle_bool_iff in Hle. congruence. }
  assert (Hinv : (0 <= 1 / pz d)%Q) by (apply Qdiv_nonneg; [lra | exact Hpos]).
  apply Qmult_le_0_compat; [apply Qmult_le_0_compat; [apply Qmult_le_0_compat|]|];
    assumption.
Qed.

End CameraFacts.

(** X21. When getSamplePosition of the coded perspective camera succeeds, the
    direction points in front of the camera and the sample position lies on
    the film: between 0 and the resolution in both coordinates (for a
    resolution that is not negative). *)
Theorem getSamplePosition_on_film
    (cam : CodedPerspective.Camera) (d : CodedPerspective.Point) (x y : Q) :
  (0 <= fst (CodedPerspective.m_resolution cam))%Q ->
  (0 <= snd (CodedPerspective.m_resolution cam))%Q ->
  CodedPerspective.getSamplePosition cam d = Some (x, y) ->
  (0 < CodedPerspective.pz (CodedPerspective.toLocalDirection cam d))%Q
  /\ (0 <= x <= fst (CodedPerspective.m_resolution cam))%Q
  /\ (0 <= y <= snd (CodedPerspective.m_resolution cam))%Q.
Proof.
  intros Hrx Hry H. unfold CodedPerspective.getSamplePosition in H.
  destruct (Qle_bool (CodedPerspective.pz (CodedPerspective.toLocalDirection cam d)) 0) eqn:Ez; [discriminate|].
  destruct (CodedPerspective.outsideUnitSquare _ _) eqn:Eo; [discriminate|].
  inversion H; subst; clear H.
  apply outsideUnitSquare_false in Eo as [Hx Hy].
  split.
  - apply Qnot_le_lt. intros Hle. apply Qle_bool_iff in Hle. congruence.
  - split; now apply scale_in_range.
Qed.

(** X22. sampleDirect of the coded perspective camera has two outcomes. Either
    the density is zero, and then so is the value and the measure is not set;
    or the density is one with the discrete measure, the reference point lies
    within the clip range, the pixel position lies on the film, and the value
    is not negative when the normalization, the distance and the texel are
    not. *)
Theorem sampleDirect_outcomes
    (cam : CodedPerspective.Camera) (ref : CodedPerspective.Point) :
  (0 <= fst (CodedPerspective.m_resolution cam))%Q ->
  (0 <= snd (CodedPerspective.m_resolution cam))%Q ->
  let r := CodedPerspective.sampleDirect cam ref in
  let z := CodedPerspective.pz (CodedPerspective.toLocalPoint cam ref) in
  (CodedPerspective.ds_pdf r = 0%Q /\ CodedPerspective.ds_value r = 0%Q
   /\ CodedPerspective.ds_measure r = None /\ CodedPerspective.ds_dist r = None)
  \/ (CodedPerspective.ds_pdf r = 1%Q
      /\ CodedPerspective.ds_measure r = Some CodedPerspective.EDiscrete
      /\ (CodedPerspective.m_nearClip cam <= z <= CodedPerspective.m_farClip cam)%Q
      /\ (exists u v, CodedPerspective.ds_uv r = Some (u, v)
            /\ (0 <= u <= fst (CodedPerspective.m_resolution cam))%Q
            /\ (0 <= v <= snd (CodedPerspective.m_resolution cam))%Q)
      /\ ((0 <= CodedPerspective.m_normalization cam)%Q ->
          (forall p, 0 <= CodedPerspective.vecLength cam p)%Q ->
          (forall i j, 0 <= CodedPerspective.evalTexel cam i j)%Q ->
          (0 <= CodedPerspective.ds_value r)%Q)).
Proof.
  intros Hrx Hry r z. subst r z. unfold CodedPerspective.sampleDirect.
  destruct (Qlt_bool _ _ || Qlt_bool _ _) eqn:Eclip.
  { left. repeat split. }
  destruct (CodedPerspective.outsideUnitSquare _ _) eqn:Eo.
  { left. repeat split. }
  right. cbn [CodedPerspective.ds_pdf CodedPerspective.ds_measure CodedPerspective.ds_uv
              CodedPerspective.ds_value].
  apply orb_false_iff in Eclip as [En Ef].
  apply Qlt_bool_false in En, Ef.
  apply outsideUnitSquare_false in Eo as [Hx Hy].
  split; [reflexivity|]. split; [reflexivity|]. split; [split; assumption|]. split.
  - eexists. eexists. split; [reflexivity|]. split; now apply scale_in_range.
  - intros Hn Hlen Htex.
    set (refP := CodedPerspective.toLocalPoint cam ref).
    assert (Hinv : (0 <= 1 / CodedPerspective.vecLength cam refP)%Q).
    { destruct (Qlt_le_dec 0 (CodedPerspective.vecLength cam refP)) as [Hp|Hz].
      - apply Qdiv_nonneg; [lra | exact Hp].
      - assert (E : (CodedPerspective.vecLength cam refP == 0)%Q)
          by (apply Qle_antisym; [exact Hz | apply Hlen]).
        unfold Qdiv. rewrite E. cbn. discriminate. }
    apply Qmult_le_0_compat; [apply Qmult_le_0_compat; [apply Qmult_le_0_compat|]|];
      try assumption; [|apply Htex].
    now apply importance_nonneg.
Qed.

Lemma sampleDirect_outcomes_witness :
  let cam := CodedPerspective.mkCamera
               (fun p => ((1 # 2)%Q, (1 # 4)%Q, 0%Q)) (fun p => p) (fun p => p)
               (640, 480)%Q ((1 # 640)%Q, (1 # 480)%Q) (8, 8)%Q (1 # 10) 100
               (fun _ => true) 1 (fun _ _ => 1%Q) (fun _ => 2%Q) in
  CodedPerspective.ds_pdf (CodedPerspective.sampleDirect cam (0, 0, 2)%Q) = 1%Q
  /\ (0 <= CodedPerspective.ds_value (CodedPerspective.sampleDirect cam (0, 0, 2)%Q))%Q.
Proof.
  intros cam. split; [reflexivity|].
  destruct (sampleDirect_outcomes cam (0, 0, 2)%Q) as [(H0 & _)|(_ & _ & _ & _ & H)].
  - cbn. discriminate.
  - cbn. discriminate.
  - vm_compute in H0. discriminate H0.
  - apply H.
    + cbn. discriminate.
    + intros p. cbn. discriminate.
    + intros i j. cbn. discriminate.
Defined.

Lemma getSamplePosition_on_film_witness :
  let cam := CodedPerspective.mkCamera
               (fun p => ((1 # 2)%Q, (1 # 4)%Q, 0%Q)) (fun p => p) (fun p => p)
               (640, 480)%Q ((1 # 640)%Q, (1 # 480)%Q) (8, 8)%Q (1 # 10) 100
               (fun _ => true) 1 (fun _ _ => 1%Q) (fun _ => 2%Q) in
  CodedPerspective.getSamplePosition cam (0, 0, 1)%Q
  = Some (((1 # 2) * 640)%Q, ((1 # 4) * 480)%Q)
  /\ (0 <= (1 # 2) * 640 <= 640)%Q.
Proof.
  intros cam. split; [reflexivity|].
  destruct (getSamplePosition_on_film cam (0, 0, 1)%Q ((1 # 2) * 640)%Q ((1 # 4) * 480)%Q)
    as (_ & Hx & _).
  - cbn. discriminate.
  - cbn. discriminate.
  - reflexivity.
  - exact Hx.
Defined.

(** X23. The importance of the coded perspective camera is zero for a
    direction that does not point in front of the camera and is never
    negative (for a normalization that is not); and for a direction in front
    of the camera internalEvalDirection is the importance times the texel of
    the coded mask that the direction hits. *)
Theorem importance_and_internalEvalDirection
    (cam : CodedPerspective.Camera) (d : CodedPerspective.Point) :
  let inv := (1 / CodedPerspective.pz d)%Q in
  let sample := CodedPerspective.m_cameraToSample cam
                  ((CodedPerspective.px d * inv)%Q, (CodedPerspective.py d * inv)%Q, 1%Q) in
  let texel := CodedPerspective.evalTexel cam
                 (Qfloor (CodedPerspective.px sample * fst (CodedPerspective.m_mapRes cam)))
                 (Qfloor (CodedPerspective.py sample * snd (CodedPerspective.m_mapRes cam))) in
  ((CodedPerspective.pz d <= 0)%Q -> CodedPerspective.importance cam d = 0%Q)
  /\ ((0 <= CodedPerspective.m_normalization cam)%Q ->
      (0 <= CodedPerspective.importance cam d)%Q)
  /\ ((0 < CodedPerspective.pz d)%Q ->
      (CodedPerspective.internalEvalDirection cam d
       == CodedPerspective.importance cam d * texel)%Q).
Proof.
  intros inv sample texel. split; [|split].
  - intros Hz. unfold CodedPerspective.importance.
    apply Qle_bool_iff in Hz. now rewrite Hz.
  - apply importance_nonneg.
  - intros Hz. subst texel sample inv.
    unfold CodedPerspective.internalEvalDirection, CodedPerspective.importance.
    assert (E : Qle_bool (CodedPerspective.pz d) 0 = false).
    { destruct (Qle_bool (CodedPerspective.pz d) 0) eqn:E; [|reflexivity].
      apply Qle_bool_iff in E. lra. }
    rewrite E. cbn [fst snd].
    destruct (negb _); [ring | reflexivity].
Qed.

Lemma importance_and_internalEvalDirection_witness :
  let cam := CodedPerspective.mkCamera
               (fun p => ((1 # 2)%Q, (1 # 4)%Q, 0%Q)) (fun p => p) (fun p => p)
               (640, 480)%Q ((1 # 640)%Q, (1 # 480)%Q) (8, 8)%Q (1 # 10) 100
               (fun _ => true) 3 (fun _ _ => (1 # 2)%Q) (fun _ => 2%Q) in
  (CodedPerspective.internalEvalDirection cam (0, 0, 2)%Q
   == CodedPerspective.importance cam (0, 0, 2)%Q * (1 # 2))%Q.
Proof.
  intros cam.
  apply (proj2 (proj2 (importance_and_internalEvalDirection cam (0, 0, 2)%Q))).
  reflexivity.
Defined.
